(** * Go-Clipper2 C bridge (capi/clipper_bridge.{h,cc}): model and properties

    The bridge converts between the flat C structs [cpt64], [cpath64],
    [cpaths64] and the engine's [Paths64], dispatches to the Clipper2 engine
    and maps failures to status codes.  The engine itself (Clipper64,
    BooleanOp, InflatePaths, RectClip) is external: it is an interface here.

    Memory is modelled as a finite map from block addresses to arrays of
    two-field struct cells.  Every field may be indeterminate, as memory
    returned by [operator new[]] is.  Reading an indeterminate field, going
    through a null or dangling pointer, or indexing past a block is undefined
    behaviour ([Fault]); a C++ exception is [Throw]. *)

From Stdlib Require Import ZArith Lia.
From stdpp Require Import base option list gmap.

Local Open Scope Z_scope.

(** ** Wire data model (clipper_bridge.h) *)

Abbreviation loc := positive.

(** A pointer is null or the address of the first element of a block. *)
Abbreviation ptr := (option loc).
Abbreviation nullptr := (@None loc) (only parsing).

Inductive val :=
| VInt (n : Z)
| VPtr (p : ptr).

(** Every struct of the header has exactly two fields:
    [cpt64 {x, y}], [cpath64 {len, pts}], [cpaths64 {len, items}]. *)
Inductive field := Fst | Snd.

Abbreviation f_x := Fst (only parsing).
Abbreviation f_y := Snd (only parsing).
Abbreviation f_len := Fst (only parsing).
Abbreviation f_pts := Snd (only parsing).
Abbreviation f_items := Snd (only parsing).

(** One struct in memory; [None] is an indeterminate field. *)
Abbreviation cell := (option val * option val)%type.
Abbreviation block := (list cell).

Definition undef_cell : cell := (None, None).

Definition get_field (f : field) (c : cell) : option val :=
  match f with Fst => fst c | Snd => snd c end.

Definition set_field (f : field) (v : val) (c : cell) : cell :=
  match f with Fst => (Some v, snd c) | Snd => (fst c, Some v) end.

Definition is_null (p : ptr) : bool :=
  match p with None => true | Some _ => false end.

Definition heap_load (h : gmap loc block) (l : loc) (i : nat) (f : field) : option val :=
  match h !! l with
  | Some b => match b !! i with
              | Some c => get_field f c
              | None => None
              end
  | None => None
  end.

Definition heap_store (h : gmap loc block) (l : loc) (i : nat) (f : field) (v : val)
  : option (gmap loc block) :=
  match h !! l with
  | Some b => match b !! i with
              | Some c => Some (<[l := <[i := set_field f v c]> b]> h)
              | None => None
              end
  | None => None
  end.

(** [int] is 32 bits, [size_t] 64 bits, [sizeof(cpath64) = sizeof(cpt64) = 16].
    [to_int] is the cast [(int)n], [to_size_t] the conversion to [size_t];
    both wrap around. *)
Definition to_int (z : Z) : Z := (z + 2 ^ 31) mod 2 ^ 32 - 2 ^ 31.
Definition to_size_t (z : Z) : Z := z mod 2 ^ 64.
Definition sizeof_struct : Z := 16.
Definition size_mul (a b : Z) : Z := to_size_t (to_size_t a * to_size_t b).

(** No allocator serves a request above [PTRDIFF_MAX] bytes. *)
Definition max_alloc : Z := 2 ^ 63 - 1.

(** ** Engine-side types (clipper2/clipper.h) *)

Record Point64 := mkPoint64 { px : Z; py : Z }.
Abbreviation Path64 := (list Point64).
Abbreviation Paths64 := (list Path64).
Record Rect64 := mkRect64 { left : Z; top : Z; right : Z; bottom : Z }.

Inductive ClipType := CT_Intersection | CT_Union | CT_Difference | CT_Xor.
Inductive FillRule := FR_EvenOdd | FR_NonZero | FR_Positive | FR_Negative.
Inductive JoinType := JT_Square | JT_Bevel | JT_Round | JT_Miter.
Inductive EndType := ET_Polygon | ET_Joined | ET_Butt | ET_Square | ET_Round.

Inductive exn := std_bad_alloc | engine_error.

(** The geometry engine is an external collaborator: each entry point either
    returns or throws.  [clipper] is the state of a [Clipper64] object. *)
Class Engine := {
  double : Type;
  clipper : Type;
  Clipper64_new : clipper;
  AddSubject : Paths64 -> clipper -> exn + clipper;
  AddOpenSubject : Paths64 -> clipper -> exn + clipper;
  AddClip : Paths64 -> clipper -> exn + clipper;
  Execute : ClipType -> FillRule -> clipper -> exn + (Paths64 * Paths64);
  BooleanOp : ClipType -> FillRule -> Paths64 -> Paths64 -> exn + Paths64;
  InflatePaths : Paths64 -> double -> JoinType -> EndType -> double -> double -> exn + Paths64;
  RectClip : Rect64 -> Paths64 -> exn + Paths64
}.

Section Bridge.

Context {E : Engine}.

(** Enumerators that clipper_bridge.cc names in [toJT] and [toET] but that
    clipper_bridge.h does not declare; their values are parameters. *)
Variable C_JOIN_BEVEL : Z.
Variable C_END_POLYGON : Z.

(** ** Machine state and effects *)

Inductive event :=
| EvAddSubject (ps : Paths64)
| EvAddOpenSubject (ps : Paths64)
| EvAddClip (ps : Paths64)
| EvExecute (ct : ClipType) (fr : FillRule)
| EvBooleanOp (ct : ClipType) (fr : FillRule) (subj clip : Paths64)
| EvInflatePaths (ps : Paths64) (delta : double) (jt : JoinType) (et : EndType)
    (miter_limit arc_tolerance : double)
| EvRectClip (r : Rect64) (ps : Paths64)
| EvNew (l : loc) (bytes : Z)
| EvDelete (l : loc).

(** [oracle] decides, request by request, whether the allocator can serve;
    once exhausted every request is served.  [trace] logs engine calls and
    the bridge's own [new[]]/[delete[]], oldest first. *)
Record state := mkState {
  heap : gmap loc block;
  oracle : list bool;
  trace : list event
}.

Inductive outcome (A : Type) :=
| Ret (a : A) (s : state)
| Throw (e : exn) (s : state)
| Fault.
Arguments Ret {A} a s.
Arguments Throw {A} e s.
Arguments Fault {A}.

Definition M (A : Type) := state -> outcome A.

Definition ret {A} (a : A) : M A := fun s => Ret a s.

Definition bind {A B} (m : M A) (k : A -> M B) : M B :=
  fun s => match m s with
           | Ret a s' => k a s'
           | Throw e s' => Throw e s'
           | Fault => Fault
           end.

Notation "'do' x <- m ; k" := (bind m (fun x => k))
  (at level 10, x name, m at level 100, k at level 200).
Notation "'do_' m ; k" := (bind m (fun _ => k))
  (at level 10, m at level 100, k at level 200).

Definition throw {A} (e : exn) : M A := fun s => Throw e s.
Definition fault {A} : M A := fun _ => Fault.

(** [try { body } catch (...) { return v; }] *)
Definition try_catch_all {A} (body : M A) (v : A) : M A :=
  fun s => match body s with
           | Ret a s' => Ret a s'
           | Throw _ s' => Ret v s'
           | Fault => Fault
           end.

Definition log (ev : event) : M unit :=
  fun s => Ret tt (mkState (heap s) (oracle s) (trace s ++ [ev])).

Definition call_engine {A} (ev : event) (r : exn + A) : M A :=
  do_ log ev ; match r with inl e => throw e | inr a => ret a end.

Definition load (p : ptr) (i : nat) (f : field) : M val :=
  fun s => match p with
           | Some l => match heap_load (heap s) l i f with
                       | Some v => Ret v s
                       | None => Fault
                       end
           | None => Fault
           end.

Definition load_int (p : ptr) (i : nat) (f : field) : M Z :=
  do v <- load p i f ; match v with VInt n => ret n | VPtr _ => fault end.

Definition load_ptr (p : ptr) (i : nat) (f : field) : M ptr :=
  do v <- load p i f ; match v with VPtr q => ret q | VInt _ => fault end.

Definition store (p : ptr) (i : nat) (f : field) (v : val) : M unit :=
  fun s => match p with
           | Some l => match heap_store (heap s) l i f v with
                       | Some h' => Ret tt (mkState h' (oracle s) (trace s))
                       | None => Fault
                       end
           | None => Fault
           end.

(** The allocator's verdict on the next request, and the rest of the oracle. *)
Definition next_verdict (o : list bool) : bool * list bool :=
  match o with
  | [] => (true, [])
  | b :: o' => (b, o')
  end.

(** [operator new[](bytes, std::nothrow)]: null on failure, else a fresh
    block of [bytes / 16] structs with indeterminate contents. *)
Definition new_nothrow (bytes : Z) : M ptr :=
  fun s =>
    let '(ok, o') := next_verdict (oracle s) in
    if ok && (bytes <=? max_alloc) then
      let l := fresh (dom (heap s)) in
      Ret (Some l)
          (mkState (<[l := replicate (Z.to_nat (bytes / sizeof_struct)) undef_cell]> (heap s))
                   o' (trace s ++ [EvNew l bytes]))
    else Ret None (mkState (heap s) o' (trace s)).

(** [operator delete[](p)] on a non-null pointer: undefined behaviour
    unless [p] is a live block.  The heap holds the caller's blocks and
    those of [operator new[]] alike and this definition does not tell them
    apart: releasing a block of the caller, undefined in C++, is a plain
    release here.  The events [EvNew] and [EvDelete] of the trace keep the
    origin of every block. *)
Definition operator_delete (l : loc) : M unit :=
  fun s => match heap s !! l with
           | Some _ =>
               Ret tt (mkState (delete l (heap s)) (oracle s) (trace s ++ [EvDelete l]))
           | None => Fault
           end.

(** [std::vector::reserve]: the only place where the conversion to the
    engine's containers allocates; throws [std::bad_alloc] on failure. *)
Definition vector_reserve (n : Z) : M unit :=
  fun s =>
    let '(ok, o') := next_verdict (oracle s) in
    if ok then Ret tt (mkState (heap s) o' (trace s))
    else Throw std_bad_alloc (mkState (heap s) o' (trace s)).

(** ** toPaths64 (clipper_bridge.cc:20-36) *)

(** [for (int j = 0; j < cpath.len; ++j) p.push_back(Point64{pts[j].x, pts[j].y});]
    with [n] iterations left. *)
Fixpoint toPaths64_points (pts : ptr) (j n : nat) (p : Path64) : M Path64 :=
  match n with
  | O => ret p
  | S n' =>
      do x <- load_int pts j f_x ;
      do y <- load_int pts j f_y ;
      toPaths64_points pts (S j) n' (p ++ [mkPoint64 x y])
  end.

Definition toPaths64_path (items : ptr) (i : nat) : M Path64 :=
  do len <- load_int items i f_len ;
  if 0 <? len then
    do pts <- load_ptr items i f_pts ;
    match pts with
    | Some _ =>
        do_ vector_reserve len ;
        toPaths64_points pts 0 (Z.to_nat len) []
    | None => ret []
    end
  else ret [].

(** [for (int i = 0; i < cp->len; ++i) { ...; out.push_back(std::move(p)); }]
    with [n] iterations left.  Here and in the loops below the bound is
    read once, at loop entry: no iteration writes it. *)
Fixpoint toPaths64_loop (cp : ptr) (i n : nat) (out : Paths64) : M Paths64 :=
  match n with
  | O => ret out
  | S n' =>
      do items <- load_ptr cp 0 f_items ;
      do p <- toPaths64_path items i ;
      toPaths64_loop cp (S i) n' (out ++ [p])
  end.

Definition toPaths64 (cp : ptr) : M Paths64 :=
  match cp with
  | None => ret []
  | Some _ =>
      do len <- load_int cp 0 f_len ;
      if len <=? 0 then ret []
      else
        do_ vector_reserve len ;
        toPaths64_loop cp 0 (Z.to_nat len) []
  end.

(** ** fromPaths64 (clipper_bridge.cc:38-60) *)

(** [for (int j = 0; j < dp.len; ++j) { dp.pts[j].x = sp[j].x; dp.pts[j].y = sp[j].y; }]
    with [n] iterations left. *)
Fixpoint fromPaths64_points (sp : Path64) (pts : ptr) (j n : nat) : M unit :=
  match n with
  | O => ret tt
  | S n' =>
      match sp !! j with
      | Some pt =>
          do_ store pts j f_x (VInt (px pt)) ;
          do_ store pts j f_y (VInt (py pt)) ;
          fromPaths64_points sp pts (S j) n'
      | None => fault
      end
  end.

(** One iteration of the outer loop, on [src[i]] and [dst->items[i]]; the
    result is [false] when the iteration leaves through [return false]. *)
Definition fromPaths64_path (src : Paths64) (dst : ptr) (i : nat) : M bool :=
  match src !! i with
  | Some sp =>
      do items <- load_ptr dst 0 f_items ;
      let len := to_int (Z.of_nat (length sp)) in
      do_ store items i f_len (VInt len) ;
      if len =? 0 then
        do_ store items i f_pts (VPtr nullptr) ;
        ret true
      else
        do pts <- new_nothrow (size_mul sizeof_struct len) ;
        do_ store items i f_pts (VPtr pts) ;
        match pts with
        | None => ret false
        | Some _ =>
            do_ fromPaths64_points sp pts 0 (Z.to_nat len) ;
            ret true
        end
  | None => fault
  end.

Fixpoint fromPaths64_loop (src : Paths64) (dst : ptr) (i n : nat) : M bool :=
  match n with
  | O => ret true
  | S n' =>
      do ok <- fromPaths64_path src dst i ;
      if ok then fromPaths64_loop src dst (S i) n' else ret false
  end.

Definition fromPaths64 (src : Paths64) (dst : ptr) : M bool :=
  match dst with
  | None => ret false
  | Some _ =>
      let len := to_int (Z.of_nat (length src)) in
      do_ store dst 0 f_len (VInt len) ;
      do items <- new_nothrow (size_mul sizeof_struct len) ;
      do_ store dst 0 f_items (VPtr items) ;
      if negb (len =? 0) && is_null items then ret false
      else fromPaths64_loop src dst 0 (Z.to_nat len)
  end.

(** ** clipper2c_free_paths (clipper_bridge.cc:64-72) *)

(** [operator delete[](q)]; deleting a null pointer does nothing. *)
Definition delete_ptr (q : ptr) : M unit :=
  match q with
  | Some l => operator_delete l
  | None => ret tt
  end.

(** [for (int i = 0; i < p->len; ++i) if (p->items[i].pts) operator delete[](p->items[i].pts);] *)
Fixpoint free_paths_loop (p : ptr) (i n : nat) : M unit :=
  match n with
  | O => ret tt
  | S n' =>
      do items <- load_ptr p 0 f_items ;
      do pts <- load_ptr items i f_pts ;
      do_ delete_ptr pts ;
      free_paths_loop p (S i) n'
  end.

Definition clipper2c_free_paths (p : ptr) : M unit :=
  match p with
  | None => ret tt
  | Some _ =>
      do items <- load_ptr p 0 f_items ;
      match items with
      | None => ret tt
      | Some _ =>
          do len <- load_int p 0 f_len ;
          do_ free_paths_loop p 0 (Z.to_nat len) ;
          do items' <- load_ptr p 0 f_items ;
          do_ delete_ptr items' ;
          do_ store p 0 f_items (VPtr nullptr) ;
          store p 0 f_len (VInt 0)
      end
  end.

(** ** Enum conversions (clipper_bridge.h:25-50, clipper_bridge.cc:74-113) *)

Definition C_CLIP_INTERSECTION : Z := 0.
Definition C_CLIP_UNION : Z := 1.
Definition C_CLIP_DIFFERENCE : Z := 2.
Definition C_CLIP_XOR : Z := 3.

Definition C_FILL_EVENODD : Z := 0.
Definition C_FILL_NONZERO : Z := 1.
Definition C_FILL_POSITIVE : Z := 2.
Definition C_FILL_NEGATIVE : Z := 3.

Definition C_JOIN_SQUARE : Z := 0.
Definition C_JOIN_ROUND : Z := 1.
Definition C_JOIN_MITER : Z := 2.

Definition C_END_BUTT : Z := 0.
Definition C_END_SQUARE : Z := 1.
Definition C_END_ROUND : Z := 2.
Definition C_END_JOINED : Z := 3.

(** The enumerators the header declares for [c_jointype]. *)
Inductive c_jointype := JOIN_SQUARE | JOIN_ROUND | JOIN_MITER.

Definition c_jointype_value (j : c_jointype) : Z :=
  match j with
  | JOIN_SQUARE => C_JOIN_SQUARE
  | JOIN_ROUND => C_JOIN_ROUND
  | JOIN_MITER => C_JOIN_MITER
  end.

Definition toFR (fr : Z) : FillRule :=
  if fr =? C_FILL_NONZERO then FR_NonZero
  else if fr =? C_FILL_POSITIVE then FR_Positive
  else if fr =? C_FILL_NEGATIVE then FR_Negative
  else if fr =? C_FILL_EVENODD then FR_EvenOdd
  else FR_EvenOdd.

Definition toCT (ct : Z) : ClipType :=
  if ct =? C_CLIP_UNION then CT_Union
  else if ct =? C_CLIP_DIFFERENCE then CT_Difference
  else if ct =? C_CLIP_XOR then CT_Xor
  else if ct =? C_CLIP_INTERSECTION then CT_Intersection
  else CT_Intersection.

Definition toJT (jt : Z) : JoinType :=
  if jt =? C_JOIN_SQUARE then JT_Square
  else if jt =? C_JOIN_BEVEL then JT_Bevel
  else if jt =? C_JOIN_ROUND then JT_Round
  else if jt =? C_JOIN_MITER then JT_Miter
  else JT_Square.

Definition toET (et : Z) : EndType :=
  if et =? C_END_POLYGON then ET_Polygon
  else if et =? C_END_JOINED then ET_Joined
  else if et =? C_END_BUTT then ET_Butt
  else if et =? C_END_SQUARE then ET_Square
  else if et =? C_END_ROUND then ET_Round
  else ET_Polygon.

(** ** clipper2c_boolean64 (clipper_bridge.cc:115-155) *)

Definition is_empty {A} (l : list A) : bool :=
  match l with [] => true | _ => false end.

(** [if (!ps.empty()) clipper.Add...(ps);] *)
Definition add_if_nonempty (ev : Paths64 -> event)
  (add : Paths64 -> clipper -> exn + clipper) (ps : Paths64) (c : clipper) : M clipper :=
  if negb (is_empty ps) then call_engine (ev ps) (add ps c) else ret c.

(** Lines 126-147: from the imported inputs to [(sol, solOpen)]. *)
Definition boolean64_solve (ct fr : Z) (subj subjOp clip : Paths64) : M (Paths64 * Paths64) :=
  let clipper0 := Clipper64_new in
  let useClipper := negb (is_empty subjOp) || (negb (is_empty subj) && negb (is_empty clip)) in
  if useClipper then
    do c1 <- add_if_nonempty EvAddSubject AddSubject subj clipper0 ;
    do c2 <- add_if_nonempty EvAddOpenSubject AddOpenSubject subjOp c1 ;
    do c3 <- add_if_nonempty EvAddClip AddClip clip c2 ;
    call_engine (EvExecute (toCT ct) (toFR fr)) (Execute (toCT ct) (toFR fr) c3)
  else if negb (is_empty subj) && is_empty clip then
    do sol <- call_engine (EvBooleanOp (toCT ct) (toFR fr) subj clip)
                          (BooleanOp (toCT ct) (toFR fr) subj clip) ;
    ret (sol, [])
  else ret ([], []).

(** [out && !fromPaths64(sol, out)] *)
Definition export_failed (sol : Paths64) (out : ptr) : M bool :=
  match out with
  | Some _ => do ok <- fromPaths64 sol out ; ret (negb ok)
  | None => ret false
  end.

(** Lines 122-147: import the three inputs, then solve. *)
Definition boolean64_compute (ct fr : Z) (subjects subjects_open clips : ptr)
  : M (Paths64 * Paths64) :=
  do subj <- toPaths64 subjects ;
  do subjOp <- toPaths64 subjects_open ;
  do clip <- toPaths64 clips ;
  boolean64_solve ct fr subj subjOp clip.

(** Lines 149-151: export what the caller asked for. *)
Definition boolean64_export (sols : Paths64 * Paths64) (out_closed out_open : ptr) : M Z :=
  do failed_closed <- export_failed (fst sols) out_closed ;
  if failed_closed then ret 2
  else
    do failed_open <- export_failed (snd sols) out_open ;
    if failed_open then ret 3 else ret 0.

Definition clipper2c_boolean64 (ct fr : Z) (subjects subjects_open clips : ptr)
  (out_closed out_open : ptr) : M Z :=
  try_catch_all
    (do sols <- boolean64_compute ct fr subjects subjects_open clips ;
     boolean64_export sols out_closed out_open)
    1.

(** ** clipper2c_offset64 (clipper_bridge.cc:157-169) *)

Definition clipper2c_offset64 (paths : ptr) (delta : double) (jt et : Z)
  (miter_limit arc_tolerance : double) (out_paths : ptr) : M Z :=
  try_catch_all
    (do inp <- toPaths64 paths ;
     do out <- call_engine
                 (EvInflatePaths inp delta (toJT jt) (toET et) miter_limit arc_tolerance)
                 (InflatePaths inp delta (toJT jt) (toET et) miter_limit arc_tolerance) ;
     do ok <- fromPaths64 out out_paths ;
     if negb ok then ret 2 else ret 0)
    1.

(** ** clipper2c_rectclip64 (clipper_bridge.cc:171-183) *)

Definition clipper2c_rectclip64 (l t r b : Z) (in_paths out_paths : ptr) : M Z :=
  try_catch_all
    (do inp <- toPaths64 in_paths ;
     let rect := mkRect64 l t r b in
     do out <- call_engine (EvRectClip rect inp) (RectClip rect inp) ;
     do ok <- fromPaths64 out out_paths ;
     if negb ok then ret 2 else ret 0)
    1.

(** ** Reading a wire PathSet out of memory

    [wire_paths exact h cp] is the sequence of paths that the structure at
    [cp] denotes in heap [h].  The length fields are authoritative; a
    non-positive length denotes no data.  With [exact = true] this is the
    validity of the data model: a positive length comes with a buffer of
    exactly that many entries.  With [exact = false] it is what [toPaths64]
    accepts: a buffer of at least that many entries, and a null point
    buffer standing for an empty path. *)

Definition cell_point (c : cell) : option Point64 :=
  match c with
  | (Some (VInt x), Some (VInt y)) => Some (mkPoint64 x y)
  | _ => None
  end.

(** The value of a field of type [int]. *)
Definition int_field (v : option val) : option Z :=
  match v with
  | Some (VInt n) => if (- 2 ^ 31 <=? n) && (n <? 2 ^ 31) then Some n else None
  | _ => None
  end.

Definition sized (exact : bool) (n : nat) (b : block) : option block :=
  if exact then (if decide (length b = n) then Some b else None)
  else (if decide (n <= length b)%nat then Some (take n b) else None).

Definition wire_points (exact : bool) (h : gmap loc block) (l : loc) (n : nat)
  : option Path64 :=
  match h !! l with
  | Some b => match sized exact n b with
              | Some b' => mapM cell_point b'
              | None => None
              end
  | None => None
  end.

Definition wire_path (exact : bool) (h : gmap loc block) (c : cell) : option Path64 :=
  match int_field (fst c) with
  | Some len =>
      if 0 <? len then
        match snd c with
        | Some (VPtr (Some l)) => wire_points exact h l (Z.to_nat len)
        | Some (VPtr None) => if exact then None else Some []
        | _ => None
        end
      else Some []
  | None => None
  end.

Definition wire_paths (exact : bool) (h : gmap loc block) (cp : ptr) : option Paths64 :=
  match cp with
  | None => Some []
  | Some p =>
      match int_field (heap_load h p 0 f_len) with
      | Some len =>
          if len <=? 0 then Some []
          else match heap_load h p 0 f_items with
               | Some (VPtr (Some il)) =>
                   match h !! il with
                   | Some b => match sized exact (Z.to_nat len) b with
                               | Some b' => mapM (wire_path exact h) b'
                               | None => None
                               end
                   | None => None
                   end
               | _ => None
               end
      | None => None
      end
  end.

(** A pointer through which a [cpaths64] can be written: null is not. *)
Definition writable (h : gmap loc block) (p : loc) : Prop :=
  exists c rest, h !! p = Some (c :: rest).

Definition writable_or_null (h : gmap loc block) (p : ptr) : Prop :=
  match p with
  | Some l => writable h l
  | None => True
  end.

(** ** What a completed export leaves in memory *)

(** What survives the casts [(int)src.size()]: the whole container when its
    size fits [int]. *)
Definition int_prefix {A} (l : list A) : list A :=
  take (Z.to_nat (to_int (Z.of_nat (length l)))) l.

Definition exported_paths (src : Paths64) : Paths64 :=
  int_prefix <$> int_prefix src.

Definition fits_int {A} (l : list A) : Prop := Z.of_nat (length l) < 2 ^ 31.

Definition handle_cell (len : Z) (items : ptr) : cell :=
  (Some (VInt len), Some (VPtr items)).

Definition path_cell (sp : Path64) (q : ptr) : cell :=
  (Some (VInt (Z.of_nat (length sp))), Some (VPtr q)).

Definition point_cell (pt : Point64) : cell :=
  (Some (VInt (px pt)), Some (VInt (py pt))).

(** Path [sp] sits in the buffer [q]: no buffer for an empty path. *)
Definition buffer_holds (h : gmap loc block) (sp : Path64) (q : ptr) : Prop :=
  match q with
  | None => sp = []
  | Some l => sp <> [] /\ h !! l = Some (point_cell <$> sp)
  end.

(** The handle at [p] is fully populated with [paths]: its fields, the
    path array [items] and the point buffers [bufs] are all written, and
    the blocks are pairwise distinct. *)
Definition populated (h : gmap loc block) (p : loc) (paths : Paths64)
  (items : ptr) (bufs : list ptr) : Prop :=
  (exists rest, h !! p = Some (handle_cell (Z.of_nat (length paths)) items :: rest)) /\
  match items with
  | None => paths = [] /\ bufs = []
  | Some il =>
      h !! il = Some (zip_with path_cell paths bufs) /\
      Forall2 (buffer_holds h) paths bufs /\
      NoDup (p :: il :: omap id bufs)
  end.

(** The blocks a handle owns. *)
Definition owned_blocks (items : ptr) (bufs : list ptr) : list loc :=
  omap id bufs ++ omap id [items].

(** The handle at [p] can be released: the data-model invariant on its
    fields ([len] entries behind a non-null [items], no data behind a null
    one) and live, pairwise distinct blocks. *)
Definition releasable (h : gmap loc block) (p : loc) (len : Z)
  (items : ptr) (bufs : list ptr) : Prop :=
  (exists rest, h !! p = Some (handle_cell len items :: rest)) /\
  match items with
  | None => len = 0 /\ bufs = []
  | Some il =>
      (exists cells, h !! il = Some cells /\
         Forall2 (fun c q => snd c = Some (VPtr q)) (take (Z.to_nat len) cells) bufs /\
         length bufs = Z.to_nat len) /\
      (forall l, l ∈ omap id bufs -> is_Some (h !! l)) /\
      NoDup (p :: il :: omap id bufs)
  end.

(** The handle at [p] with its two fields overwritten. *)
Definition set_handle (h : gmap loc block) (p : loc) (len : Z) (items : ptr)
  : gmap loc block :=
  match h !! p with
  | Some (_ :: rest) => <[p := handle_cell len items :: rest]> h
  | _ => h
  end.

Definition delete_all (ls : list loc) (h : gmap loc block) : gmap loc block :=
  foldr delete h ls.

(** ** Engine calls in a trace *)

Definition is_engine_event (ev : event) : bool :=
  match ev with
  | EvNew _ _ | EvDelete _ => false
  | _ => true
  end.

Definition engine_events (tr : list event) : list event :=
  filter (fun ev => is_engine_event ev = true) tr.

(** Registration of the non-empty input sets with a fresh [Clipper64], in
    the order closed subjects, open subjects, clips. *)
Definition registrations (subj subjOp clip : Paths64) : list event :=
  (if is_empty subj then [] else [EvAddSubject subj]) ++
  (if is_empty subjOp then [] else [EvAddOpenSubject subjOp]) ++
  (if is_empty clip then [] else [EvAddClip clip]).

Definition register (add : Paths64 -> clipper -> exn + clipper) (ps : Paths64)
  (c : exn + clipper) : exn + clipper :=
  match c with
  | inr c' => if is_empty ps then inr c' else add ps c'
  | inl e => inl e
  end.

Definition registered (subj subjOp clip : Paths64) : exn + clipper :=
  register AddClip clip
    (register AddOpenSubject subjOp
       (register AddSubject subj (inr Clipper64_new))).

Definition with_trace (s : state) (evs : list event) : state :=
  mkState (heap s) (oracle s) (trace s ++ evs).

Definition all_granted (o : list bool) : Prop := Forall (fun b => b = true) o.

(** [s'] differs from [s] at most in the allocator's oracle. *)
Definition same_memory (s s' : state) : Prop :=
  heap s' = heap s /\ trace s' = trace s /\
  (all_granted (oracle s) -> all_granted (oracle s')).

(** What an import that does not touch undefined behaviour ends in: the
    denoted paths, or [std::bad_alloc] when the allocator refuses. *)
Definition imports {A} (s : state) (ps : A) (r : outcome A) : Prop :=
  match r with
  | Ret a s' => a = ps /\ same_memory s s'
  | Throw e s' => e = std_bad_alloc /\ same_memory s s' /\ ~ all_granted (oracle s)
  | Fault => False
  end.

(** ** The loop invariant of [fromPaths64]

    [hb] is the heap at loop entry, [n] the number of paths to export and
    [paths], [bufs] the paths exported so far with their buffers. *)
Definition export_inv (hb : gmap loc block) (p il : loc) (n : nat) (rest : list cell)
  (paths : Paths64) (bufs : list ptr) (h : gmap loc block) : Prop :=
  length bufs = length paths /\
  h !! p = Some (handle_cell (Z.of_nat n) (Some il) :: rest) /\
  h !! il = Some (zip_with path_cell paths bufs
                  ++ replicate (n - length paths) undef_cell) /\
  Forall2 (buffer_holds h) paths bufs /\
  NoDup (p :: il :: omap id bufs) /\
  (forall l, l ∈ omap id bufs -> l ∉ dom hb) /\
  (forall l, l ∉ omap id bufs -> l <> il -> h !! l = hb !! l).

(** What a successful [fromPaths64 src (Some p)] started in [s] leaves in
    [s']: a populated handle whose blocks are fresh, and nothing else
    touched. *)
Definition export_post (s : state) (p : loc) (src : Paths64) (s' : state) : Prop :=
  exists items bufs,
    populated (heap s') p (exported_paths src) items bufs /\
    (forall l, l ∈ owned_blocks items bufs -> l ∉ dom (heap s)) /\
    (forall l, l ∉ owned_blocks items bufs -> l <> p -> heap s' !! l = heap s !! l) /\
    (forall c rest, heap s !! p = Some (c :: rest) ->
       heap s' !! p
       = Some (handle_cell (Z.of_nat (length (exported_paths src))) items :: rest)).

(** [n] successive calls of [clipper2c_free_paths] on the same handle. *)
Fixpoint free_paths_times (p : ptr) (n : nat) : M unit :=
  match n with
  | O => ret tt
  | S n' => do_ clipper2c_free_paths p ; free_paths_times p n'
  end.

(** A computation that raises no C++ exception. *)
Definition never_throws {A} (m : M A) : Prop :=
  forall s e s', m s <> Throw e s'.

(** A computation that leaves the heap alone and logs engine calls only. *)
Definition leaves_heap {A} (m : M A) : Prop :=
  forall s,
    match m s with
    | Ret _ s' | Throw _ s' =>
        heap s' = heap s /\
        exists evs, trace s' = trace s ++ evs /\
                    Forall (fun ev => is_engine_event ev = true) evs
    | Fault => True
    end.

(** A computation that changes neither the heap nor the trace. *)
Definition reads_only {A} (m : M A) : Prop :=
  forall s,
    match m s with
    | Ret _ s' | Throw _ s' => heap s' = heap s /\ trace s' = trace s
    | Fault => True
    end.

(** ** Where a block comes from

    The heap does not record which blocks [operator new[]] returned; the
    trace does.  [from_new tr l]: by the trace [tr], the block [l] was
    returned by [operator new[]] and has not been released since. *)
Definition provenance_step (l : loc) (b : bool) (ev : event) : bool :=
  match ev with
  | EvNew l' _ => if decide (l' = l) then true else b
  | EvDelete l' => if decide (l' = l) then false else b
  | _ => b
  end.

Definition from_new (tr : list event) (l : loc) : bool :=
  foldl (provenance_step l) false tr.

(** A computation that raises no C++ exception but [e0]. *)
Definition throws_only {A} (e0 : exn) (m : M A) : Prop :=
  forall s e s', m s = Throw e s' -> e = e0.


(** ** Footprints

    [allocated s s' ev]: [ev] is the allocation of a block that did not
    exist in [s] and is live in [s']. *)
Definition allocated (s s' : state) (ev : event) : Prop :=
  exists l bytes, ev = EvNew l bytes /\ heap s !! l = None /\ is_Some (heap s' !! l).

(** From [s] to [s'] no block that existed was changed or released, except
    that the block at [w] may have been written; the trace gained
    allocations only, of blocks that are still live. *)
Definition footprint (w : loc) (s s' : state) : Prop :=
  (forall l, is_Some (heap s !! l) -> l <> w -> heap s' !! l = heap s !! l) /\
  (is_Some (heap s !! w) -> is_Some (heap s' !! w)) /\
  exists news, trace s' = trace s ++ news /\ Forall (allocated s s') news.

Definition is_delete_event (ev : event) : bool :=
  match ev with
  | EvDelete _ => true
  | _ => false
  end.

(** The same for a call with output pointers [outs]: blocks other than the
    output handles are as they were, every block is still live, and nothing
    was released. *)
Definition caller_memory_kept (outs : list ptr) (s s' : state) : Prop :=
  (forall l, is_Some (heap s !! l) -> Some l ∉ outs -> heap s' !! l = heap s !! l) /\
  (forall l, is_Some (heap s !! l) -> is_Some (heap s' !! l)) /\
  exists evs, trace s' = trace s ++ evs /\
              Forall (fun ev => is_delete_event ev = false) evs.


End Bridge.

Arguments Ret {E A} a s.
Arguments Throw {E A} e s.
Arguments Fault {E A}.

Notation "'do' x <- m ; k" := (bind m (fun x => k))
  (at level 10, x name, m at level 100, k at level 200).
Notation "'do_' m ; k" := (bind m (fun _ => k))
  (at level 10, m at level 100, k at level 200).

(** * Stand-in engines and sample memories

    The engine is external, so the examples below run the bridge against
    two simple stand-ins: one that answers every request by handing the
    subject paths back, and one whose every entry point raises a failure. *)

Definition echo_engine : Engine := {|
  double := Z;
  clipper := (Paths64 * Paths64 * Paths64)%type;
  Clipper64_new := ([], [], []);
  AddSubject := fun ps c => inr (fst (fst c) ++ ps, snd (fst c), snd c);
  AddOpenSubject := fun ps c => inr (fst (fst c), snd (fst c) ++ ps, snd c);
  AddClip := fun ps c => inr (fst (fst c), snd (fst c), snd c ++ ps);
  Execute := fun _ _ c => inr (fst (fst c), snd (fst c));
  BooleanOp := fun _ _ subj _ => inr subj;
  InflatePaths := fun ps _ _ _ _ _ => inr ps;
  RectClip := fun _ ps => inr ps
|}.

Definition failing_engine : Engine := {|
  double := Z;
  clipper := unit;
  Clipper64_new := tt;
  AddSubject := fun _ _ => inl engine_error;
  AddOpenSubject := fun _ _ => inl engine_error;
  AddClip := fun _ _ => inl engine_error;
  Execute := fun _ _ _ => inl engine_error;
  BooleanOp := fun _ _ _ _ => inl engine_error;
  InflatePaths := fun _ _ _ _ _ _ => inl engine_error;
  RectClip := fun _ _ => inl engine_error
|}.

Definition square : Path64 :=
  [mkPoint64 0 0; mkPoint64 10 0; mkPoint64 10 10; mkPoint64 0 10].

(** A caller's memory: at 1 a path set of two paths (array at 2), the
    square (points at 3) and an empty path; at 5 a path set whose only path
    has length 3 and a null point buffer (array at 6); at 7 a path set of
    length 1 with a null path array; at 8 and 9 two handles, not yet
    written. *)
Definition sample_heap : gmap loc block :=
  <[1%positive := [handle_cell 2 (Some 2%positive)]]>
  (<[2%positive := [path_cell square (Some 3%positive); (Some (VInt 0), None)]]>
  (<[3%positive := point_cell <$> square]>
  (<[5%positive := [handle_cell 1 (Some 6%positive)]]>
  (<[6%positive := [(Some (VInt 3), Some (VPtr None))]]>
  (<[7%positive := [handle_cell 1 None]]>
  (<[8%positive := [undef_cell]]>
  (<[9%positive := [undef_cell]]> ∅))))))).

Definition sample_state (E : Engine) : state := mkState sample_heap [] [].

(** The same memory with an allocator that refuses its first request. *)
Definition starved_state (E : Engine) : state := mkState sample_heap [false] [].

(** A handle at 8 that owns a path array at 10 and one point buffer at 11. *)
Definition owned_heap : gmap loc block :=
  <[8%positive := [handle_cell 2 (Some 10%positive)]]>
  (<[10%positive := [path_cell square (Some 11%positive); path_cell [] None]]>
  (<[11%positive := point_cell <$> square]> ∅)).

Definition owned_state (E : Engine) : state := mkState owned_heap [] [].

(** The same memory with an allocator that answers its requests as [o]
    says, one after the other. *)
Definition rationed_state (E : Engine) (o : list bool) : state :=
  mkState sample_heap o [].

(** The memory of [owned_heap] with a second handle at 9, a copy of the one
    at 8. *)
Definition aliased_heap : gmap loc block :=
  <[9%positive := [handle_cell 2 (Some 10%positive)]]> owned_heap.

Definition aliased_state (E : Engine) : state := mkState aliased_heap [] [].

(** The memory of [owned_heap], its path array and point buffer obtained
    from [operator new[]]. *)
Definition bridge_owned_state (E : Engine) : state :=
  mkState owned_heap [] [EvNew 10%positive 32; EvNew 11%positive 64].


(** * Properties *)

Section Properties.

Context {E : Engine}.

Variable C_JOIN_BEVEL : Z.
Variable C_END_POLYGON : Z.

(** ** Stepping through the monad *)

Lemma bind_Ret {A B} (m : M A) (k : A -> M B) s a s' :
  m s = Ret a s' -> bind m k s = k a s'.
Proof. intros H. unfold bind. now rewrite H. Qed.

Lemma bind_Throw {A B} (m : M A) (k : A -> M B) s e s' :
  m s = Throw e s' -> bind m k s = Throw e s'.
Proof. intros H. unfold bind. now rewrite H. Qed.

Lemma bind_Ret_inv {A B} (m : M A) (k : A -> M B) s b s' :
  bind m k s = Ret b s' -> exists a s1, m s = Ret a s1 /\ k a s1 = Ret b s'.
Proof.
  unfold bind. destruct (m s) as [a s1|e s1|]; try discriminate. eauto.
Qed.

Lemma bind_Throw_inv {A B} (m : M A) (k : A -> M B) s e s' :
  bind m k s = Throw e s' ->
  m s = Throw e s' \/ exists a s1, m s = Ret a s1 /\ k a s1 = Throw e s'.
Proof.
  unfold bind. destruct (m s) as [a s1|e1 s1|]; try discriminate.
  - intros H. right. exists a, s1. split; [reflexivity | exact H].
  - intros [= <- <-]. now left.
Qed.

Lemma bind_not_Fault {A B} (m : M A) (k : A -> M B) s :
  m s <> Fault -> (forall a s1, m s = Ret a s1 -> k a s1 <> Fault) ->
  bind m k s <> Fault.
Proof.
  unfold bind. destruct (m s) as [a s1|e s1|]; [auto | discriminate | contradiction].
Qed.

Lemma load_Ret s l i f b c v :
  heap s !! l = Some b -> b !! i = Some c -> get_field f c = Some v ->
  load (Some l) i f s = Ret v s.
Proof.
  intros Hl Hi Hf. unfold load, heap_load. now rewrite Hl, Hi, Hf.
Qed.

Lemma load_int_Ret s l i f b c n :
  heap s !! l = Some b -> b !! i = Some c -> get_field f c = Some (VInt n) ->
  load_int (Some l) i f s = Ret n s.
Proof.
  intros Hl Hi Hf. unfold load_int.
  now rewrite (bind_Ret _ _ _ _ _ (load_Ret _ _ _ _ _ _ _ Hl Hi Hf)).
Qed.

Lemma load_ptr_Ret s l i f b c q :
  heap s !! l = Some b -> b !! i = Some c -> get_field f c = Some (VPtr q) ->
  load_ptr (Some l) i f s = Ret q s.
Proof.
  intros Hl Hi Hf. unfold load_ptr.
  now rewrite (bind_Ret _ _ _ _ _ (load_Ret _ _ _ _ _ _ _ Hl Hi Hf)).
Qed.

Lemma store_Ret s l i f v b c :
  heap s !! l = Some b -> b !! i = Some c ->
  store (Some l) i f v s
  = Ret tt (mkState (<[l := <[i := set_field f v c]> b]> (heap s)) (oracle s) (trace s)).
Proof.
  intros Hl Hi. unfold store, heap_store. now rewrite Hl, Hi.
Qed.

Lemma same_memory_refl s : same_memory s s.
Proof. repeat split; auto. Qed.

Lemma same_memory_trans s1 s2 s3 :
  same_memory s1 s2 -> same_memory s2 s3 -> same_memory s1 s3.
Proof.
  intros (H1 & H2 & H3) (H4 & H5 & H6).
  repeat split; [congruence | congruence | auto].
Qed.

Lemma next_verdict_granted o :
  all_granted o -> fst (next_verdict o) = true /\ all_granted (snd (next_verdict o)).
Proof.
  intros H. destruct o as [|b o]; simpl; [split; [reflexivity | constructor]|].
  inversion H; subst. now split.
Qed.

Lemma next_verdict_refused o :
  fst (next_verdict o) = false -> ~ all_granted o.
Proof.
  destruct o as [|b o]; simpl; [discriminate|].
  intros -> H. inversion H; subst. discriminate.
Qed.

Lemma vector_reserve_spec n s :
  (exists s', vector_reserve n s = Ret tt s' /\ same_memory s s') \/
  (exists s', vector_reserve n s = Throw std_bad_alloc s' /\ same_memory s s'
              /\ ~ all_granted (oracle s)).
Proof.
  unfold vector_reserve.
  destruct (next_verdict (oracle s)) as [ok o'] eqn:Hv.
  assert (Hg : all_granted (oracle s) -> all_granted o').
  { intros H. apply next_verdict_granted in H. now rewrite Hv in H. }
  destruct ok.
  - left. eexists; split; [reflexivity|]. repeat split; auto.
  - right. eexists; split; [reflexivity|]. repeat split; auto.
    apply next_verdict_refused. now rewrite Hv.
Qed.

Lemma load_handle_items s p len items rest :
  heap s !! p = Some (handle_cell len items :: rest) ->
  load_ptr (Some p) 0 f_items s = Ret items s.
Proof. intros H. now apply (load_ptr_Ret s p 0 Snd _ (handle_cell len items) items H). Qed.

Lemma load_handle_len s p len items rest :
  heap s !! p = Some (handle_cell len items :: rest) ->
  load_int (Some p) 0 f_len s = Ret len s.
Proof. intros H. now apply (load_int_Ret s p 0 Fst _ (handle_cell len items) len H). Qed.

(** ** Import *)

Lemma int_field_Some v n :
  int_field v = Some n <-> v = Some (VInt n) /\ - 2 ^ 31 <= n < 2 ^ 31.
Proof.
  unfold int_field. split.
  - destruct v as [[m|]|]; try discriminate.
    destruct ((- 2 ^ 31 <=? m) && (m <? 2 ^ 31)) eqn:Hr; [|discriminate].
    intros [= ->]. apply andb_true_iff in Hr as [H1%Z.leb_le H2%Z.ltb_lt]. auto.
  - intros [-> [H1%Z.leb_le H2%Z.ltb_lt]]. now rewrite H1, H2.
Qed.

Lemma mapM_Forall2 {A B} (f : A -> option B) (l : list A) (k : list B) :
  mapM f l = Some k <-> Forall2 (fun x y => f x = Some y) l k.
Proof. apply mapM_Some. Qed.

Lemma toPaths64_points_Ret s l b :
  heap s !! l = Some b ->
  forall n j acc pts,
    Forall2 (fun c pt => cell_point c = Some pt) (take n (drop j b)) pts ->
    (j + n <= length b)%nat ->
    toPaths64_points (Some l) j n acc s = Ret (acc ++ pts) s.
Proof.
  intros Hl. induction n as [|n IH]; intros j acc pts HF Hlen.
  - rewrite take_0 in HF. apply Forall2_nil_inv_l in HF. subst.
    simpl. now rewrite app_nil_r.
  - destruct (lookup_lt_is_Some_2 b j) as [c Hc]; [lia|].
    rewrite (drop_S _ _ _ Hc) in HF. rewrite firstn_cons in HF.
    apply Forall2_cons_inv_l in HF as (pt & pts' & Hpt & HF & ->).
    destruct c as [[[x|?]|] [[y|?]|]]; simpl in Hpt; try discriminate.
    injection Hpt as <-.
    simpl.
    rewrite (bind_Ret _ _ _ _ _ (load_int_Ret _ _ _ Fst _ _ x Hl Hc eq_refl)).
    rewrite (bind_Ret _ _ _ _ _ (load_int_Ret _ _ _ Snd _ _ y Hl Hc eq_refl)).
    rewrite (IH (S j) _ pts' HF); [|lia].
    now rewrite <- app_assoc.
Qed.

Lemma sized_lenient_inv n b b' :
  sized false n b = Some b' -> b' = take n b /\ (n <= length b)%nat.
Proof.
  unfold sized. destruct (decide (n <= length b)%nat); [|discriminate].
  intros [= <-]. now split.
Qed.

Lemma toPaths64_path_spec s il cells i c sp :
  heap s !! il = Some cells -> cells !! i = Some c ->
  wire_path false (heap s) c = Some sp ->
  imports s sp (toPaths64_path (Some il) i s).
Proof.
  intros Hil Hi Hw. unfold wire_path in Hw. unfold toPaths64_path.
  destruct c as [c1 c2]; cbn [fst snd] in Hw.
  destruct (int_field c1) as [len|] eqn:Hf; [|discriminate].
  apply int_field_Some in Hf as [-> _].
  rewrite (bind_Ret _ _ _ _ _ (load_int_Ret _ _ _ Fst _ _ len Hil Hi eq_refl)).
  destruct (0 <? len) eqn:Hpos.
  - destruct c2 as [[?|q]|]; try discriminate.
    rewrite (bind_Ret _ _ _ _ _ (load_ptr_Ret _ _ _ Snd _ _ q Hil Hi eq_refl)).
    destruct q as [l|].
    + unfold wire_points in Hw.
      destruct (heap s !! l) as [b|] eqn:Hl; [|discriminate].
      destruct (sized false (Z.to_nat len) b) as [b'|] eqn:Hs; [|discriminate].
      apply sized_lenient_inv in Hs as [-> Hle].
      apply mapM_Forall2 in Hw.
      destruct (vector_reserve_spec len s) as [(s' & Hr & Hm)|(s' & Hr & Hm & Hn)].
      * rewrite (bind_Ret _ _ _ _ _ Hr).
        destruct Hm as (Hh & Ht & Ho).
        assert (Hl' : heap s' !! l = Some b) by now rewrite Hh.
        rewrite (toPaths64_points_Ret s' l b Hl' _ 0%nat [] sp Hw); [|lia].
        simpl. repeat split; auto.
      * rewrite (bind_Throw _ _ _ _ _ Hr). simpl. auto.
    + injection Hw as <-. simpl. split; [reflexivity | apply same_memory_refl].
  - injection Hw as <-. simpl. split; [reflexivity | apply same_memory_refl].
Qed.

Lemma imports_weaken {A} s0 s (ps : A) r :
  same_memory s0 s -> imports s ps r -> imports s0 ps r.
Proof.
  intros Hm. destruct r as [a s'|e s'|]; simpl; [| |tauto].
  - intros [-> H]. split; [reflexivity|]. eapply same_memory_trans; eauto.
  - intros (-> & H & Hn). split; [reflexivity|]. split.
    + eapply same_memory_trans; eauto.
    + intros Hg. apply Hn. now apply Hm.
Qed.

Lemma toPaths64_loop_spec h p il len rest cells :
  h !! p = Some (handle_cell len (Some il) :: rest) ->
  h !! il = Some cells ->
  forall n i acc ps s,
    heap s = h ->
    Forall2 (fun c sp => wire_path false h c = Some sp) (take n (drop i cells)) ps ->
    (i + n <= length cells)%nat ->
    imports s (acc ++ ps) (toPaths64_loop (Some p) i n acc s).
Proof.
  intros Hp Hil. induction n as [|n IH]; intros i acc ps s Hs HF Hlen.
  - rewrite take_0 in HF. apply Forall2_nil_inv_l in HF. subst ps.
    simpl. rewrite app_nil_r. split; [reflexivity | apply same_memory_refl].
  - destruct (lookup_lt_is_Some_2 cells i) as [c Hc]; [lia|].
    rewrite (drop_S _ _ _ Hc) in HF. rewrite firstn_cons in HF.
    apply Forall2_cons_inv_l in HF as (sp & ps' & Hsp & HF & ->).
    simpl. subst h.
    rewrite (bind_Ret _ _ _ _ _ (load_handle_items _ _ _ _ _ Hp)).
    pose proof (toPaths64_path_spec s il cells i c sp Hil Hc Hsp) as Hpath.
    unfold bind. destruct (toPaths64_path (Some il) i s) as [a s'|e s'|]; simpl in Hpath.
    + destruct Hpath as [-> Hm].
      eapply imports_weaken; [exact Hm|].
      replace (acc ++ sp :: ps') with ((acc ++ [sp]) ++ ps') by now rewrite <- app_assoc.
      apply IH; [apply Hm | exact HF | lia].
    + exact Hpath.
    + exact Hpath.
Qed.

(** On every structure that [wire_paths false] can read, [toPaths64]
    returns what it denotes, unless the allocator refuses a [reserve]. *)
Lemma toPaths64_spec s cp ps :
  wire_paths false (heap s) cp = Some ps ->
  imports s ps (toPaths64 cp s).
Proof.
  unfold wire_paths, toPaths64. destruct cp as [p|].
  2:{ intros [= <-]. simpl. split; [reflexivity | apply same_memory_refl]. }
  unfold heap_load.
  destruct (heap s !! p) as [b|] eqn:Hp; [|discriminate].
  destruct (b !! 0%nat) as [[c1 c2]|] eqn:Hb; [|discriminate]. cbn [get_field fst snd].
  destruct (int_field c1) as [len|] eqn:Hf; [|discriminate].
  apply int_field_Some in Hf as [-> _].
  rewrite (bind_Ret _ _ _ _ _ (load_int_Ret _ _ _ Fst _ _ len Hp Hb eq_refl)).
  destruct (len <=? 0) eqn:Hlen.
  { intros [= <-]. simpl. split; [reflexivity | apply same_memory_refl]. }
  destruct c2 as [[?|[il|]]|]; try discriminate.
  destruct (heap s !! il) as [cells|] eqn:Hil; [|discriminate]. unfold sized.
  destruct (decide (Z.to_nat len <= length cells)%nat) as [Hle|]; [|discriminate].
  intros HF%mapM_Forall2.
  destruct b as [|c0 rest]; [discriminate|]. injection Hb as ->.
  destruct (vector_reserve_spec len s) as [(s' & Hr & Hm)|(s' & Hr & Hm & Hn)].
  - rewrite (bind_Ret _ _ _ _ _ Hr).
    eapply imports_weaken; [exact Hm|].
    change ps with ([] ++ ps).
    eapply (toPaths64_loop_spec (heap s) p il len rest cells); eauto;
      solve [apply Hm | simpl; lia].
  - rewrite (bind_Throw _ _ _ _ _ Hr). simpl. auto.
Qed.

(** ** Integer conversions and allocation sizes *)

Lemma to_int_range z : - 2 ^ 31 <= to_int z < 2 ^ 31.
Proof. unfold to_int. pose proof (Z.mod_pos_bound (z + 2 ^ 31) (2 ^ 32)). lia. Qed.

Lemma to_int_fits z : 0 <= z < 2 ^ 31 -> to_int z = z.
Proof. intros H. unfold to_int. rewrite Z.mod_small; lia. Qed.

Lemma to_int_le z : 0 <= z -> to_int z <= z.
Proof.
  intros H. unfold to_int.
  pose proof (Z.mod_le (z + 2 ^ 31) (2 ^ 32)). lia.
Qed.

Lemma size_mul_served len :
  - 2 ^ 31 <= len < 2 ^ 31 ->
  size_mul sizeof_struct len <= max_alloc ->
  0 <= len /\ size_mul sizeof_struct len / sizeof_struct = len.
Proof.
  intros Hr. unfold size_mul, to_size_t, sizeof_struct, max_alloc.
  destruct (Z.le_gt_cases 0 len) as [Hn|Hn].
  - intros _. split; [exact Hn|].
    rewrite (Z.mod_small len), (Z.mod_small 16), Z.mod_small by lia.
    rewrite Z.mul_comm. now rewrite Z.div_mul.
  - intros H. exfalso.
    assert (H1 : len mod 2 ^ 64 = len + 2 ^ 64).
    { symmetry. apply (Z.mod_unique _ _ (-1)); lia. }
    rewrite H1, (Z.mod_small 16) in H by lia.
    assert (H2 : (16 * (len + 2 ^ 64)) mod 2 ^ 64 = 16 * len + 2 ^ 64).
    { symmetry. apply (Z.mod_unique _ _ 15); lia. }
    rewrite H2 in H. lia.
Qed.

Lemma int_prefix_length {A} (l : list A) :
  0 <= to_int (Z.of_nat (length l)) ->
  Z.of_nat (length (int_prefix l)) = to_int (Z.of_nat (length l)).
Proof.
  intros H. unfold int_prefix. rewrite length_take.
  pose proof (to_int_le (Z.of_nat (length l))). lia.
Qed.

Lemma int_prefix_fits {A} (l : list A) : fits_int l -> int_prefix l = l.
Proof.
  unfold fits_int, int_prefix. intros H.
  rewrite to_int_fits by lia. rewrite Nat2Z.id. apply firstn_all.
Qed.

Lemma exported_paths_fits (src : Paths64) :
  fits_int src -> Forall fits_int src -> exported_paths src = src.
Proof.
  intros H HF. unfold exported_paths. rewrite (int_prefix_fits src H). clear H.
  induction HF as [|sp l Hsp _ IH]; [reflexivity|].
  rewrite fmap_cons. now rewrite (int_prefix_fits sp Hsp), IH.
Qed.

(** ** The allocator *)

Lemma new_nothrow_spec bytes s :
  exists q s', new_nothrow bytes s = Ret q s' /\
    (all_granted (oracle s) ->
     all_granted (oracle s') /\ (bytes <= max_alloc -> is_Some q)) /\
    match q with
    | None => heap s' = heap s /\ trace s' = trace s
    | Some l =>
        (l ∉ dom (heap s)) /\ bytes <= max_alloc /\
        heap s' = <[l := replicate (Z.to_nat (bytes / sizeof_struct)) undef_cell]> (heap s) /\
        trace s' = trace s ++ [EvNew l bytes]
    end.
Proof.
  unfold new_nothrow. destruct (next_verdict (oracle s)) as [ok o'] eqn:Hv.
  assert (Hg : all_granted (oracle s) -> ok = true /\ all_granted o').
  { intros H. apply next_verdict_granted in H. now rewrite Hv in H. }
  destruct (ok && (bytes <=? max_alloc)) eqn:Hok.
  - apply andb_true_iff in Hok as [_ Hb]. apply Z.leb_le in Hb.
    eexists _, _. split; [reflexivity|]. simpl. split.
    + intros H. split; [now apply Hg | eauto].
    + repeat split; auto. apply is_fresh.
  - eexists _, _. split; [reflexivity|]. simpl. split; [|auto].
    intros H. destruct (Hg H) as [-> Ho]. split; [exact Ho|].
    intros Hb%Z.leb_le. simpl in Hok. congruence.
Qed.

Lemma size_mul_fits len :
  0 <= len < 2 ^ 31 -> size_mul sizeof_struct len <= max_alloc.
Proof.
  intros H. unfold size_mul, to_size_t, sizeof_struct, max_alloc.
  rewrite (Z.mod_small len), (Z.mod_small 16), Z.mod_small by lia. lia.
Qed.

(** ** Export: filling one point buffer *)

Lemma state_eta (s : state) : mkState (heap s) (oracle s) (trace s) = s.
Proof. now destruct s. Qed.

Lemma fromPaths64_points_Ret (sp : Path64) l :
  forall n j s,
    heap s !! l = Some ((point_cell <$> take j sp) ++ replicate n undef_cell) ->
    (j + n <= length sp)%nat ->
    fromPaths64_points sp (Some l) j n s
    = Ret tt (mkState (<[l := point_cell <$> take (j + n) sp]> (heap s))
                      (oracle s) (trace s)).
Proof.
  induction n as [|n IH]; intros j s Hl Hlen.
  - simpl. rewrite Nat.add_0_r. simpl in Hl. rewrite app_nil_r in Hl.
    rewrite insert_id by exact Hl. now rewrite state_eta.
  - destruct (lookup_lt_is_Some_2 sp j) as [pt Hpt]; [lia|].
    assert (Hpre : length (point_cell <$> take j sp) = j).
    { rewrite length_fmap, length_take. lia. }
    set (pre := point_cell <$> take j sp) in *.
    assert (Hj : (pre ++ replicate (S n) undef_cell) !! j = Some undef_cell).
    { rewrite lookup_app_r by lia. rewrite Hpre, Nat.sub_diag. reflexivity. }
    cbn [fromPaths64_points]. rewrite Hpt.
    rewrite (bind_Ret _ _ _ _ _ (store_Ret s l j Fst _ _ _ Hl Hj)).
    match goal with |- bind _ _ ?st = _ => set (s1 := st) end.
    assert (Hl1 : heap s1 !! l
                  = Some (<[j := set_field Fst (VInt (px pt)) undef_cell]>
                            (pre ++ replicate (S n) undef_cell))).
    { subst s1. simpl. apply lookup_insert_eq. }
    assert (Hj1 : (<[j := set_field Fst (VInt (px pt)) undef_cell]>
                     (pre ++ replicate (S n) undef_cell)) !! j
                  = Some (set_field Fst (VInt (px pt)) undef_cell)).
    { apply list_lookup_insert_eq. rewrite length_app, length_replicate. lia. }
    rewrite (bind_Ret _ _ _ _ _ (store_Ret s1 l j Snd _ _ _ Hl1 Hj1)).
    match goal with |- fromPaths64_points _ _ _ _ ?st = _ => set (s2 := st) end.
    assert (Hl2 : heap s2 !! l
                  = Some ((point_cell <$> take (S j) sp) ++ replicate n undef_cell)).
    { subst s2. simpl. rewrite lookup_insert_eq. f_equal.
      rewrite list_insert_insert_eq.
      rewrite (take_S_r _ _ _ Hpt), fmap_app. fold pre.
      replace j with (length pre + 0)%nat at 1 by lia.
      rewrite insert_app_r. simpl. now rewrite <- app_assoc. }
    rewrite (IH (S j) s2 Hl2) by lia.
    subst s2 s1. simpl. rewrite !insert_insert_eq.
    now rewrite Nat.add_succ_r.
Qed.

(** ** Export: one path *)

Lemma elem_of_omap_id (l : loc) (bufs : list ptr) :
  l ∈ omap id bufs <-> Some l ∈ bufs.
Proof.
  rewrite list_elem_of_omap. split.
  - intros (y & Hy & Hid). unfold id in Hid. now subst.
  - intros H. now exists (Some l).
Qed.

Lemma buffers_live h (paths : Paths64) (bufs : list ptr) :
  Forall2 (buffer_holds h) paths bufs ->
  forall l, l ∈ omap id bufs -> is_Some (h !! l).
Proof.
  intros HF l Hl%elem_of_omap_id.
  apply list_elem_of_lookup in Hl as [k Hk].
  destruct (Forall2_lookup_r _ _ _ _ _ HF Hk) as (sp & _ & Hb).
  simpl in Hb. destruct Hb as [_ Hb]. now rewrite Hb.
Qed.

Lemma buffers_frame h h' (paths : Paths64) (bufs : list ptr) :
  Forall2 (buffer_holds h) paths bufs ->
  (forall l, l ∈ omap id bufs -> h' !! l = h !! l) ->
  Forall2 (buffer_holds h') paths bufs.
Proof.
  intros HF Hsame. induction HF as [|sp q paths bufs Hb HF IH]; constructor.
  - destruct q as [l|]; [|exact Hb]. unfold buffer_holds in *.
    rewrite Hsame; [exact Hb|]. apply elem_of_omap_id. constructor.
  - apply IH. intros l Hl. apply Hsame.
    apply elem_of_omap_id. constructor. now apply elem_of_omap_id.
Qed.

Lemma engine_events_app tr1 tr2 :
  engine_events (tr1 ++ tr2) = engine_events tr1 ++ engine_events tr2.
Proof. unfold engine_events. apply filter_app. Qed.

Lemma engine_events_new tr l bytes :
  engine_events (tr ++ [EvNew l bytes]) = engine_events tr.
Proof. rewrite engine_events_app. simpl. apply app_nil_r. Qed.

Lemma export_inv_cell hb p il n rest (paths : Paths64) bufs h :
  export_inv hb p il n rest paths bufs h ->
  (length paths < n)%nat ->
  exists blk, h !! il = Some blk /\ blk !! length paths = Some undef_cell /\
    forall c, <[length paths := c]> blk
              = (zip_with path_cell paths bufs ++ [c])
                ++ replicate (n - (length paths + 1)) undef_cell.
Proof.
  intros (Hlen & _ & Hil & _) Hlt.
  eexists. split; [exact Hil|].
  assert (Hz : length (zip_with path_cell paths bufs) = length paths).
  { rewrite length_zip_with. lia. }
  split.
  - rewrite lookup_app_r by lia. rewrite Hz, Nat.sub_diag.
    destruct (n - length paths)%nat eqn:Hd; [lia|reflexivity].
  - intros c.
    replace (length paths) with (length (zip_with path_cell paths bufs) + 0)%nat at 1 by lia.
    rewrite insert_app_r. rewrite <- app_assoc. f_equal.
    replace (n - length paths)%nat with (S (n - (length paths + 1)))%nat by lia.
    reflexivity.
Qed.

Lemma export_inv_extend hb p il n rest (paths : Paths64) bufs h h' (sp : Path64) q :
  export_inv hb p il n rest paths bufs h ->
  (length paths < n)%nat ->
  (forall l, l ∉ omap id [q] -> l <> il -> h' !! l = h !! l) ->
  h' !! il = Some ((zip_with path_cell paths bufs ++ [path_cell sp q])
                   ++ replicate (n - (length paths + 1)) undef_cell) ->
  buffer_holds h' sp q ->
  (forall l, q = Some l -> h !! l = None) ->
  export_inv hb p il n rest (paths ++ [sp]) (bufs ++ [q]) h'.
Proof.
  intros (Hlen & Hp & Hil & HF & Hnd & Hfresh & Hframe) Hlt Hsame Hil' Hq Hnew.
  assert (Hlive : forall l, l ∈ omap id bufs -> is_Some (h !! l))
    by now apply (buffers_live h paths).
  assert (Hnq : forall l, is_Some (h !! l) -> l ∉ omap id [q]).
  { intros l Hl Hin. destruct q as [l'|]; simpl in Hin; [|now apply elem_of_nil in Hin].
    apply list_elem_of_singleton in Hin as ->.
    rewrite (Hnew l' eq_refl) in Hl. now destruct Hl. }
  apply NoDup_cons in Hnd as [Hp_notin Hnd].
  apply NoDup_cons in Hnd as [Hil_notin Hnd].
  assert (Hpil : p <> il) by (intros ->; apply Hp_notin; constructor).
  repeat split.
  - rewrite !length_app. simpl. lia.
  - rewrite Hsame; [exact Hp | | exact Hpil]. apply Hnq. now rewrite Hp.
  - rewrite Hil'. rewrite zip_with_app by lia. rewrite length_app. reflexivity.
  - apply Forall2_app; [|constructor; [exact Hq | constructor]].
    apply (buffers_frame h); [exact HF|].
    intros l Hl. apply Hsame.
    + apply Hnq. now apply Hlive.
    + intros ->. contradiction.
  - rewrite omap_app. apply NoDup_cons. split; [|apply NoDup_cons; split].
    + intros [H|H]%elem_of_cons; [contradiction|].
      apply elem_of_app in H as [H|H].
      * apply Hp_notin. now constructor.
      * apply (Hnq p); [now rewrite Hp | exact H].
    + intros [H|H]%elem_of_app; [contradiction|].
      apply (Hnq il); [now rewrite Hil | exact H].
    + apply NoDup_app. split; [exact Hnd|]. split.
      * intros l Hl Hl'. apply (Hnq l); [now apply Hlive | exact Hl'].
      * destruct q; simpl; [apply NoDup_singleton | apply NoDup_nil_2].
  - intros l. rewrite omap_app. intros [H|H]%elem_of_app; [now apply Hfresh|].
    destruct q as [l'|]; simpl in H; [|now apply elem_of_nil in H].
    apply list_elem_of_singleton in H as ->.
    apply not_elem_of_dom. rewrite <- Hframe.
    + now apply Hnew.
    + intros Hin. apply Hlive in Hin. rewrite (Hnew l' eq_refl) in Hin. now destruct Hin.
    + intros ->. rewrite (Hnew il eq_refl) in Hil. discriminate.
  - intros l. rewrite omap_app. intros Hl Hne.
    rewrite Hsame; [apply Hframe | | exact Hne]; [| exact Hne |].
    + intros H. apply Hl. apply elem_of_app. now left.
    + intros H. apply Hl. apply elem_of_app. now right.
Qed.

Lemma fromPaths64_path_spec (src : Paths64) hb p il n rest (paths : Paths64) bufs s
  (sp : Path64) :
  export_inv hb p il n rest paths bufs (heap s) ->
  (length paths < n)%nat ->
  src !! length paths = Some sp ->
  exists ok s', fromPaths64_path src (Some p) (length paths) s = Ret ok s' /\
    engine_events (trace s') = engine_events (trace s) /\
    (all_granted (oracle s) -> all_granted (oracle s') /\ (fits_int sp -> ok = true)) /\
    (ok = true ->
     exists q, export_inv hb p il n rest (paths ++ [int_prefix sp]) (bufs ++ [q]) (heap s')).
Proof.
  intros Hinv Hlt Hsrc.
  destruct (export_inv_cell _ _ _ _ _ _ _ _ Hinv Hlt) as (blk & Hil & Hcell & Hins).
  pose proof Hinv as (Hlen & Hp & _ & HF & Hnd & _).
  unfold fromPaths64_path. rewrite Hsrc.
  rewrite (bind_Ret _ _ _ _ _ (load_handle_items _ _ _ _ _ Hp)).
  set (len := to_int (Z.of_nat (length sp))).
  rewrite (bind_Ret _ _ _ _ _ (store_Ret s il _ Fst (VInt len) _ _ Hil Hcell)).
  set (blk1 := <[length paths := set_field Fst (VInt len) undef_cell]> blk).
  assert (Hcell1 : blk1 !! length paths = Some (Some (VInt len), None)).
  { apply list_lookup_insert_eq. now apply lookup_lt_Some in Hcell. }
  destruct (len =? 0) eqn:Hz.
  - apply Z.eqb_eq in Hz.
    match goal with |- context [bind _ _ ?st] => set (s1 := st) end.
    assert (Hil1 : heap s1 !! il = Some blk1) by apply lookup_insert_eq.
    rewrite (bind_Ret _ _ _ _ _ (store_Ret s1 il _ Snd (VPtr None) _ _ Hil1 Hcell1)).
    eexists _, _. split; [reflexivity|]. split; [reflexivity|]. split; [now split|].
    intros _. exists None.
    assert (Hip : int_prefix sp = []).
    { unfold int_prefix. fold len. rewrite Hz. reflexivity. }
    rewrite Hip.
    apply (export_inv_extend _ _ _ _ _ _ _ (heap s)); auto.
    + intros l _ Hne. simpl. now rewrite !lookup_insert_ne by congruence.
    + simpl. rewrite lookup_insert_eq. f_equal. subst blk1.
      rewrite list_insert_insert_eq. rewrite Hins. simpl. now rewrite Hz.
    + reflexivity.
    + discriminate.
  - apply Z.eqb_neq in Hz.
    match goal with |- context [bind _ _ ?st] => set (s1 := st) end.
    assert (Hil1 : heap s1 !! il = Some blk1) by apply lookup_insert_eq.
    destruct (new_nothrow_spec (size_mul sizeof_struct len) s1)
      as (q & s2 & Hnew & Hgr & Hq).
    rewrite (bind_Ret _ _ _ _ _ Hnew).
    destruct q as [l|].
    + destruct Hq as (Hfresh & Hbytes & Hh2 & Ht2).
      destruct (size_mul_served len (to_int_range _) Hbytes) as [Hpos Hcells].
      rewrite Hcells in Hh2.
      assert (Hlil : l <> il).
      { intros ->. apply Hfresh. apply elem_of_dom. now rewrite Hil1. }
      assert (Hl0 : heap s !! l = None).
      { apply not_elem_of_dom in Hfresh. subst s1. simpl in Hfresh.
        now rewrite lookup_insert_ne in Hfresh by congruence. }
      assert (Hil2 : heap s2 !! il = Some blk1).
      { rewrite Hh2. now rewrite lookup_insert_ne by congruence. }
      rewrite (bind_Ret _ _ _ _ _ (store_Ret s2 il _ Snd (VPtr (Some l)) _ _ Hil2 Hcell1)).
      match goal with |- context [bind _ _ ?st] => set (s3 := st) end.
      assert (Hl3 : heap s3 !! l
                    = Some ((point_cell <$> take 0 sp) ++ replicate (Z.to_nat len) undef_cell)).
      { subst s3. simpl. rewrite lookup_insert_ne by congruence.
        rewrite Hh2. now rewrite lookup_insert_eq. }
      assert (Hle : (0 + Z.to_nat len <= length sp)%nat).
      { pose proof (to_int_le (Z.of_nat (length sp))). fold len in H. lia. }
      rewrite (bind_Ret _ _ _ _ _ (fromPaths64_points_Ret sp l _ _ s3 Hl3 Hle)).
      eexists _, _. split; [reflexivity|]. split.
      { simpl. rewrite Ht2. subst s1. simpl. apply engine_events_new. }
      split; [intros Hg; split; [now apply Hgr | reflexivity]|].
      intros _. exists (Some l).
      assert (Hip : int_prefix sp = take (Z.to_nat len) sp) by reflexivity.
      apply (export_inv_extend _ _ _ _ _ _ _ (heap s)); auto.
      * intros l0 Hl0' Hne. simpl in Hl0'.
        assert (l0 <> l) by (intros ->; apply Hl0'; constructor).
        simpl. rewrite !lookup_insert_ne by congruence.
        rewrite Hh2. subst s1. simpl. now rewrite !lookup_insert_ne by congruence.
      * simpl. rewrite lookup_insert_ne by congruence. rewrite lookup_insert_eq.
        f_equal. subst blk1. rewrite list_insert_insert_eq. rewrite Hins.
        unfold path_cell. rewrite int_prefix_length by (fold len; lia). reflexivity.
      * simpl. split.
        -- rewrite Hip. intros Hnil. apply (f_equal length) in Hnil.
           rewrite length_take in Hnil. simpl in Hnil. lia.
        -- now rewrite lookup_insert_eq.
      * now intros ? [= <-].
    + destruct Hq as (Hh2 & Ht2).
      assert (Hil2 : heap s2 !! il = Some blk1) by now rewrite Hh2.
      rewrite (bind_Ret _ _ _ _ _ (store_Ret s2 il _ Snd (VPtr None) _ _ Hil2 Hcell1)).
      eexists _, _. split; [reflexivity|]. split; [simpl; now rewrite Ht2|].
      split; [|discriminate].
      intros Hg. destruct (Hgr Hg) as [Hg2 Hsome]. split; [exact Hg2|].
      intros Hfit. exfalso.
      assert (Hlsp : len = Z.of_nat (length sp)).
      { unfold len. apply to_int_fits. unfold fits_int in Hfit. lia. }
      destruct Hsome as [? [=]]. apply size_mul_fits. unfold fits_int in Hfit. lia.
Qed.

(** ** Export: the whole path set *)

Lemma fromPaths64_loop_spec (src : Paths64) hb p il n rest :
  (n <= length src)%nat ->
  forall k (paths : Paths64) bufs s,
    export_inv hb p il n rest paths bufs (heap s) ->
    paths = int_prefix <$> take (length paths) src ->
    (length paths + k = n)%nat ->
    exists ok s', fromPaths64_loop src (Some p) (length paths) k s = Ret ok s' /\
      engine_events (trace s') = engine_events (trace s) /\
      (all_granted (oracle s) ->
       all_granted (oracle s') /\ (Forall fits_int src -> ok = true)) /\
      (ok = true ->
       exists bufs', export_inv hb p il n rest (int_prefix <$> take n src) bufs' (heap s')).
Proof.
  intros Hn. induction k as [|k IH]; intros paths bufs s Hinv Hpaths Hk.
  - simpl. eexists _, _. split; [reflexivity|]. split; [reflexivity|].
    split; [now split|].
    intros _. exists bufs.
    replace (take n src) with (take (length paths) src) by (f_equal; lia).
    now rewrite <- Hpaths.
  - destruct (lookup_lt_is_Some_2 src (length paths)) as [sp Hsp]; [lia|].
    destruct (fromPaths64_path_spec src _ _ _ _ _ _ _ s sp Hinv ltac:(lia) Hsp)
      as (ok & s1 & Hstep & Hev & Hgr & Hok).
    cbn [fromPaths64_loop]. rewrite (bind_Ret _ _ _ _ _ Hstep).
    destruct ok.
    + destruct (Hok eq_refl) as (q & Hinv1).
      assert (Hlen1 : length (paths ++ [int_prefix sp]) = S (length paths)).
      { rewrite length_app. simpl. lia. }
      destruct (IH (paths ++ [int_prefix sp]) (bufs ++ [q]) s1 Hinv1)
        as (ok' & s' & Hloop & Hev' & Hgr' & Hok').
      * rewrite Hlen1. rewrite (take_S_r _ _ _ Hsp), fmap_app. simpl.
        now rewrite <- Hpaths.
      * lia.
      * rewrite Hlen1 in Hloop. exists ok', s'. split; [exact Hloop|].
        split; [congruence|]. split; [|exact Hok'].
        intros Hg. apply Hgr in Hg as [Hg _]. now apply Hgr'.
    + eexists _, _. split; [reflexivity|]. split; [exact Hev|].
      split; [|discriminate].
      intros Hg. destruct (Hgr Hg) as [Hg1 Hfit]. split; [exact Hg1|].
      intros HF. apply Hfit. eapply Forall_lookup_1; eauto.
Qed.

Lemma int_prefix_take {A} (l : list A) :
  int_prefix l = take (Z.to_nat (to_int (Z.of_nat (length l)))) l.
Proof. reflexivity. Qed.

Lemma fromPaths64_spec (src : Paths64) p s :
  writable (heap s) p ->
  exists ok s', fromPaths64 src (Some p) s = Ret ok s' /\
    engine_events (trace s') = engine_events (trace s) /\
    (all_granted (oracle s) ->
     all_granted (oracle s') /\ (fits_int src -> Forall fits_int src -> ok = true)) /\
    (ok = true -> export_post s p src s').
Proof.
  intros (c & rest & Hp). unfold fromPaths64.
  set (len := to_int (Z.of_nat (length src))).
  assert (Hc : (c :: rest) !! 0%nat = Some c) by reflexivity.
  rewrite (bind_Ret _ _ _ _ _ (store_Ret s p 0 Fst (VInt len) _ _ Hp Hc)).
  match goal with |- context [bind _ _ ?st] => set (s1 := st) end.
  destruct (new_nothrow_spec (size_mul sizeof_struct len) s1)
    as (q & s2 & Hnew & Hgr & Hq).
  rewrite (bind_Ret _ _ _ _ _ Hnew).
  assert (Hp1 : heap s1 !! p = Some ((Some (VInt len), snd c) :: rest))
    by apply lookup_insert_eq.
  assert (Hle : (Z.to_nat len <= length src)%nat).
  { pose proof (to_int_le (Z.of_nat (length src))). fold len in H. lia. }
  destruct q as [il|].
  - destruct Hq as (Hfresh & Hbytes & Hh2 & Ht2).
    destruct (size_mul_served len (to_int_range _) Hbytes) as [Hpos Hcells].
    rewrite Hcells in Hh2.
    assert (Hpil : p <> il).
    { intros ->. apply Hfresh. apply elem_of_dom. now rewrite Hp1. }
    assert (Hil0 : heap s !! il = None).
    { apply not_elem_of_dom in Hfresh. subst s1. simpl in Hfresh.
      now rewrite lookup_insert_ne in Hfresh by congruence. }
    assert (Hp2 : heap s2 !! p = Some ((Some (VInt len), snd c) :: rest)).
    { rewrite Hh2. now rewrite lookup_insert_ne by congruence. }
    assert (Hc2 : ((Some (VInt len), snd c) :: rest) !! 0%nat = Some (Some (VInt len), snd c))
      by reflexivity.
    rewrite (bind_Ret _ _ _ _ _ (store_Ret s2 p 0 Snd (VPtr (Some il)) _ _ Hp2 Hc2)).
    rewrite andb_false_r.
    match goal with |- context [fromPaths64_loop _ _ _ _ ?st] => set (s3 := st) end.
    assert (Hh3 : forall l, l <> p -> l <> il -> heap s3 !! l = heap s !! l).
    { intros l H1 H2. subst s3. simpl. rewrite lookup_insert_ne by congruence.
      rewrite Hh2. rewrite lookup_insert_ne by congruence.
      subst s1. simpl. now rewrite lookup_insert_ne by congruence. }
    assert (Hinv : export_inv (heap s3) p il (Z.to_nat len) rest [] [] (heap s3)).
    { repeat split; auto.
      - subst s3. simpl. rewrite lookup_insert_eq. simpl.
        unfold handle_cell. rewrite Z2Nat.id by lia. reflexivity.
      - subst s3. simpl. rewrite lookup_insert_ne by congruence.
        rewrite Hh2. rewrite lookup_insert_eq. simpl. rewrite Nat.sub_0_r. reflexivity.
      - simpl. apply NoDup_cons. split; [|apply NoDup_singleton].
        now intros ->%list_elem_of_singleton.
      - intros l Hl. simpl in Hl. now apply elem_of_nil in Hl. }
    destruct (fromPaths64_loop_spec src _ _ _ _ _ Hle (Z.to_nat len) [] [] s3 Hinv
                eq_refl eq_refl) as (ok & s' & Hloop & Hev & Hgr' & Hok).
    simpl in Hloop. exists ok, s'. split; [exact Hloop|]. split.
    { rewrite Hev. subst s3. simpl. rewrite Ht2. subst s1. simpl.
      apply engine_events_new. }
    split.
    { intros Hg. apply Hgr in Hg as [Hg _].
      destruct (Hgr' Hg) as [Hg' Hfit]. split; [exact Hg' | auto]. }
    intros ->. destruct (Hok eq_refl) as (bufs & Hlen & Hp' & Hil' & HF & Hnd & Hfr & Hframe).
    change (int_prefix <$> take (Z.to_nat len) src) with (exported_paths src) in *.
    assert (Hlp : length (exported_paths src) = Z.to_nat len).
    { unfold exported_paths. rewrite length_fmap, int_prefix_take, length_take.
      fold len. lia. }
    rewrite Hlp, Nat.sub_diag, app_nil_r in Hil'.
    exists (Some il), bufs. unfold populated, owned_blocks.
    assert (Hhandle : heap s' !! p
              = Some (handle_cell (Z.of_nat (length (exported_paths src))) (Some il) :: rest))
      by now rewrite Hlp.
    split; [|split; [|split]].
    + split; [now exists rest|]. auto.
    + intros l [Hl|Hl]%elem_of_app.
      * apply Hfr in Hl. intros Hd. apply Hl.
        apply elem_of_dom. apply elem_of_dom in Hd.
        destruct (decide (l = p)) as [->|]; [now rewrite (proj1 (proj2 Hinv))|].
        destruct (decide (l = il)) as [->|]; [now rewrite (proj1 (proj2 (proj2 Hinv)))|].
        now rewrite Hh3.
      * simpl in Hl. apply list_elem_of_singleton in Hl as ->.
        now apply not_elem_of_dom.
    + intros l Hl Hne.
      assert (l <> il).
      { intros ->. apply Hl. apply elem_of_app. right. simpl. constructor. }
      rewrite Hframe; [now apply Hh3 | | assumption].
      intros H'. apply Hl. apply elem_of_app. now left.
    + intros c' rest' Hp0. rewrite Hp in Hp0. injection Hp0 as <- <-. exact Hhandle.
  - destruct Hq as (Hh2 & Ht2).
    assert (Hp2 : heap s2 !! p = Some ((Some (VInt len), snd c) :: rest)) by now rewrite Hh2.
    assert (Hc2 : ((Some (VInt len), snd c) :: rest) !! 0%nat = Some (Some (VInt len), snd c))
      by reflexivity.
    rewrite (bind_Ret _ _ _ _ _ (store_Ret s2 p 0 Snd (VPtr None) _ _ Hp2 Hc2)).
    simpl is_null. rewrite andb_true_r.
    destruct (len =? 0) eqn:Hz; simpl negb; cbv iota.
    + apply Z.eqb_eq in Hz. rewrite Hz. simpl.
      eexists _, _. split; [reflexivity|]. split; [simpl; now rewrite Ht2|].
      split; [intros Hg; split; [now apply Hgr | reflexivity]|].
      intros _. exists None, [].
      assert (Hnil : exported_paths src = []).
      { unfold exported_paths. rewrite (int_prefix_take src). fold len.
        now rewrite Hz. }
      rewrite Hnil. unfold populated, owned_blocks. simpl.
      assert (Hhandle : <[p:=(Some (VInt 0), Some (VPtr None)) :: rest]> (heap s2) !! p
                        = Some (handle_cell (Z.of_nat 0) None :: rest))
        by now rewrite lookup_insert_eq.
      split; [|split; [|split]].
      * split; [now exists rest | auto].
      * intros l Hl. now apply elem_of_nil in Hl.
      * intros l _ Hne. rewrite lookup_insert_ne by congruence.
        rewrite Hh2. subst s1. simpl. now rewrite lookup_insert_ne by congruence.
      * intros c' rest' Hp0. rewrite Hp in Hp0. injection Hp0 as <- <-. exact Hhandle.
    + eexists _, _. split; [reflexivity|]. split; [simpl; now rewrite Ht2|].
      split; [|discriminate].
      intros Hg. destruct (Hgr Hg) as [Hg2 Hsome]. split; [exact Hg2|].
      intros Hfit _. exfalso.
      destruct Hsome as [? [=]]. apply size_mul_fits.
      unfold len, fits_int in *. rewrite to_int_fits; lia.
Qed.

(** ** Release *)

Lemma delete_all_delete (ls : list loc) (l : loc) (h : gmap loc block) :
  delete_all ls (delete l h) = delete l (delete_all ls h).
Proof.
  unfold delete_all. induction ls as [|l' ls IH]; simpl; [reflexivity|].
  rewrite IH. apply delete_delete.
Qed.

Lemma delete_all_snoc (ls : list loc) (l : loc) (h : gmap loc block) :
  delete_all (ls ++ [l]) h = delete l (delete_all ls h).
Proof.
  unfold delete_all. rewrite foldr_app. simpl. apply delete_all_delete.
Qed.

Lemma delete_all_lookup_notin (ls : list loc) (l : loc) (h : gmap loc block) :
  l ∉ ls -> delete_all ls h !! l = h !! l.
Proof.
  unfold delete_all. induction ls as [|l' ls IH]; simpl; [reflexivity|].
  intros Hnot. rewrite lookup_delete_ne.
  - apply IH. intros H. apply Hnot. now constructor.
  - intros ->. apply Hnot. constructor.
Qed.

Lemma delete_all_lookup_in (ls : list loc) (l : loc) (h : gmap loc block) :
  l ∈ ls -> delete_all ls h !! l = None.
Proof.
  unfold delete_all. induction ls as [|l' ls IH]; simpl.
  - intros H. now apply elem_of_nil in H.
  - intros H. destruct (decide (l' = l)) as [->|Hne].
    + apply lookup_delete_eq.
    + rewrite lookup_delete_ne by exact Hne. apply IH.
      apply elem_of_cons in H as [->|H]; [contradiction | exact H].
Qed.

Lemma operator_delete_Ret s l b :
  heap s !! l = Some b ->
  operator_delete l s
  = Ret tt (mkState (delete l (heap s)) (oracle s) (trace s ++ [EvDelete l])).
Proof. intros H. unfold operator_delete. now rewrite H. Qed.

Lemma free_paths_loop_spec p il len rest cells :
  forall k i qs s,
    heap s !! p = Some (handle_cell len (Some il) :: rest) ->
    heap s !! il = Some cells ->
    Forall2 (fun (c : cell) (q : ptr) => snd c = Some (VPtr q)) (take k (drop i cells)) qs ->
    length qs = k ->
    (forall l, l ∈ omap id qs -> is_Some (heap s !! l)) ->
    NoDup (p :: il :: omap id qs) ->
    free_paths_loop (Some p) i k s
    = Ret tt (mkState (delete_all (omap id qs) (heap s)) (oracle s)
                      (trace s ++ (EvDelete <$> omap id qs))).
Proof.
  induction k as [|k IH]; intros i qs s Hp Hil HF Hlen Hlive Hnd.
  - destruct qs; [|discriminate].
    simpl. unfold delete_all. simpl. rewrite app_nil_r. now rewrite state_eta.
  - destruct qs as [|q qs]; [discriminate|]. injection Hlen as Hlen.
    destruct (drop i cells) as [|c t] eqn:Hdrop; [inversion HF|].
    assert (Hc : cells !! i = Some c).
    { rewrite <- (Nat.add_0_r i). rewrite <- lookup_drop. now rewrite Hdrop. }
    rewrite (drop_S _ _ _ Hc) in Hdrop. injection Hdrop as <-.
    rewrite firstn_cons in HF. apply Forall2_cons in HF as [Hq HF].
    cbn [free_paths_loop].
    rewrite (bind_Ret _ _ _ _ _ (load_handle_items _ _ _ _ _ Hp)).
    destruct c as [c1 c2]. simpl in Hq. subst c2.
    rewrite (bind_Ret _ _ _ _ _ (load_ptr_Ret s il i Snd _ _ q Hil Hc eq_refl)).
    apply NoDup_cons in Hnd as [Hp_notin Hnd].
    apply NoDup_cons in Hnd as [Hil_notin Hnd].
    destruct q as [l|].
    + simpl in Hp_notin, Hil_notin, Hnd.
      apply NoDup_cons in Hnd as [Hl_notin Hnd].
      assert (Hpl : p <> l).
      { intros ->. apply Hp_notin. right. left. }
      assert (Hill : il <> l) by (intros ->; apply Hil_notin; left).
      destruct (Hlive l) as [b Hb]; [simpl; left|].
      cbn [delete_ptr]. rewrite (bind_Ret _ _ _ _ _ (operator_delete_Ret s l b Hb)).
      rewrite (IH (S i) qs); simpl.
      * rewrite delete_all_delete. now rewrite <- app_assoc.
      * now rewrite lookup_delete_ne by congruence.
      * now rewrite lookup_delete_ne by congruence.
      * exact HF.
      * exact Hlen.
      * intros l' Hl'. rewrite lookup_delete_ne.
        -- apply Hlive. simpl. now right.
        -- intros ->. contradiction.
      * apply NoDup_cons. split.
        -- intros [->|H]%elem_of_cons; [apply Hp_notin; left|].
           apply Hp_notin. right. now right.
        -- apply NoDup_cons. split; [|exact Hnd].
           intros H. apply Hil_notin. now right.
    + cbn [delete_ptr]. unfold ret at 1. unfold bind at 1.
      rewrite (IH (S i) qs); auto.
      apply NoDup_cons. split; [exact Hp_notin|].
      apply NoDup_cons. split; [exact Hil_notin | exact Hnd].
Qed.

Lemma clipper2c_free_paths_spec s p len items bufs :
  releasable (heap s) p len items bufs ->
  clipper2c_free_paths (Some p) s
  = Ret tt (mkState (set_handle (delete_all (owned_blocks items bufs) (heap s)) p 0 None)
                    (oracle s)
                    (trace s ++ (EvDelete <$> owned_blocks items bufs))).
Proof.
  intros [(rest & Hp) Hitems]. unfold clipper2c_free_paths.
  rewrite (bind_Ret _ _ _ _ _ (load_handle_items _ _ _ _ _ Hp)).
  destruct items as [il|].
  - destruct Hitems as ((cells & Hil & HF & Hlen) & Hlive & Hnd).
    rewrite (bind_Ret _ _ _ _ _ (load_handle_len _ _ _ _ _ Hp)).
    rewrite (bind_Ret _ _ _ _ _
               (free_paths_loop_spec p il len rest cells _ 0%nat bufs s Hp Hil HF Hlen
                  Hlive Hnd)).
    pose proof Hnd as Hnd'.
    apply NoDup_cons in Hnd' as [Hp_notin Hnd'].
    apply NoDup_cons in Hnd' as [Hil_notin _].
    assert (Hpil : p <> il) by (intros ->; apply Hp_notin; left).
    match goal with |- context [bind _ _ ?st] => set (s1 := st) end.
    assert (Hp1 : heap s1 !! p = Some (handle_cell len (Some il) :: rest)).
    { subst s1. simpl. rewrite delete_all_lookup_notin; [exact Hp|].
      intros H. apply Hp_notin. now right. }
    assert (Hil1 : heap s1 !! il = Some cells).
    { subst s1. simpl. now rewrite delete_all_lookup_notin. }
    rewrite (bind_Ret _ _ _ _ _ (load_handle_items _ _ _ _ _ Hp1)).
    cbn [delete_ptr]. rewrite (bind_Ret _ _ _ _ _ (operator_delete_Ret s1 il cells Hil1)).
    match goal with |- context [bind _ _ ?st] => set (s2 := st) end.
    assert (Hp2 : heap s2 !! p = Some (handle_cell len (Some il) :: rest)).
    { subst s2. simpl. now rewrite lookup_delete_ne by congruence. }
    rewrite (bind_Ret _ _ _ _ _
               (store_Ret s2 p 0 Snd (VPtr None) _ (handle_cell len (Some il)) Hp2 eq_refl)).
    match goal with |- store _ _ _ _ ?st = _ => set (s3 := st) end.
    assert (Hp3 : heap s3 !! p = Some ((Some (VInt len), Some (VPtr None)) :: rest))
      by apply lookup_insert_eq.
    rewrite (store_Ret s3 p 0 Fst (VInt 0) _ (Some (VInt len), Some (VPtr None)) Hp3 eq_refl).
    f_equal. unfold owned_blocks. simpl omap. rewrite delete_all_snoc.
    subst s3 s2 s1. simpl. f_equal.
    + rewrite insert_insert_eq. unfold set_handle.
      rewrite lookup_delete_ne by congruence.
      rewrite delete_all_lookup_notin; [now rewrite Hp|].
      intros H. apply Hp_notin. now right.
    + rewrite fmap_app. simpl. now rewrite <- app_assoc.
  - destruct Hitems as [-> ->]. unfold owned_blocks, delete_all, set_handle. simpl.
    rewrite Hp. rewrite insert_id by exact Hp. rewrite app_nil_r. now rewrite state_eta.
Qed.

(** ** From a populated handle to its reading and its release *)

Lemma populated_releasable h p (paths : Paths64) items bufs :
  populated h p paths items bufs ->
  releasable h p (Z.of_nat (length paths)) items bufs.
Proof.
  intros [Hp Hitems]. split; [exact Hp|].
  destruct items as [il|].
  - destruct Hitems as (Hil & HF & Hnd).
    pose proof (Forall2_length _ _ _ HF) as Hlen.
    split; [|split; [now apply (buffers_live h paths) | exact Hnd]].
    exists (zip_with path_cell paths bufs). split; [exact Hil|].
    rewrite Nat2Z.id. split; [|lia].
    rewrite take_ge by (rewrite length_zip_with; lia).
    clear -HF. induction HF; simpl; constructor; auto.
  - destruct Hitems as [-> ->]. now split.
Qed.

Lemma mapM_point_cell (sp : Path64) : mapM cell_point (point_cell <$> sp) = Some sp.
Proof.
  apply mapM_Forall2. induction sp as [|[x y] sp IH]; simpl; constructor; auto.
Qed.

Lemma buffer_holds_wire_path h (sp : Path64) q :
  fits_int sp ->
  buffer_holds h sp q -> wire_path true h (path_cell sp q) = Some sp.
Proof.
  unfold wire_path, path_cell. cbn [fst snd]. intros Hfit Hb.
  rewrite (proj2 (int_field_Some _ (Z.of_nat (length sp))))
    by (unfold fits_int in Hfit; split; [reflexivity | lia]).
  destruct (0 <? Z.of_nat (length sp)) eqn:Hpos.
  - apply Z.ltb_lt in Hpos. destruct q as [l|]; simpl in Hb.
    + destruct Hb as [_ Hl]. unfold wire_points, sized. rewrite Hl.
      rewrite Nat2Z.id. rewrite decide_True by apply length_fmap.
      apply mapM_point_cell.
    + subst sp. simpl in Hpos. lia.
  - apply Z.ltb_ge in Hpos. destruct sp; [reflexivity | simpl in Hpos; lia].
Qed.

Lemma populated_wire_paths h p (paths : Paths64) items bufs :
  fits_int paths -> Forall fits_int paths ->
  populated h p paths items bufs ->
  wire_paths true h (Some p) = Some paths.
Proof.
  intros Hfit Hfits [(rest & Hp) Hitems]. unfold wire_paths, heap_load. rewrite Hp.
  cbn [lookup list_lookup handle_cell get_field fst snd].
  rewrite (proj2 (int_field_Some _ (Z.of_nat (length paths))))
    by (unfold fits_int in Hfit; split; [reflexivity | lia]).
  destruct (Z.of_nat (length paths) <=? 0) eqn:Hlen.
  - apply Z.leb_le in Hlen. destruct paths; [reflexivity | simpl in Hlen; lia].
  - destruct items as [il|].
    + destruct Hitems as (Hil & HF & _). rewrite Hil. unfold sized.
      pose proof (Forall2_length _ _ _ HF) as Hl.
      rewrite decide_True by (rewrite length_zip_with, Nat2Z.id; lia).
      apply mapM_Forall2. clear -HF Hfits.
      induction HF; simpl; constructor.
      * apply buffer_holds_wire_path; [now inversion Hfits | assumption].
      * apply IHHF. now inversion Hfits.
    + destruct Hitems as [-> _]. simpl in Hlen. discriminate.
Qed.

Lemma wire_path_exact_lenient h c (sp : Path64) :
  wire_path true h c = Some sp -> wire_path false h c = Some sp.
Proof.
  unfold wire_path. destruct (int_field (fst c)) as [len|]; [|discriminate].
  destruct (0 <? len); [|auto].
  destruct (snd c) as [[|[l|]]|]; try discriminate.
  unfold wire_points, sized. destruct (h !! l) as [b|]; [|discriminate].
  destruct (decide (length b = Z.to_nat len)) as [Hl|]; [|discriminate].
  rewrite decide_True by lia. rewrite take_ge by lia. auto.
Qed.

Lemma wire_paths_exact_lenient h cp (ps : Paths64) :
  wire_paths true h cp = Some ps -> wire_paths false h cp = Some ps.
Proof.
  unfold wire_paths. destruct cp as [p|]; [|auto].
  destruct (int_field (heap_load h p 0 Fst)) as [len|]; [|discriminate].
  destruct (len <=? 0); [auto|].
  destruct (heap_load h p 0 Snd) as [[|[il|]]|]; try discriminate.
  destruct (h !! il) as [b|]; [|discriminate]. unfold sized.
  destruct (decide (length b = Z.to_nat len)) as [Hl|]; [|discriminate].
  rewrite decide_True by lia. rewrite take_ge by lia.
  intros HF%mapM_Forall2. apply mapM_Forall2.
  eapply Forall2_impl; [exact HF|]. intros c sp. apply wire_path_exact_lenient.
Qed.

(** ** Sizes that fit [int] *)

Lemma sized_length e n b b' : sized e n b = Some b' -> length b' = n.
Proof.
  unfold sized. destruct e.
  - destruct (decide (length b = n)); [|discriminate]. now intros [= <-].
  - destruct (decide (n <= length b)%nat); [|discriminate]. intros [= <-].
    rewrite length_take. lia.
Qed.

Lemma wire_path_fits e h c (sp : Path64) :
  wire_path e h c = Some sp -> fits_int sp.
Proof.
  unfold wire_path, fits_int.
  destruct (int_field (fst c)) as [len|] eqn:Hf; [|discriminate].
  apply int_field_Some in Hf as [_ Hr].
  destruct (0 <? len) eqn:Hpos; [|intros [= <-]; simpl; lia].
  destruct (snd c) as [[|[l|]]|]; try discriminate.
  - unfold wire_points. destruct (h !! l) as [b|]; [|discriminate].
    destruct (sized e (Z.to_nat len) b) as [b'|] eqn:Hs; [|discriminate].
    apply sized_length in Hs. intros HF%mapM_Forall2%Forall2_length. lia.
  - destruct e; [discriminate|]. intros [= <-]. simpl. lia.
Qed.

Lemma wire_paths_fits e h cp (ps : Paths64) :
  wire_paths e h cp = Some ps -> fits_int ps /\ Forall fits_int ps.
Proof.
  assert (Hnil : fits_int (@nil Path64) /\ Forall fits_int (@nil Path64)).
  { split; [unfold fits_int; simpl; lia | constructor]. }
  unfold wire_paths. destruct cp as [p|]; [|now intros [= <-]].
  destruct (int_field (heap_load h p 0 Fst)) as [len|] eqn:Hf; [|discriminate].
  apply int_field_Some in Hf as [_ Hr].
  destruct (len <=? 0); [now intros [= <-]|].
  destruct (heap_load h p 0 Snd) as [[|[il|]]|]; try discriminate.
  destruct (h !! il) as [b|]; [|discriminate].
  destruct (sized e (Z.to_nat len) b) as [b'|] eqn:Hs; [|discriminate].
  apply sized_length in Hs. intros HF%mapM_Forall2. split.
  - apply Forall2_length in HF. unfold fits_int. lia.
  - clear -HF. induction HF; constructor; eauto using wire_path_fits.
Qed.

Lemma int_prefix_fits_int {A} (l : list A) : fits_int (int_prefix l).
Proof.
  unfold fits_int, int_prefix. rewrite length_take.
  pose proof (to_int_range (Z.of_nat (length l))). lia.
Qed.

Lemma exported_paths_fits_int (src : Paths64) :
  fits_int (exported_paths src) /\ Forall fits_int (exported_paths src).
Proof.
  unfold exported_paths. split.
  - unfold fits_int. rewrite length_fmap. apply int_prefix_fits_int.
  - apply Forall_fmap. apply Forall_forall. intros sp _. apply int_prefix_fits_int.
Qed.

(** A completed export can be read back, whatever was exported. *)
Lemma export_post_wire_paths s p (src : Paths64) s' :
  export_post s p src s' ->
  wire_paths true (heap s') (Some p) = Some (exported_paths src).
Proof.
  intros (items & bufs & Hpop & _).
  destruct (exported_paths_fits_int src) as [H1 H2].
  now apply (populated_wire_paths _ _ _ items bufs).
Qed.

(** ** C3 *)

(** C3. For every valid wire PathSet [P] (positive lengths come with buffers
    of exactly that many entries: [exact = true]), exporting the import of
    [P] reproduces it: the handle written by [fromPaths64] is itself valid
    and denotes the same paths, with the same number of paths and, path by
    path, the same points in the same order.  With an allocator that grants
    every request both steps go through.  The same holds of everything
    [toPaths64] can read ([exact = false]). *)
Theorem export_import_roundtrip s (exact : bool) (P dst : loc) (ps : Paths64) :
  wire_paths exact (heap s) (Some P) = Some ps ->
  writable (heap s) dst ->
  (forall ps' s1 s2,
     toPaths64 (Some P) s = Ret ps' s1 ->
     fromPaths64 ps' (Some dst) s1 = Ret true s2 ->
     ps' = ps /\
     wire_paths true (heap s2) (Some dst) = Some ps /\
     heap_load (heap s2) dst 0 f_len = Some (VInt (Z.of_nat (length ps)))) /\
  (all_granted (oracle s) ->
   exists s1 s2,
     toPaths64 (Some P) s = Ret ps s1 /\
     fromPaths64 ps (Some dst) s1 = Ret true s2).
Proof.
  intros Hvalid Hdst.
  destruct (wire_paths_fits _ _ _ _ Hvalid) as [Hfit Hfits].
  assert (Hread : wire_paths false (heap s) (Some P) = Some ps).
  { destruct exact; [now apply wire_paths_exact_lenient | exact Hvalid]. }
  pose proof (toPaths64_spec s (Some P) ps Hread) as Himp.
  split.
  - intros ps' s1 s2 Hin Hout. rewrite Hin in Himp. destruct Himp as [-> (Hh & _)].
    split; [reflexivity|].
    assert (Hdst1 : writable (heap s1) dst) by now rewrite Hh.
    destruct (fromPaths64_spec ps dst s1 Hdst1) as (ok & s2' & Hex & _ & _ & Hpost).
    rewrite Hout in Hex. injection Hex as <- <-.
    specialize (Hpost eq_refl).
    pose proof (export_post_wire_paths _ _ _ _ Hpost) as Hw.
    rewrite (exported_paths_fits ps Hfit Hfits) in Hw. split; [exact Hw|].
    destruct Hpost as (items & bufs & [(rest & Hp) _] & _).
    rewrite (exported_paths_fits ps Hfit Hfits) in Hp.
    unfold heap_load. now rewrite Hp.
  - intros Hg. destruct (toPaths64 (Some P) s) as [ps' s1|e s1|] eqn:Hin; simpl in Himp.
    + destruct Himp as [-> (Hh & _ & Hg1)].
      assert (Hdst1 : writable (heap s1) dst) by now rewrite Hh.
      destruct (fromPaths64_spec ps dst s1 Hdst1) as (ok & s2 & Hex & _ & Hgr & _).
      destruct (Hgr (Hg1 Hg)) as [_ Hok]. rewrite (Hok Hfit Hfits) in Hex.
      now exists s1, s2.
    + now destruct Himp as (_ & _ & Hn).
    + contradiction.
Qed.

(** ** C4 and C10: releasing a handle *)

Lemma fromPaths64_writable (src : Paths64) p s ok s' :
  fromPaths64 src (Some p) s = Ret ok s' -> writable (heap s) p.
Proof.
  unfold fromPaths64, bind, store, heap_store, writable.
  destruct (heap s !! p) as [[|c rest]|]; simpl; try discriminate. eauto.
Qed.

Lemma free_paths_null_items s p :
  heap_load (heap s) p 0 f_items = Some (VPtr None) ->
  clipper2c_free_paths (Some p) s = Ret tt s.
Proof.
  intros H. unfold clipper2c_free_paths, load_ptr, load, bind. now rewrite H.
Qed.

Lemma set_handle_released s p (src : Paths64) s' items bufs c rest :
  heap s !! p = Some (c :: rest) ->
  populated (heap s') p (exported_paths src) items bufs ->
  (forall l, l ∈ owned_blocks items bufs -> l ∉ dom (heap s)) ->
  (forall l, l ∉ owned_blocks items bufs -> l <> p -> heap s' !! l = heap s !! l) ->
  heap s' !! p
  = Some (handle_cell (Z.of_nat (length (exported_paths src))) items :: rest) ->
  set_handle (delete_all (owned_blocks items bufs) (heap s')) p 0 None
  = set_handle (heap s) p 0 None.
Proof.
  intros Hp Hpop Hfresh Hframe Hp'.
  assert (Hp_notin : p ∉ owned_blocks items bufs).
  { intros H. apply Hfresh in H. apply H. apply elem_of_dom. now rewrite Hp. }
  unfold set_handle. rewrite delete_all_lookup_notin by exact Hp_notin.
  rewrite Hp', Hp. apply map_eq. intros l.
  destruct (decide (l = p)) as [->|Hne]; [now rewrite !lookup_insert_eq|].
  rewrite !lookup_insert_ne by congruence.
  destruct (decide (l ∈ owned_blocks items bufs)) as [Hin|Hnot].
  - rewrite delete_all_lookup_in by exact Hin. symmetry.
    apply not_elem_of_dom. now apply Hfresh.
  - rewrite delete_all_lookup_notin by exact Hnot. now apply Hframe.
Qed.

(** C4 (as amended).  Releasing through a null handle pointer, or a handle
    whose [items] pointer is null (the empty state in particular), does
    nothing.  A handle with [len = 0] whose [items] points to a live
    zero-sized array is not left unchanged: the array is released and
    [items] reset.  A handle produced by a successful export is released
    completely: every point buffer [bufs], then the path array [items],
    and the handle is reset to [len = 0], [items = null]; the heap is back
    to what it was before the export. *)
Theorem release_spec s (p : loc) :
  clipper2c_free_paths None s = Ret tt s /\
  (heap_load (heap s) p 0 f_items = Some (VPtr None) ->
   clipper2c_free_paths (Some p) s = Ret tt s) /\
  (forall il rest,
     heap s !! p = Some (handle_cell 0 (Some il) :: rest) ->
     heap s !! il = Some [] ->
     clipper2c_free_paths (Some p) s
     = Ret tt (mkState (<[p := handle_cell 0 None :: rest]> (delete il (heap s)))
                       (oracle s) (trace s ++ [EvDelete il]))) /\
  (forall (src : Paths64) s0,
     fromPaths64 src (Some p) s0 = Ret true s ->
     exists items bufs,
       populated (heap s) p (exported_paths src) items bufs /\
       clipper2c_free_paths (Some p) s
       = Ret tt (mkState (set_handle (heap s0) p 0 None) (oracle s)
                         (trace s ++ (EvDelete <$> omap id bufs)
                                  ++ (EvDelete <$> omap id [items]))) /\
       heap_load (set_handle (heap s0) p 0 None) p 0 f_len = Some (VInt 0) /\
       heap_load (set_handle (heap s0) p 0 None) p 0 f_items = Some (VPtr None)).
Proof.
  split; [reflexivity|]. split; [apply free_paths_null_items|]. split.
  - intros il rest Hp Hil.
    assert (Hpil : p <> il) by (intros ->; rewrite Hp in Hil; discriminate).
    assert (Hrel : releasable (heap s) p 0 (Some il) []).
    { split; [now exists rest|]. split; [|split].
      - exists []. split; [exact Hil|]. split; [constructor | reflexivity].
      - intros l Hl. now apply elem_of_nil in Hl.
      - simpl. apply NoDup_cons. split; [|apply NoDup_singleton].
        now intros ->%list_elem_of_singleton. }
    rewrite (clipper2c_free_paths_spec _ _ _ _ _ Hrel).
    unfold owned_blocks, delete_all, set_handle. simpl.
    rewrite lookup_delete_ne by congruence. now rewrite Hp.
  - intros src s0 Hex.
    destruct (fromPaths64_writable _ _ _ _ _ Hex) as (c & rest & Hp0).
    destruct (fromPaths64_spec src p s0 (ex_intro _ c (ex_intro _ rest Hp0)))
      as (ok & s' & Hex' & _ & _ & Hpost).
    rewrite Hex in Hex'. injection Hex' as <- <-.
    destruct (Hpost eq_refl) as (items & bufs & Hpop & Hfresh & Hframe & Hp').
    exists items, bufs. split; [exact Hpop|].
    rewrite (clipper2c_free_paths_spec _ _ _ _ _ (populated_releasable _ _ _ _ _ Hpop)).
    rewrite (set_handle_released s0 p src s items bufs c rest Hp0 Hpop Hfresh Hframe
               (Hp' c rest Hp0)).
    unfold owned_blocks. rewrite fmap_app. split; [reflexivity|].
    unfold set_handle, heap_load. rewrite Hp0. now rewrite lookup_insert_eq.
Qed.

Lemma free_paths_times_fixed p s :
  clipper2c_free_paths p s = Ret tt s ->
  forall n, free_paths_times p n s = Ret tt s.
Proof.
  intros H. induction n as [|n IH]; [reflexivity|].
  simpl. now rewrite (bind_Ret _ _ _ _ _ H).
Qed.

Lemma load_inv p i f s v s' :
  load p i f s = Ret v s' ->
  s' = s /\ exists l, p = Some l /\ heap_load (heap s) l i f = Some v.
Proof.
  unfold load. destruct p as [l|]; [|discriminate].
  destruct (heap_load (heap s) l i f) as [v'|] eqn:H; [|discriminate].
  intros [= <- <-]. eauto.
Qed.

Lemma load_ptr_inv p i f s q s' :
  load_ptr p i f s = Ret q s' ->
  s' = s /\ exists l, p = Some l /\ heap_load (heap s) l i f = Some (VPtr q).
Proof.
  intros (v & s1 & (-> & l & -> & Hl)%load_inv & Hv)%bind_Ret_inv.
  destruct v as [n|q']; [discriminate|]. injection Hv as <- <-. eauto.
Qed.

Lemma store_inv l i f v s s' :
  store (Some l) i f v s = Ret tt s' ->
  exists b c, heap s !! l = Some b /\ b !! i = Some c /\
    s' = mkState (<[l := <[i := set_field f v c]> b]> (heap s)) (oracle s) (trace s).
Proof.
  unfold store, heap_store. destruct (heap s !! l) as [b|]; [|discriminate].
  destruct (b !! i) as [c|] eqn:Hc; [|discriminate]. intros [= <-]. eauto.
Qed.

(** Whatever the handle, a call that completes leaves [items = null], and
    it either did nothing or left [len = 0]. *)
Lemma free_paths_inv s p s1 :
  clipper2c_free_paths (Some p) s = Ret tt s1 ->
  heap_load (heap s1) p 0 f_items = Some (VPtr None) /\
  (s1 = s \/ heap_load (heap s1) p 0 f_len = Some (VInt 0)).
Proof.
  unfold clipper2c_free_paths.
  intros (items & s' & (-> & l & [= <-] & Hitems)%load_ptr_inv & Hrest)%bind_Ret_inv.
  destruct items as [il|]; [|injection Hrest as <-; auto].
  apply bind_Ret_inv in Hrest as (len & s2 & _ & Hrest).
  apply bind_Ret_inv in Hrest as ([] & s3 & _ & Hrest).
  apply bind_Ret_inv in Hrest as (items' & s4 & _ & Hrest).
  apply bind_Ret_inv in Hrest as ([] & s5 & _ & Hrest).
  apply bind_Ret_inv in Hrest as ([] & s6 & Hst1 & Hst2).
  apply store_inv in Hst1 as (b1 & c1 & Hb1 & Hc1 & ->).
  apply store_inv in Hst2 as (b2 & c2 & Hb2 & Hc2 & ->).
  simpl in Hb2. rewrite lookup_insert_eq in Hb2. injection Hb2 as <-.
  rewrite list_lookup_insert_eq in Hc2 by (now apply lookup_lt_Some in Hc1).
  injection Hc2 as <-.
  unfold heap_load. simpl. rewrite lookup_insert_eq.
  rewrite list_lookup_insert_eq
    by (rewrite length_insert; now apply lookup_lt_Some in Hc1).
  split; [reflexivity | right; reflexivity].
Qed.

Lemma free_paths_cases s p s1 :
  clipper2c_free_paths (Some p) s = Ret tt s1 ->
  (heap_load (heap s) p 0 f_items = Some (VPtr None) /\ s1 = s) \/
  (exists il, heap_load (heap s) p 0 f_items = Some (VPtr (Some il)) /\
              heap_load (heap s1) p 0 f_len = Some (VInt 0)).
Proof.
  intros Hfree. pose proof Hfree as Hfree'. unfold clipper2c_free_paths in Hfree'.
  apply bind_Ret_inv in Hfree'
      as (items & s' & (-> & l & [= <-] & Hitems)%load_ptr_inv & Hrest).
  destruct items as [il|].
  - right. exists il. split; [exact Hitems|].
    destruct (free_paths_inv _ _ _ Hfree) as [Hnull [->|Hlen]]; [|exact Hlen].
    rewrite Hitems in Hnull. discriminate.
  - left. injection Hrest as <-. auto.
Qed.

(** C10. [clipper2c_free_paths] is idempotent through one handle.  After
    any first call that completes, whatever the handle was, [items] is
    null and any number of further calls through the same handle return at
    once in that very state: nothing more is freed.  The first call leaves
    [len = 0] when the handle entered it with a non-null [items]; a handle
    that enters with a null [items] is left as it is by every call, so its
    [len], zero or not, stays what it was.  On a handle that satisfies the
    data-model invariant and owns its blocks the first call completes and
    leaves [len = 0] and [items = null]. *)
Theorem release_idempotent s (p : loc) :
  (forall len items bufs,
     releasable (heap s) p len items bufs ->
     exists s1,
       clipper2c_free_paths (Some p) s = Ret tt s1 /\
       heap_load (heap s1) p 0 f_len = Some (VInt 0) /\
       heap_load (heap s1) p 0 f_items = Some (VPtr None) /\
       clipper2c_free_paths (Some p) s1 = Ret tt s1 /\
       forall n, free_paths_times (Some p) (S n) s = Ret tt s1) /\
  (forall s1,
     clipper2c_free_paths (Some p) s = Ret tt s1 ->
     heap_load (heap s1) p 0 f_items = Some (VPtr None) /\
     clipper2c_free_paths (Some p) s1 = Ret tt s1 /\
     (forall n, free_paths_times (Some p) (S n) s = Ret tt s1) /\
     ((heap_load (heap s) p 0 f_items = Some (VPtr None) /\ s1 = s) \/
      (exists il, heap_load (heap s) p 0 f_items = Some (VPtr (Some il)) /\
                  heap_load (heap s1) p 0 f_len = Some (VInt 0)))) /\
  (heap_load (heap s) p 0 f_items = Some (VPtr None) ->
   forall n, free_paths_times (Some p) n s = Ret tt s).
Proof.
  assert (Hgen : forall s1,
             clipper2c_free_paths (Some p) s = Ret tt s1 ->
             heap_load (heap s1) p 0 f_items = Some (VPtr None) /\
             clipper2c_free_paths (Some p) s1 = Ret tt s1 /\
             forall n, free_paths_times (Some p) (S n) s = Ret tt s1).
  { intros s1 Hfree. destruct (free_paths_inv _ _ _ Hfree) as [Hitems _].
    pose proof (free_paths_null_items _ _ Hitems) as Hagain.
    split; [exact Hitems|]. split; [exact Hagain|].
    intros n. cbn [free_paths_times]. rewrite (bind_Ret _ _ _ _ _ Hfree).
    now apply free_paths_times_fixed. }
  split; [|split].
  2:{ intros s1 Hfree. destruct (Hgen s1 Hfree) as (Hitems & Hagain & Htimes).
      repeat split; auto. now apply free_paths_cases. }
  2:{ intros Hnull. apply free_paths_times_fixed. now apply free_paths_null_items. }
  intros len items bufs Hrel.
  pose proof (clipper2c_free_paths_spec _ _ _ _ _ Hrel) as Hfree.
  eexists. split; [exact Hfree|].
  destruct (Hgen _ Hfree) as (Hitems & Hagain & Htimes).
  split; [|auto].
  assert (Hp_notin : p ∉ owned_blocks items bufs).
  { destruct Hrel as [_ Hitems']. unfold owned_blocks. destruct items as [il|].
    - destruct Hitems' as (_ & _ & Hnd). apply NoDup_cons in Hnd as [Hnot _].
      intros [H|H]%elem_of_app; apply Hnot; [now right|].
      simpl in H. apply list_elem_of_singleton in H as ->. left.
    - destruct Hitems' as [_ ->]. simpl. apply not_elem_of_nil. }
  destruct Hrel as [(rest & Hp) _].
  unfold heap_load. cbn [heap]. unfold set_handle.
  rewrite delete_all_lookup_notin by exact Hp_notin.
  rewrite Hp. now rewrite lookup_insert_eq.
Qed.

(** ** C1: strategy selection in [clipper2c_boolean64] *)

Lemma call_engine_eq {A} ev (r : exn + A) s :
  call_engine ev r s
  = match r with
    | inr a => Ret a (with_trace s [ev])
    | inl e => Throw e (with_trace s [ev])
    end.
Proof. unfold call_engine, log, bind, with_trace. now destruct r. Qed.

Lemma with_trace_app s evs1 evs2 :
  with_trace (with_trace s evs1) evs2 = with_trace s (evs1 ++ evs2).
Proof. unfold with_trace. simpl. now rewrite app_assoc. Qed.

Lemma with_trace_nil s : with_trace s [] = s.
Proof. unfold with_trace. rewrite app_nil_r. apply state_eta. Qed.

Lemma add_if_nonempty_eq ev add (ps : Paths64) c s :
  add_if_nonempty ev add ps c s
  = match register add ps (inr c) with
    | inr c' => Ret c' (with_trace s (if is_empty ps then [] else [ev ps]))
    | inl e => Throw e (with_trace s (if is_empty ps then [] else [ev ps]))
    end.
Proof.
  unfold add_if_nonempty, register. destruct (is_empty ps); simpl.
  - unfold ret. now rewrite with_trace_nil.
  - apply call_engine_eq.
Qed.

Lemma boolean64_solve_cases (ct fr : Z) (subj subjOp clip : Paths64) s :
  (subjOp <> [] \/ (subj <> [] /\ clip <> []) ->
   match registered subj subjOp clip with
   | inr c =>
       boolean64_solve ct fr subj subjOp clip s
       = match Execute (toCT ct) (toFR fr) c with
         | inr sols =>
             Ret sols (with_trace s (registrations subj subjOp clip
                                     ++ [EvExecute (toCT ct) (toFR fr)]))
         | inl e =>
             Throw e (with_trace s (registrations subj subjOp clip
                                    ++ [EvExecute (toCT ct) (toFR fr)]))
         end
   | inl e =>
       exists evs, evs `prefix_of` registrations subj subjOp clip /\
                   boolean64_solve ct fr subj subjOp clip s = Throw e (with_trace s evs)
   end) /\
  (subjOp = [] -> subj <> [] -> clip = [] ->
   boolean64_solve ct fr subj subjOp clip s
   = match BooleanOp (toCT ct) (toFR fr) subj [] with
     | inr sol => Ret (sol, []) (with_trace s [EvBooleanOp (toCT ct) (toFR fr) subj []])
     | inl e => Throw e (with_trace s [EvBooleanOp (toCT ct) (toFR fr) subj []])
     end) /\
  (subjOp = [] -> subj = [] ->
   boolean64_solve ct fr subj subjOp clip s = Ret ([], []) s).
Proof.
  split; [|split].
  - intros Hfull.
    assert (Huse : negb (is_empty subjOp) || (negb (is_empty subj) && negb (is_empty clip))
                   = true).
    { destruct Hfull as [H|[H1 H2]].
      - destruct subjOp; [contradiction | reflexivity].
      - destruct subj; [contradiction|]. destruct clip; [contradiction|].
        simpl. apply orb_true_r. }
    unfold boolean64_solve. rewrite Huse. clear Huse Hfull.
    unfold registered, registrations, bind.
    rewrite add_if_nonempty_eq.
    destruct (register AddSubject subj (inr Clipper64_new)) as [e|c1] eqn:H1.
    { simpl. eexists. split; [|reflexivity]. now apply prefix_app_r. }
    rewrite add_if_nonempty_eq.
    destruct (register AddOpenSubject subjOp (inr c1)) as [e|c2] eqn:H2.
    { simpl. rewrite with_trace_app. eexists. split; [|reflexivity].
      rewrite app_assoc. now apply prefix_app_r. }
    rewrite add_if_nonempty_eq.
    destruct (register AddClip clip (inr c2)) as [e|c3] eqn:H3.
    { simpl. rewrite !with_trace_app. eexists. split; [|reflexivity].
      exists []. now rewrite app_nil_r. }
    rewrite call_engine_eq. rewrite !with_trace_app. rewrite <- !app_assoc.
    reflexivity.
  - intros -> Hsubj ->. unfold boolean64_solve, bind.
    destruct subj; [contradiction|]. simpl. rewrite call_engine_eq.
    now destruct (BooleanOp _ _ _ _).
  - intros -> ->. unfold boolean64_solve. now destruct clip.
Qed.

Lemma toPaths64_granted s cp (ps : Paths64) :
  wire_paths false (heap s) cp = Some ps -> all_granted (oracle s) ->
  exists s', toPaths64 cp s = Ret ps s' /\ same_memory s s'.
Proof.
  intros Hw Hg. pose proof (toPaths64_spec s cp ps Hw) as H.
  destruct (toPaths64 cp s) as [a s'|e s'|]; simpl in H.
  - destruct H as [-> Hm]. eauto.
  - now destruct H as (_ & _ & Hn).
  - contradiction.
Qed.

Lemma boolean64_compute_imports (ct fr : Z) a b c s (subj subjOp clip : Paths64) :
  wire_paths false (heap s) a = Some subj ->
  wire_paths false (heap s) b = Some subjOp ->
  wire_paths false (heap s) c = Some clip ->
  all_granted (oracle s) ->
  exists s3, same_memory s s3 /\
    boolean64_compute ct fr a b c s = boolean64_solve ct fr subj subjOp clip s3.
Proof.
  intros Ha Hb Hc Hg. unfold boolean64_compute.
  destruct (toPaths64_granted s a subj Ha Hg) as (s1 & H1 & Hm1).
  rewrite (bind_Ret _ _ _ _ _ H1).
  pose proof Hm1 as (Hh1 & _ & Hg1). rewrite <- Hh1 in Hb, Hc.
  destruct (toPaths64_granted s1 b subjOp Hb (Hg1 Hg)) as (s2 & H2 & Hm2).
  rewrite (bind_Ret _ _ _ _ _ H2).
  pose proof Hm2 as (Hh2 & _ & Hg2). rewrite <- Hh2 in Hc.
  destruct (toPaths64_granted s2 c clip Hc (Hg2 (Hg1 Hg))) as (s3 & H3 & Hm3).
  rewrite (bind_Ret _ _ _ _ _ H3).
  exists s3. split; [|reflexivity].
  eapply same_memory_trans; [exact Hm1|]. eapply same_memory_trans; eauto.
Qed.

(** ** The dispatchers: inversion of a completed call *)

Lemma try_catch_all_never_throws {A} (body : M A) v s e s' :
  try_catch_all body v s <> Throw e s'.
Proof. unfold try_catch_all. now destruct (body s). Qed.

Lemma try_catch_all_Ret_inv {A} (body : M A) v s a s' :
  try_catch_all body v s = Ret a s' ->
  body s = Ret a s' \/ (a = v /\ exists e, body s = Throw e s').
Proof.
  unfold try_catch_all. destruct (body s) as [a1 s1|e s1|]; try discriminate.
  - intros [= <- <-]. now left.
  - intros [= <- <-]. right. eauto.
Qed.

Lemma try_catch_all_returns {A} (body : M A) v s :
  body s <> Fault -> exists a s', try_catch_all body v s = Ret a s'.
Proof.
  unfold try_catch_all. destruct (body s) as [a1 s1|e s1|]; [eauto | eauto | contradiction].
Qed.

Lemma export_failed_inv (sol : Paths64) out s failed s' :
  export_failed sol out s = Ret failed s' ->
  (out = None /\ failed = false /\ s' = s) \/
  (exists p, out = Some p /\ fromPaths64 sol (Some p) s = Ret (negb failed) s').
Proof.
  unfold export_failed. destruct out as [p|].
  - intros (ok & s1 & Hex & Hret)%bind_Ret_inv. injection Hret as <- <-.
    right. exists p. split; [reflexivity|]. now rewrite negb_involutive.
  - intros [= <- <-]. now left.
Qed.

Lemma export_post_writable s p (src : Paths64) s' q :
  export_post s p src s' -> writable (heap s) q -> writable (heap s') q.
Proof.
  intros (items & bufs & [(rest & Hp) _] & Hfresh & Hframe & _) (c & rest' & Hq).
  destruct (decide (q = p)) as [->|Hne]; [now exists (handle_cell
    (Z.of_nat (length (exported_paths src))) items), rest|].
  exists c, rest'. rewrite Hframe; [exact Hq | | exact Hne].
  intros Hin. apply Hfresh in Hin. apply Hin. apply elem_of_dom. now rewrite Hq.
Qed.

Lemma export_failed_returns (sol : Paths64) out s :
  writable_or_null (heap s) out ->
  exists failed s', export_failed sol out s = Ret failed s' /\
    engine_events (trace s') = engine_events (trace s) /\
    (failed = false -> forall q, writable (heap s) q -> writable (heap s') q).
Proof.
  destruct out as [p|]; simpl.
  - intros Hw. destruct (fromPaths64_spec sol p s Hw) as (ok & s' & Hex & Hev & _ & Hpost).
    exists (negb ok), s'. rewrite (bind_Ret _ _ _ _ _ Hex). split; [reflexivity|].
    split; [exact Hev|].
    intros Hok q. apply (export_post_writable s p sol). apply Hpost.
    now destruct ok.
  - intros _. exists false, s. repeat split; auto.
Qed.

Lemma toPaths64_not_Fault s cp :
  is_Some (wire_paths false (heap s) cp) ->
  toPaths64 cp s <> Fault /\
  forall ps s', toPaths64 cp s = Ret ps s' -> same_memory s s'.
Proof.
  intros [ps Hps]. pose proof (toPaths64_spec s cp ps Hps) as H.
  destruct (toPaths64 cp s) as [a s1|e s1|]; simpl in H; [| |contradiction].
  - split; [discriminate|]. intros ? ? [= <- <-]. apply H.
  - split; discriminate.
Qed.

Lemma boolean64_solve_outcome (ct fr : Z) (subj subjOp clip : Paths64) s :
  exists evs,
    Forall (fun ev => is_engine_event ev = true) evs /\
    ((exists sols, boolean64_solve ct fr subj subjOp clip s = Ret sols (with_trace s evs)) \/
     (exists e, boolean64_solve ct fr subj subjOp clip s = Throw e (with_trace s evs))).
Proof.
  destruct (boolean64_solve_cases ct fr subj subjOp clip s) as (Hfull & Hred & Hnone).
  assert (Hregs : Forall (fun ev => is_engine_event ev = true)
                    (registrations subj subjOp clip)).
  { unfold registrations. repeat apply Forall_app_2;
      match goal with |- context [is_empty ?l] => destruct (is_empty l) end;
      repeat constructor. }
  destruct subjOp as [|po subjOp].
  - destruct subj as [|ps subj].
    + exists []. split; [constructor|]. left. eexists.
      rewrite with_trace_nil. now apply Hnone.
    + destruct clip as [|pc clip].
      * eexists. split; [|rewrite Hred by easy;
          destruct (BooleanOp _ _ _ _); [right | left]; eauto].
        repeat constructor.
      * specialize (Hfull ltac:(right; easy)).
        destruct (registered _ _ _).
        -- destruct Hfull as (evs & [k Hk] & ->). exists evs. split; [|right; eauto].
           rewrite Hk in Hregs. now apply Forall_app in Hregs as [? _].
        -- eexists. split; [|rewrite Hfull;
             destruct (Execute _ _ _); [right | left]; eauto].
           apply Forall_app_2; [exact Hregs | repeat constructor].
  - specialize (Hfull ltac:(left; easy)).
    destruct (registered _ _ _).
    + destruct Hfull as (evs & [k Hk] & ->). exists evs. split; [|right; eauto].
      rewrite Hk in Hregs. now apply Forall_app in Hregs as [? _].
    + eexists. split; [|rewrite Hfull;
        destruct (Execute _ _ _); [right | left]; eauto].
      apply Forall_app_2; [exact Hregs | repeat constructor].
Qed.

(** ** [fromPaths64] raises no exception *)

Lemma never_throws_ret {A} (a : A) : never_throws (ret a).
Proof. intros s e s'. discriminate. Qed.

Lemma never_throws_fault {A} : never_throws (@fault _ A).
Proof. intros s e s'. discriminate. Qed.

Lemma never_throws_bind {A B} (m : M A) (k : A -> M B) :
  never_throws m -> (forall a, never_throws (k a)) -> never_throws (bind m k).
Proof.
  intros Hm Hk s e s' [H|(a & s1 & _ & H)]%bind_Throw_inv.
  - now apply Hm in H.
  - now apply Hk in H.
Qed.

Lemma never_throws_store p i f v : never_throws (store p i f v).
Proof.
  intros s e s'. unfold store. destruct p as [l|]; [|discriminate].
  now destruct (heap_store (heap s) l i f v).
Qed.

Lemma never_throws_load p i f : never_throws (load p i f).
Proof.
  intros s e s'. unfold load. destruct p as [l|]; [|discriminate].
  now destruct (heap_load (heap s) l i f).
Qed.

Lemma never_throws_load_ptr p i f : never_throws (load_ptr p i f).
Proof.
  apply never_throws_bind; [apply never_throws_load|].
  intros [n|q]; [apply never_throws_fault | apply never_throws_ret].
Qed.

Lemma never_throws_new_nothrow bytes : never_throws (new_nothrow bytes).
Proof.
  intros s e s'. unfold new_nothrow. destruct (next_verdict (oracle s)) as [ok o'].
  now destruct (ok && (bytes <=? max_alloc)).
Qed.

Lemma never_throws_fromPaths64_points (sp : Path64) pts n :
  forall j, never_throws (fromPaths64_points sp pts j n).
Proof.
  induction n as [|n IH]; intros j; simpl; [apply never_throws_ret|].
  destruct (sp !! j); [|apply never_throws_fault].
  repeat (apply never_throws_bind; [apply never_throws_store | intros _]).
  apply IH.
Qed.

Lemma never_throws_fromPaths64_path (src : Paths64) dst i :
  never_throws (fromPaths64_path src dst i).
Proof.
  unfold fromPaths64_path. destruct (src !! i) as [sp|]; [|apply never_throws_fault].
  apply never_throws_bind; [apply never_throws_load_ptr | intros items].
  apply never_throws_bind; [apply never_throws_store | intros _].
  destruct (_ =? 0).
  - apply never_throws_bind; [apply never_throws_store | intros _].
    apply never_throws_ret.
  - apply never_throws_bind; [apply never_throws_new_nothrow | intros pts].
    apply never_throws_bind; [apply never_throws_store | intros _].
    destruct pts; [|apply never_throws_ret].
    apply never_throws_bind; [apply never_throws_fromPaths64_points | intros _].
    apply never_throws_ret.
Qed.

Lemma never_throws_fromPaths64_loop (src : Paths64) dst n :
  forall i, never_throws (fromPaths64_loop src dst i n).
Proof.
  induction n as [|n IH]; intros i; simpl; [apply never_throws_ret|].
  apply never_throws_bind; [apply never_throws_fromPaths64_path | intros ok].
  destruct ok; [apply IH | apply never_throws_ret].
Qed.

Lemma never_throws_fromPaths64 (src : Paths64) dst : never_throws (fromPaths64 src dst).
Proof.
  unfold fromPaths64. destruct dst as [p|]; [|apply never_throws_ret].
  apply never_throws_bind; [apply never_throws_store | intros _].
  apply never_throws_bind; [apply never_throws_new_nothrow | intros items].
  apply never_throws_bind; [apply never_throws_store | intros _].
  destruct (_ && _); [apply never_throws_ret | apply never_throws_fromPaths64_loop].
Qed.

(** ** Offset and rectangular clip share one shape *)

Lemma unary_dispatch_inv (in_paths out_paths : ptr) (ev : Paths64 -> event)
  (f : Paths64 -> exn + Paths64) s st s' :
  try_catch_all
    (do inp <- toPaths64 in_paths ;
     do out <- call_engine (ev inp) (f inp) ;
     do ok <- fromPaths64 out out_paths ;
     if negb ok then ret 2 else ret 0) 1 s = Ret st s' ->
  (st = 1 /\ exists e, toPaths64 in_paths s = Throw e s') \/
  (exists inp s1,
     toPaths64 in_paths s = Ret inp s1 /\
     match f inp with
     | inl _ => st = 1 /\ s' = with_trace s1 [ev inp]
     | inr res =>
         exists ok, fromPaths64 res out_paths (with_trace s1 [ev inp]) = Ret ok s' /\
                    st = if ok then 0 else 2
     end).
Proof.
  intros [Hbody|(-> & e & Hbody)]%try_catch_all_Ret_inv.
  - right.
    apply bind_Ret_inv in Hbody as (inp & s1 & Hin & Hbody).
    apply bind_Ret_inv in Hbody as (res & s2 & Heng & Hbody).
    apply bind_Ret_inv in Hbody as (ok & s3 & Hex & Hbody).
    exists inp, s1. split; [exact Hin|].
    rewrite call_engine_eq in Heng. destruct (f inp) as [e|res']; [discriminate|].
    injection Heng as -> <-. exists ok. split.
    + destruct ok; simpl in Hbody; injection Hbody as <- <-; exact Hex.
    + destruct ok; simpl in Hbody; now injection Hbody as <- <-.
  - apply bind_Throw_inv in Hbody as [Hin|(inp & s1 & Hin & Hbody)]; [left; eauto|].
    right. exists inp, s1. split; [exact Hin|].
    apply bind_Throw_inv in Hbody as [Heng|(res & s2 & Heng & Hbody)].
    + rewrite call_engine_eq in Heng. destruct (f inp) as [e'|res]; [|discriminate].
      now injection Heng as <- <-.
    + exfalso.
      apply bind_Throw_inv in Hbody as [Hex|(ok & s3 & _ & Hbody)].
      * now apply never_throws_fromPaths64 in Hex.
      * now destruct ok.
Qed.

Lemma unary_dispatch_returns (in_paths out_paths : ptr) (ev : Paths64 -> event)
  (f : Paths64 -> exn + Paths64) s :
  is_Some (wire_paths false (heap s) in_paths) ->
  writable_or_null (heap s) out_paths ->
  exists st s',
    try_catch_all
      (do inp <- toPaths64 in_paths ;
       do out <- call_engine (ev inp) (f inp) ;
       do ok <- fromPaths64 out out_paths ;
       if negb ok then ret 2 else ret 0) 1 s = Ret st s'.
Proof.
  intros Hin Hout. apply try_catch_all_returns.
  destruct (toPaths64_not_Fault s in_paths Hin) as [Hnf Hmem].
  apply bind_not_Fault; [exact Hnf|]. intros inp s1 Himp.
  destruct (Hmem _ _ Himp) as (Hh & _).
  apply bind_not_Fault; [rewrite call_engine_eq; now destruct (f inp)|].
  intros res s2 Heng. rewrite call_engine_eq in Heng.
  destruct (f inp) as [e|res']; [discriminate|]. injection Heng as -> <-.
  apply bind_not_Fault; [|intros [|] ? _; discriminate].
  destruct out_paths as [p|]; [|discriminate].
  assert (Hw : writable (heap (with_trace s1 [ev inp])) p) by (simpl; now rewrite Hh).
  destruct (fromPaths64_spec res p _ Hw) as (ok & s' & -> & _). discriminate.
Qed.

(** ** Import and solve leave the heap alone *)

Lemma leaves_heap_bind {A B} (m : M A) (k : A -> M B) :
  leaves_heap m -> (forall a, leaves_heap (k a)) -> leaves_heap (bind m k).
Proof.
  intros Hm Hk s. specialize (Hm s). unfold bind.
  destruct (m s) as [a s1|e s1|]; [|exact Hm|exact I].
  destruct Hm as (Hh & evs1 & Ht & HF1). specialize (Hk a s1).
  destruct (k a s1) as [b s2|e s2|]; [| |exact I];
    destruct Hk as (Hh' & evs2 & Ht' & HF2);
    (split; [congruence|]); exists (evs1 ++ evs2);
    (split; [rewrite Ht', Ht; now rewrite app_assoc | now apply Forall_app_2]).
Qed.

Lemma reads_only_ret {A} (a : A) : reads_only (ret a).
Proof. intros s. now split. Qed.

Lemma reads_only_fault {A} : reads_only (@fault _ A).
Proof. intros s. exact I. Qed.

Lemma reads_only_bind {A B} (m : M A) (k : A -> M B) :
  reads_only m -> (forall a, reads_only (k a)) -> reads_only (bind m k).
Proof.
  intros Hm Hk s. specialize (Hm s). unfold bind.
  destruct (m s) as [a s1|e s1|]; [|exact Hm|exact I].
  destruct Hm as (Hh & Ht). specialize (Hk a s1).
  destruct (k a s1) as [b s2|e s2|]; [| |exact I];
    destruct Hk as (Hh' & Ht'); split; congruence.
Qed.

Lemma reads_only_load p i f : reads_only (load p i f).
Proof.
  intros s. unfold load. destruct p as [l|]; [|exact I].
  destruct (heap_load (heap s) l i f); [now split | exact I].
Qed.

Lemma reads_only_load_int p i f : reads_only (load_int p i f).
Proof.
  apply reads_only_bind; [apply reads_only_load|].
  intros [n|q]; [apply reads_only_ret | apply reads_only_fault].
Qed.

Lemma reads_only_load_ptr p i f : reads_only (load_ptr p i f).
Proof.
  apply reads_only_bind; [apply reads_only_load|].
  intros [n|q]; [apply reads_only_fault | apply reads_only_ret].
Qed.

Lemma reads_only_vector_reserve n : reads_only (vector_reserve n).
Proof.
  intros s. unfold vector_reserve.
  destruct (next_verdict (oracle s)) as [[|] o']; now split.
Qed.

Lemma reads_only_toPaths64_points pts n :
  forall j p, reads_only (toPaths64_points pts j n p).
Proof.
  induction n as [|n IH]; intros j p; simpl; [apply reads_only_ret|].
  apply reads_only_bind; [apply reads_only_load_int | intros x].
  apply reads_only_bind; [apply reads_only_load_int | intros y].
  apply IH.
Qed.

Lemma reads_only_toPaths64_path items i : reads_only (toPaths64_path items i).
Proof.
  unfold toPaths64_path.
  apply reads_only_bind; [apply reads_only_load_int | intros len].
  destruct (0 <? len); [|apply reads_only_ret].
  apply reads_only_bind; [apply reads_only_load_ptr | intros pts].
  destruct pts; [|apply reads_only_ret].
  apply reads_only_bind; [apply reads_only_vector_reserve | intros _].
  apply reads_only_toPaths64_points.
Qed.

Lemma reads_only_toPaths64_loop cp n :
  forall i out, reads_only (toPaths64_loop cp i n out).
Proof.
  induction n as [|n IH]; intros i out; simpl; [apply reads_only_ret|].
  apply reads_only_bind; [apply reads_only_load_ptr | intros items].
  apply reads_only_bind; [apply reads_only_toPaths64_path | intros p].
  apply IH.
Qed.

Lemma reads_only_toPaths64 cp : reads_only (toPaths64 cp).
Proof.
  unfold toPaths64. destruct cp as [p|]; [|apply reads_only_ret].
  apply reads_only_bind; [apply reads_only_load_int | intros len].
  destruct (len <=? 0); [apply reads_only_ret|].
  apply reads_only_bind; [apply reads_only_vector_reserve | intros _].
  apply reads_only_toPaths64_loop.
Qed.

Lemma reads_only_leaves_heap {A} (m : M A) : reads_only m -> leaves_heap m.
Proof.
  intros H s. specialize (H s). destruct (m s) as [a s1|e s1|]; [| |exact I];
    destruct H as [Hh Ht]; (split; [exact Hh|]); exists [];
    rewrite app_nil_r; auto.
Qed.

Lemma leaves_heap_toPaths64 cp : leaves_heap (toPaths64 cp).
Proof. apply reads_only_leaves_heap, reads_only_toPaths64. Qed.

Lemma leaves_heap_boolean64_solve (ct fr : Z) (subj subjOp clip : Paths64) :
  leaves_heap (boolean64_solve ct fr subj subjOp clip).
Proof.
  intros s.
  destruct (boolean64_solve_outcome ct fr subj subjOp clip s)
    as (evs & HF & [(sols & ->)|(e & ->)]); simpl; split; eauto.
Qed.

Lemma leaves_heap_boolean64_compute (ct fr : Z) a b c :
  leaves_heap (boolean64_compute ct fr a b c).
Proof.
  unfold boolean64_compute.
  repeat (apply leaves_heap_bind; [apply leaves_heap_toPaths64 | intros ?]).
  apply leaves_heap_boolean64_solve.
Qed.

Lemma fromPaths64_engine_events (src : Paths64) dst s ok s' :
  fromPaths64 src dst s = Ret ok s' ->
  engine_events (trace s') = engine_events (trace s).
Proof.
  destruct dst as [p|]; [|now intros [= <- <-]].
  intros Hex. pose proof (fromPaths64_writable _ _ _ _ _ Hex) as Hw.
  destruct (fromPaths64_spec src p s Hw) as (ok' & s'' & Hex' & Hev & _).
  rewrite Hex in Hex'. now injection Hex' as <- <-.
Qed.

Lemma export_failed_engine_events (sol : Paths64) out s failed s' :
  export_failed sol out s = Ret failed s' ->
  engine_events (trace s') = engine_events (trace s).
Proof.
  intros [(-> & -> & ->)|(p & -> & Hex)]%export_failed_inv; [reflexivity|].
  now apply fromPaths64_engine_events in Hex.
Qed.

Lemma export_failed_never_throws (sol : Paths64) out :
  never_throws (export_failed sol out).
Proof.
  unfold export_failed. destruct out; [|apply never_throws_ret].
  apply never_throws_bind; [apply never_throws_fromPaths64 | intros ok].
  apply never_throws_ret.
Qed.

Lemma boolean64_export_never_throws sols oc oo :
  never_throws (boolean64_export sols oc oo).
Proof.
  unfold boolean64_export.
  apply never_throws_bind; [apply export_failed_never_throws | intros f1].
  destruct f1; [apply never_throws_ret|].
  apply never_throws_bind; [apply export_failed_never_throws | intros f2].
  destruct f2; apply never_throws_ret.
Qed.

Lemma boolean64_export_inv sols oc oo s st s' :
  boolean64_export sols oc oo s = Ret st s' ->
  exists failed_closed s1,
    export_failed (fst sols) oc s = Ret failed_closed s1 /\
    if failed_closed then st = 2 /\ s' = s1
    else exists failed_open,
        export_failed (snd sols) oo s1 = Ret failed_open s' /\
        st = if failed_open then 3 else 0.
Proof.
  intros (f1 & s1 & H1 & Hrest)%bind_Ret_inv. exists f1, s1. split; [exact H1|].
  destruct f1; [now injection Hrest as <- <-|].
  apply bind_Ret_inv in Hrest as (f2 & s2 & H2 & Hrest). exists f2.
  destruct f2; injection Hrest as <- <-; auto.
Qed.

Lemma boolean64_inv (ct fr : Z) a b c oc oo s st s' :
  clipper2c_boolean64 ct fr a b c oc oo s = Ret st s' ->
  (st = 1 /\ exists e, boolean64_compute ct fr a b c s = Throw e s') \/
  (exists sols s1,
     boolean64_compute ct fr a b c s = Ret sols s1 /\
     boolean64_export sols oc oo s1 = Ret st s').
Proof.
  intros [Hbody|(-> & e & Hbody)]%try_catch_all_Ret_inv.
  - right. now apply bind_Ret_inv in Hbody.
  - left. split; [reflexivity|].
    apply bind_Throw_inv in Hbody as [H|(sols & s1 & _ & H)]; [eauto|].
    now apply boolean64_export_never_throws in H.
Qed.

(** ** C2: status codes *)

Lemma boolean64_compute_not_Fault (ct fr : Z) a b c s :
  is_Some (wire_paths false (heap s) a) ->
  is_Some (wire_paths false (heap s) b) ->
  is_Some (wire_paths false (heap s) c) ->
  boolean64_compute ct fr a b c s <> Fault.
Proof.
  intros Ha Hb Hc. unfold boolean64_compute.
  destruct (toPaths64_not_Fault s a Ha) as [Hnf Hmem].
  apply bind_not_Fault; [exact Hnf|]. intros subj s1 H1.
  destruct (Hmem _ _ H1) as (Hh1 & _). rewrite <- Hh1 in Hb, Hc.
  destruct (toPaths64_not_Fault s1 b Hb) as [Hnf1 Hmem1].
  apply bind_not_Fault; [exact Hnf1|]. intros subjOp s2 H2.
  destruct (Hmem1 _ _ H2) as (Hh2 & _). rewrite <- Hh2 in Hc.
  destruct (toPaths64_not_Fault s2 c Hc) as [Hnf2 _].
  apply bind_not_Fault; [exact Hnf2|]. intros clip s3 _.
  destruct (boolean64_solve_outcome ct fr subj subjOp clip s3)
    as (evs & _ & [(sols & ->)|(e & ->)]); discriminate.
Qed.

Lemma boolean64_export_not_Fault sols oc oo s :
  writable_or_null (heap s) oc -> writable_or_null (heap s) oo ->
  boolean64_export sols oc oo s <> Fault.
Proof.
  intros Hoc Hoo. unfold boolean64_export.
  destruct (export_failed_returns (fst sols) oc s Hoc) as (f1 & s1 & H1 & _ & Hw).
  rewrite (bind_Ret _ _ _ _ _ H1). destruct f1; [discriminate|].
  assert (Hoo1 : writable_or_null (heap s1) oo).
  { destruct oo as [q|]; [|exact I]. now apply Hw. }
  destruct (export_failed_returns (snd sols) oo s1 Hoo1) as (f2 & s2 & H2 & _).
  rewrite (bind_Ret _ _ _ _ _ H2). now destruct f2.
Qed.

Lemma boolean64_returns (ct fr : Z) a b c oc oo s :
  is_Some (wire_paths false (heap s) a) ->
  is_Some (wire_paths false (heap s) b) ->
  is_Some (wire_paths false (heap s) c) ->
  writable_or_null (heap s) oc -> writable_or_null (heap s) oo ->
  exists st s', clipper2c_boolean64 ct fr a b c oc oo s = Ret st s'.
Proof.
  intros Ha Hb Hc Hoc Hoo. apply try_catch_all_returns.
  apply bind_not_Fault; [now apply boolean64_compute_not_Fault|].
  intros sols s1 Hcomp.
  pose proof (leaves_heap_boolean64_compute ct fr a b c s) as Hleave.
  rewrite Hcomp in Hleave. destruct Hleave as [Hh _].
  apply boolean64_export_not_Fault; now rewrite Hh.
Qed.

Lemma boolean64_status (ct fr : Z) a b c oc oo s st s' :
  clipper2c_boolean64 ct fr a b c oc oo s = Ret st s' ->
  st = 0 \/ st = 1 \/ (st = 2 /\ oc <> None) \/ (st = 3 /\ oo <> None).
Proof.
  intros [[-> _]|(sols & s1 & _ & Hex)]%boolean64_inv; [auto|].
  apply boolean64_export_inv in Hex as (f1 & s2 & H1 & Hrest).
  destruct f1.
  - destruct Hrest as [-> _]. right. right. left. split; [reflexivity|].
    now apply export_failed_inv in H1 as [(_ & [=] & _)|(p & -> & _)].
  - destruct Hrest as (f2 & H2 & ->). destruct f2; [|auto].
    right. right. right. split; [reflexivity|].
    now apply export_failed_inv in H2 as [(_ & [=] & _)|(p & -> & _)].
Qed.

Lemma unary_status (in_paths out_paths : ptr) (ev : Paths64 -> event)
  (f : Paths64 -> exn + Paths64) s st s' :
  try_catch_all
    (do inp <- toPaths64 in_paths ;
     do out <- call_engine (ev inp) (f inp) ;
     do ok <- fromPaths64 out out_paths ;
     if negb ok then ret 2 else ret 0) 1 s = Ret st s' ->
  st = 0 \/ st = 1 \/ st = 2.
Proof.
  intros [[-> _]|(inp & s1 & _ & H)]%unary_dispatch_inv; [auto|].
  destruct (f inp); [destruct H as [-> _]; auto|].
  destruct H as ([|] & _ & ->); auto.
Qed.

(** C2. Each public operation, on any input and whatever the engine and the
    allocator do, ends in one of its documented status codes: no exception
    leaves through the entry point, a call that completes returns 0, 1, 2
    (or 3 for the boolean operation), and on inputs that respect the data
    model, with output pointers that are null or point to a handle, the
    call does complete. *)
Theorem status_codes :
  (forall (ct fr : Z) a b c oc oo s,
     (forall e s', clipper2c_boolean64 ct fr a b c oc oo s <> Throw e s') /\
     (forall st s', clipper2c_boolean64 ct fr a b c oc oo s = Ret st s' ->
                    st = 0 \/ st = 1 \/ st = 2 \/ st = 3) /\
     (is_Some (wire_paths false (heap s) a) ->
      is_Some (wire_paths false (heap s) b) ->
      is_Some (wire_paths false (heap s) c) ->
      writable_or_null (heap s) oc -> writable_or_null (heap s) oo ->
      exists st s', clipper2c_boolean64 ct fr a b c oc oo s = Ret st s')) /\
  (forall paths delta (jt et : Z) miter_limit arc_tolerance out s,
     let call := clipper2c_offset64 C_JOIN_BEVEL C_END_POLYGON paths delta jt et
                   miter_limit arc_tolerance out in
     (forall e s', call s <> Throw e s') /\
     (forall st s', call s = Ret st s' -> st = 0 \/ st = 1 \/ st = 2) /\
     (is_Some (wire_paths false (heap s) paths) -> writable_or_null (heap s) out ->
      exists st s', call s = Ret st s')) /\
  (forall (l t r b : Z) in_paths out s,
     (forall e s', clipper2c_rectclip64 l t r b in_paths out s <> Throw e s') /\
     (forall st s', clipper2c_rectclip64 l t r b in_paths out s = Ret st s' ->
                    st = 0 \/ st = 1 \/ st = 2) /\
     (is_Some (wire_paths false (heap s) in_paths) -> writable_or_null (heap s) out ->
      exists st s', clipper2c_rectclip64 l t r b in_paths out s = Ret st s')).
Proof.
  split; [|split].
  - intros ct fr a b c oc oo s. split; [|split].
    + intros e s'. apply try_catch_all_never_throws.
    + intros st s' H. apply boolean64_status in H. tauto.
    + apply boolean64_returns.
  - intros paths delta jt et ml at' out s call. subst call. split; [|split].
    + intros e s'. apply try_catch_all_never_throws.
    + intros st s'. unfold clipper2c_offset64.
      apply (unary_status paths out
               (fun inp => EvInflatePaths inp delta (toJT C_JOIN_BEVEL jt)
                             (toET C_END_POLYGON et) ml at')
               (fun inp => InflatePaths inp delta (toJT C_JOIN_BEVEL jt)
                             (toET C_END_POLYGON et) ml at')).
    + unfold clipper2c_offset64.
      apply (unary_dispatch_returns paths out
               (fun inp => EvInflatePaths inp delta (toJT C_JOIN_BEVEL jt)
                             (toET C_END_POLYGON et) ml at')
               (fun inp => InflatePaths inp delta (toJT C_JOIN_BEVEL jt)
                             (toET C_END_POLYGON et) ml at')).
  - intros l t r b in_paths out s. split; [|split].
    + intros e s'. apply try_catch_all_never_throws.
    + intros st s'. unfold clipper2c_rectclip64.
      apply (unary_status in_paths out (fun inp => EvRectClip (mkRect64 l t r b) inp)
               (fun inp => RectClip (mkRect64 l t r b) inp)).
    + unfold clipper2c_rectclip64.
      apply (unary_dispatch_returns in_paths out
               (fun inp => EvRectClip (mkRect64 l t r b) inp)
               (fun inp => RectClip (mkRect64 l t r b) inp)).
Qed.

(** ** C6: optional outputs of [clipper2c_boolean64] *)

Lemma populated_live h p (paths : Paths64) items bufs l :
  populated h p paths items bufs ->
  l = p \/ l ∈ owned_blocks items bufs -> is_Some (h !! l).
Proof.
  intros [(rest & Hp) Hitems] [->|Hl]; [now rewrite Hp|].
  unfold owned_blocks in Hl. destruct items as [il|].
  - destruct Hitems as (Hil & HF & _).
    apply elem_of_app in Hl as [Hl|Hl]; [now apply (buffers_live h paths bufs)|].
    simpl in Hl. apply list_elem_of_singleton in Hl as ->. now rewrite Hil.
  - destruct Hitems as [_ ->]. simpl in Hl. now apply elem_of_nil in Hl.
Qed.

Lemma populated_frame h h' p (paths : Paths64) items bufs :
  populated h p paths items bufs ->
  (forall l, l = p \/ l ∈ owned_blocks items bufs -> h' !! l = h !! l) ->
  populated h' p paths items bufs.
Proof.
  intros [(rest & Hp) Hitems] Hsame. split.
  - exists rest. rewrite Hsame by now left. exact Hp.
  - destruct items as [il|]; [|exact Hitems].
    destruct Hitems as (Hil & HF & Hnd). split; [|split; [|exact Hnd]].
    + rewrite Hsame; [exact Hil|]. right. unfold owned_blocks.
      apply elem_of_app. right. simpl. left.
    + apply (buffers_frame h); [exact HF|]. intros l Hl. apply Hsame.
      right. unfold owned_blocks. apply elem_of_app. now left.
Qed.

Lemma fromPaths64_post (src : Paths64) p s s' :
  fromPaths64 src (Some p) s = Ret true s' -> export_post s p src s'.
Proof.
  intros Hex. pose proof (fromPaths64_writable _ _ _ _ _ Hex) as Hw.
  destruct (fromPaths64_spec src p s Hw) as (ok & s'' & Hex' & _ & _ & Hpost).
  rewrite Hex in Hex'. injection Hex' as <- <-. now apply Hpost.
Qed.

Lemma boolean64_export_engine_events sols oc oo s st s' :
  boolean64_export sols oc oo s = Ret st s' ->
  engine_events (trace s') = engine_events (trace s).
Proof.
  intros (f1 & s1 & H1 & Hrest)%boolean64_export_inv.
  apply export_failed_engine_events in H1. destruct f1.
  - destruct Hrest as [_ ->]. exact H1.
  - destruct Hrest as (f2 & H2 & _). apply export_failed_engine_events in H2. congruence.
Qed.

Lemma boolean64_export_populated (sol solOpen : Paths64) oc oo s s' :
  boolean64_export (sol, solOpen) oc oo s = Ret 0 s' ->
  writable_or_null (heap s) oo ->
  (forall q, oo = Some q ->
     exists items bufs, populated (heap s') q (exported_paths solOpen) items bufs) /\
  (forall p, oc = Some p -> oo <> Some p ->
     exists items bufs, populated (heap s') p (exported_paths sol) items bufs).
Proof.
  intros (f1 & s1 & H1 & Hrest)%boolean64_export_inv Hoo.
  destruct f1; [now destruct Hrest|]. destruct Hrest as (f2 & H2 & Hst).
  destruct f2; [discriminate|]. cbn [fst snd] in *.
  apply export_failed_inv in H1. apply export_failed_inv in H2. split.
  - intros q ->. destruct H2 as [(? & _)|(q' & [= <-] & Hex)]; [discriminate|].
    destruct (fromPaths64_post _ _ _ _ Hex) as (items & bufs & Hpop & _). eauto.
  - intros p -> Hne. destruct H1 as [(? & _)|(p' & [= <-] & Hex1)]; [discriminate|].
    destruct (fromPaths64_post _ _ _ _ Hex1) as (items & bufs & Hpop & Hfresh & _).
    exists items, bufs.
    destruct H2 as [(_ & _ & ->)|(q & -> & Hex2)]; [exact Hpop|].
    destruct (fromPaths64_post _ _ _ _ Hex2) as (items' & bufs' & _ & Hfresh' & Hframe' & _).
    apply (populated_frame (heap s1)); [exact Hpop|].
    intros l Hl. apply Hframe'.
    + intros Hin. apply Hfresh' in Hin. apply Hin. apply elem_of_dom.
      now apply (populated_live _ _ _ _ _ _ Hpop).
    + destruct Hl as [->|Hl]; [congruence|].
      intros ->. apply Hfresh in Hl. apply Hl. apply elem_of_dom.
      destruct Hoo as (c & rest & Hq). now rewrite Hq.
Qed.


(** ** C7 and C9: the one-input operations *)

Lemma toPaths64_Ret_memory cp s ps s1 :
  toPaths64 cp s = Ret ps s1 -> heap s1 = heap s /\ trace s1 = trace s.
Proof.
  intros H. pose proof (reads_only_toPaths64 cp s) as Hr. now rewrite H in Hr.
Qed.

Lemma toPaths64_Throw_memory cp s e s1 :
  toPaths64 cp s = Throw e s1 -> heap s1 = heap s /\ trace s1 = trace s.
Proof.
  intros H. pose proof (reads_only_toPaths64 cp s) as Hr. now rewrite H in Hr.
Qed.

Lemma engine_events_engine tr ev :
  is_engine_event ev = true -> engine_events (tr ++ [ev]) = engine_events tr ++ [ev].
Proof.
  intros H. rewrite engine_events_app. f_equal. unfold engine_events.
  now rewrite filter_cons_True by exact H.
Qed.

Lemma unary_dispatch_run (in_paths out_paths : ptr) (ev : Paths64 -> event)
  (f : Paths64 -> exn + Paths64) s inp s1 :
  (forall ps, is_engine_event (ev ps) = true) ->
  toPaths64 in_paths s = Ret inp s1 ->
  writable_or_null (heap s) out_paths ->
  let call :=
    try_catch_all
      (do inp <- toPaths64 in_paths ;
       do out <- call_engine (ev inp) (f inp) ;
       do ok <- fromPaths64 out out_paths ;
       if negb ok then ret 2 else ret 0) 1 in
  match f inp with
  | inl _ => call s = Ret 1 (with_trace s1 [ev inp])
  | inr res =>
      exists (ok : bool) s',
        call s = Ret (if ok then 0 else 2) s' /\
        fromPaths64 res out_paths (with_trace s1 [ev inp]) = Ret ok s' /\
        engine_events (trace s') = engine_events (trace s) ++ [ev inp] /\
        (ok = true -> forall p, out_paths = Some p ->
           exists items bufs, populated (heap s') p (exported_paths res) items bufs)
  end.
Proof.
  intros Hev Hin Hout call. subst call. unfold try_catch_all.
  rewrite (bind_Ret _ _ _ _ _ Hin).
  pose proof (call_engine_eq (ev inp) (f inp) s1) as Heng.
  destruct (toPaths64_Ret_memory _ _ _ _ Hin) as [Hh Ht].
  destruct (f inp) as [e|res]; [now rewrite (bind_Throw _ _ _ _ _ Heng)|].
  rewrite (bind_Ret _ _ _ _ _ Heng).
  assert (Hevs : forall s', engine_events (trace s')
                            = engine_events (trace (with_trace s1 [ev inp])) ->
                 engine_events (trace s') = engine_events (trace s) ++ [ev inp]).
  { intros s' Heq. rewrite Heq. simpl. rewrite Ht. apply engine_events_engine, Hev. }
  destruct out_paths as [p|].
  - assert (Hw : writable (heap (with_trace s1 [ev inp])) p) by (simpl; now rewrite Hh).
    destruct (fromPaths64_spec res p _ Hw) as (ok & s' & Hex & Hevs' & _ & Hpost).
    exists ok, s'. rewrite (bind_Ret _ _ _ _ _ Hex).
    split; [now destruct ok|]. split; [exact Hex|]. split; [now apply Hevs|].
    intros -> p' [= <-]. destruct (Hpost eq_refl) as (items & bufs & Hpop & _). eauto.
  - exists false, (with_trace s1 [ev inp]). split; [reflexivity|].
    split; [reflexivity|]. split; [now apply Hevs | discriminate].
Qed.

(** C7. [clipper2c_rectclip64] takes any four coordinates, ordered or
    not, and hands exactly [Rect64{left, top, right, bottom}] with the
    imported paths to the engine's [RectClip], once.  What comes back is
    decided by the engine's answer alone: a raised failure gives status 1,
    an answer is exported, with status 0 and a populated output when the
    export completes and status 2 when it does not. *)
Theorem rectclip64_passes_rectangle (l t r b : Z) in_paths out s inp s1 :
  toPaths64 in_paths s = Ret inp s1 ->
  writable_or_null (heap s) out ->
  let ev := EvRectClip (mkRect64 l t r b) inp in
  match RectClip (mkRect64 l t r b) inp with
  | inl _ => clipper2c_rectclip64 l t r b in_paths out s = Ret 1 (with_trace s1 [ev])
  | inr res =>
      exists (ok : bool) s',
        clipper2c_rectclip64 l t r b in_paths out s = Ret (if ok then 0 else 2) s' /\
        fromPaths64 res out (with_trace s1 [ev]) = Ret ok s' /\
        engine_events (trace s') = engine_events (trace s) ++ [ev] /\
        (ok = true -> forall p, out = Some p ->
           exists items bufs, populated (heap s') p (exported_paths res) items bufs)
  end.
Proof.
  intros Hin Hout.
  exact (unary_dispatch_run in_paths out (fun inp => EvRectClip (mkRect64 l t r b) inp)
           (fun inp => RectClip (mkRect64 l t r b) inp) s inp s1
           (fun _ => eq_refl) Hin Hout).
Qed.

Lemma unary_null_output (in_paths : ptr) (ev : Paths64 -> event)
  (f : Paths64 -> exn + Paths64) s :
  let call :=
    try_catch_all
      (do inp <- toPaths64 in_paths ;
       do out <- call_engine (ev inp) (f inp) ;
       do ok <- fromPaths64 out None ;
       if negb ok then ret 2 else ret 0) 1 in
  (forall st s', call s = Ret st s' ->
     heap s' = heap s /\
     ((st = 2 /\ exists inp s1 res, toPaths64 in_paths s = Ret inp s1 /\ f inp = inr res) \/
      (st = 1 /\ ((exists e, toPaths64 in_paths s = Throw e s') \/
                  (exists inp s1 e, toPaths64 in_paths s = Ret inp s1 /\ f inp = inl e))))) /\
  (is_Some (wire_paths false (heap s) in_paths) -> exists st s', call s = Ret st s').
Proof.
  intros call. subst call. split.
  - intros st s' [(-> & e & Hin)|(inp & s1 & Hin & H)]%unary_dispatch_inv.
    + split; [now apply toPaths64_Throw_memory in Hin|]. right. eauto.
    + destruct (toPaths64_Ret_memory _ _ _ _ Hin) as [Hh _].
      destruct (f inp) as [e|res] eqn:Hf.
      * destruct H as [-> ->]. split; [exact Hh|]. right. split; [reflexivity|].
        right. eauto.
      * destruct H as (ok & Hex & ->). injection Hex as <- <-.
        split; [exact Hh|]. left. split; [reflexivity|]. eauto.
  - intros Hin. now apply unary_dispatch_returns.
Qed.

(** C9 (as amended).  With a null output pointer [clipper2c_offset64] and
    [clipper2c_rectclip64] never write to the heap and never return 0: they
    return 2 exactly when the import and the engine call complete, and 1
    when one of them raises a failure.  On inputs that respect the data
    model the call does complete. *)
Theorem null_output_status :
  (forall paths delta (jt et : Z) miter_limit arc_tolerance s,
     let jt' := toJT C_JOIN_BEVEL jt in
     let et' := toET C_END_POLYGON et in
     let call := clipper2c_offset64 C_JOIN_BEVEL C_END_POLYGON paths delta jt et
                   miter_limit arc_tolerance None in
     (forall st s', call s = Ret st s' ->
        heap s' = heap s /\
        ((st = 2 /\ exists inp s1 res,
             toPaths64 paths s = Ret inp s1 /\
             InflatePaths inp delta jt' et' miter_limit arc_tolerance = inr res) \/
         (st = 1 /\ ((exists e, toPaths64 paths s = Throw e s') \/
                     (exists inp s1 e,
                        toPaths64 paths s = Ret inp s1 /\
                        InflatePaths inp delta jt' et' miter_limit arc_tolerance = inl e))))) /\
     (is_Some (wire_paths false (heap s) paths) -> exists st s', call s = Ret st s')) /\
  (forall (l t r b : Z) in_paths s,
     let call := clipper2c_rectclip64 l t r b in_paths None in
     (forall st s', call s = Ret st s' ->
        heap s' = heap s /\
        ((st = 2 /\ exists inp s1 res,
             toPaths64 in_paths s = Ret inp s1 /\
             RectClip (mkRect64 l t r b) inp = inr res) \/
         (st = 1 /\ ((exists e, toPaths64 in_paths s = Throw e s') \/
                     (exists inp s1 e,
                        toPaths64 in_paths s = Ret inp s1 /\
                        RectClip (mkRect64 l t r b) inp = inl e))))) /\
     (is_Some (wire_paths false (heap s) in_paths) -> exists st s', call s = Ret st s')).
Proof.
  split.
  - intros paths delta jt et ml at' s jt' et' call.
    exact (unary_null_output paths
             (fun inp => EvInflatePaths inp delta jt' et' ml at')
             (fun inp => InflatePaths inp delta jt' et' ml at') s).
  - intros l t r b in_paths s call.
    exact (unary_null_output in_paths (fun inp => EvRectClip (mkRect64 l t r b) inp)
             (fun inp => RectClip (mkRect64 l t r b) inp) s).
Qed.

(** ** C5: join types *)

(** C5. The header declares exactly three join types, Square = 0,
    Round = 1 and Miter = 2.  The enumerator [C_JOIN_BEVEL] that [toJT]
    names is not among them (case labels are distinct), so [toJT] sends
    them to the engine's Square, Round and Miter, and a call of
    [clipper2c_offset64] with one of them calls the engine at most once,
    never with the Bevel join. *)
Theorem jointype_never_bevel :
  C_JOIN_BEVEL <> C_JOIN_SQUARE -> C_JOIN_BEVEL <> C_JOIN_ROUND ->
  C_JOIN_BEVEL <> C_JOIN_MITER ->
  (forall j : c_jointype, j = JOIN_SQUARE \/ j = JOIN_ROUND \/ j = JOIN_MITER) /\
  (c_jointype_value JOIN_SQUARE = 0 /\ c_jointype_value JOIN_ROUND = 1 /\
   c_jointype_value JOIN_MITER = 2) /\
  (toJT C_JOIN_BEVEL (c_jointype_value JOIN_SQUARE) = JT_Square /\
   toJT C_JOIN_BEVEL (c_jointype_value JOIN_ROUND) = JT_Round /\
   toJT C_JOIN_BEVEL (c_jointype_value JOIN_MITER) = JT_Miter) /\
  (forall (j : c_jointype) paths delta (et : Z) miter_limit arc_tolerance out s st s',
     clipper2c_offset64 C_JOIN_BEVEL C_END_POLYGON paths delta (c_jointype_value j) et
       miter_limit arc_tolerance out s = Ret st s' ->
     engine_events (trace s') = engine_events (trace s) \/
     exists inp jt,
       engine_events (trace s')
       = engine_events (trace s)
         ++ [EvInflatePaths inp delta jt (toET C_END_POLYGON et) miter_limit arc_tolerance] /\
       jt = toJT C_JOIN_BEVEL (c_jointype_value j) /\ jt <> JT_Bevel).
Proof.
  intros Hsq Hro Hmi.
  assert (HtoJT : toJT C_JOIN_BEVEL (c_jointype_value JOIN_SQUARE) = JT_Square /\
                  toJT C_JOIN_BEVEL (c_jointype_value JOIN_ROUND) = JT_Round /\
                  toJT C_JOIN_BEVEL (c_jointype_value JOIN_MITER) = JT_Miter).
  { unfold toJT, c_jointype_value, C_JOIN_SQUARE, C_JOIN_ROUND, C_JOIN_MITER in *.
    repeat split;
      destruct (Z.eqb_spec 1 C_JOIN_BEVEL); destruct (Z.eqb_spec 2 C_JOIN_BEVEL);
      try congruence; reflexivity. }
  split; [intros []; auto|]. split; [repeat split|]. split; [exact HtoJT|].
  intros j paths delta et ml at' out s st s' Hcall.
  pose (ev := fun inp => EvInflatePaths inp delta (toJT C_JOIN_BEVEL (c_jointype_value j))
                           (toET C_END_POLYGON et) ml at').
  destruct (unary_dispatch_inv paths out ev
              (fun inp => InflatePaths inp delta (toJT C_JOIN_BEVEL (c_jointype_value j))
                            (toET C_END_POLYGON et) ml at') s st s' Hcall)
    as [(_ & e & Hin)|(inp & s1 & Hin & H)].
  - left. apply toPaths64_Throw_memory in Hin as [_ ->]. reflexivity.
  - right. exists inp, (toJT C_JOIN_BEVEL (c_jointype_value j)).
    apply toPaths64_Ret_memory in Hin as [_ Ht].
    assert (Hevs : engine_events (trace (with_trace s1 [ev inp]))
                   = engine_events (trace s) ++ [ev inp]).
    { simpl. rewrite Ht. now apply engine_events_engine. }
    split; [|split; [reflexivity|]].
    + destruct (InflatePaths _ _ _ _ _ _).
      * destruct H as [_ ->]. exact Hevs.
      * destruct H as (ok & Hex & _). apply fromPaths64_engine_events in Hex.
        now rewrite Hex.
    + destruct HtoJT as (H1 & H2 & H3). destruct j; congruence.
Qed.

(** ** C8: what [toPaths64] accepts *)

(** C8 (as amended).  [toPaths64] is total on every structure in which the
    path array holds at least [len] entries and every non-null point buffer
    at least as many points as its path's length: it returns the denoted
    paths, or raises [std::bad_alloc] when the allocator refuses, and never
    touches undefined behaviour.  A null path-set pointer gives the empty
    collection, and a path whose point buffer is null is imported as the
    empty path whatever its length. *)
Theorem import_total s :
  toPaths64 None s = Ret [] s /\
  (forall cp (ps : Paths64),
     wire_paths false (heap s) cp = Some ps ->
     imports s ps (toPaths64 cp s) /\
     (all_granted (oracle s) -> exists s', toPaths64 cp s = Ret ps s')) /\
  (forall il cells k len,
     heap s !! il = Some cells ->
     cells !! k = Some (Some (VInt len), Some (VPtr None)) ->
     toPaths64_path (Some il) k s = Ret [] s).
Proof.
  split; [reflexivity|]. split.
  - intros cp ps Hw. pose proof (toPaths64_spec s cp ps Hw) as H. split; [exact H|].
    intros Hg. destruct (toPaths64 cp s) as [a s'|e s'|]; simpl in H.
    + destruct H as [-> _]. eauto.
    + now destruct H as (_ & _ & Hn).
    + contradiction.
  - intros il cells k len Hil Hk. unfold toPaths64_path.
    rewrite (bind_Ret _ _ _ _ _ (load_int_Ret _ _ _ Fst _ _ len Hil Hk eq_refl)).
    destruct (0 <? len); [|reflexivity].
    now rewrite (bind_Ret _ _ _ _ _ (load_ptr_Ret _ _ _ Snd _ _ None Hil Hk eq_refl)).
Qed.

(** ** The strategy of the Boolean operation *)

Lemma boolean64_entry (ct fr : Z) a b c oc oo s :
  clipper2c_boolean64 ct fr a b c oc oo s
  = match boolean64_compute ct fr a b c s with
    | Ret sols s1 => boolean64_export sols oc oo s1
    | Throw _ s1 => Ret 1 s1
    | Fault => Fault
    end.
Proof.
  unfold clipper2c_boolean64, try_catch_all, bind.
  destruct (boolean64_compute ct fr a b c s) as [sols s1| |]; try reflexivity.
  destruct (boolean64_export sols oc oo s1) as [st s'|e s'|] eqn:H; try reflexivity.
  now apply boolean64_export_never_throws in H.
Qed.

Lemma boolean64_export_spec (sol solOpen : Paths64) oc oo s :
  writable_or_null (heap s) oc -> writable_or_null (heap s) oo ->
  exists st s',
    boolean64_export (sol, solOpen) oc oo s = Ret st s' /\
    engine_events (trace s') = engine_events (trace s) /\
    (st = 0 \/ (st = 2 /\ oc <> None) \/ (st = 3 /\ oo <> None)) /\
    (st = 0 ->
     (forall q, oo = Some q ->
        exists items bufs, populated (heap s') q (exported_paths solOpen) items bufs) /\
     (forall p, oc = Some p -> oo <> Some p ->
        exists items bufs, populated (heap s') p (exported_paths sol) items bufs)).
Proof.
  intros Hoc Hoo.
  destruct (boolean64_export (sol, solOpen) oc oo s) as [st s'|e s'|] eqn:H.
  - exists st, s'. split; [reflexivity|].
    split; [eapply boolean64_export_engine_events, H|]. split.
    + pose proof H as (f1 & s1 & H1 & Hrest)%boolean64_export_inv.
      destruct f1.
      * destruct Hrest as [-> _]. right. left. split; [reflexivity|].
        intros ->. discriminate.
      * destruct Hrest as (f2 & H2 & ->). destruct f2; [|now left].
        right. right. split; [reflexivity|]. intros ->. discriminate.
    + intros ->. now apply (boolean64_export_populated sol solOpen oc oo s s').
  - now apply boolean64_export_never_throws in H.
  - now apply boolean64_export_not_Fault in H.
Qed.

(** C1. [clipper2c_boolean64] picks its evaluation exactly as follows,
    the sets tested being the imports [subj], [subjOp] and [clip] of its
    three input path sets.  Full mode, when the open subjects are non-empty
    or both the closed subjects and the clips are: each non-empty set is
    registered, in the order closed subjects, open subjects, clips, and one
    [Execute] yields the closed and the open solution, which the call
    exports; if the engine raises an exception the call returns 1 after the
    engine calls made so far.  Reduced mode, when only the closed subjects
    are non-empty and the clips are empty: one [BooleanOp] of the closed
    subjects against the empty clip set, exported with an empty open
    solution.  Otherwise (no closed subjects, whatever the clips): no
    engine call, and two empty solutions are exported.  Exporting a closed
    and an open solution adds no engine call, returns 0, 2 or 3, and on 0
    leaves the open handle populated with the open solution and a distinct
    closed handle with the closed one.  The same three cases hold of the
    evaluation step [boolean64_solve] in any state. *)
Theorem boolean64_strategy (ct fr : Z) (subj subjOp clip : Paths64) s :
  (forall a b c oc oo s0,
     wire_paths false (heap s0) a = Some subj ->
     wire_paths false (heap s0) b = Some subjOp ->
     wire_paths false (heap s0) c = Some clip ->
     all_granted (oracle s0) ->
     exists s3, same_memory s0 s3 /\
       boolean64_compute ct fr a b c s0 = boolean64_solve ct fr subj subjOp clip s3 /\
       (subjOp <> [] \/ (subj <> [] /\ clip <> []) ->
        match registered subj subjOp clip with
        | inr cl =>
            match Execute (toCT ct) (toFR fr) cl with
            | inr sols =>
                clipper2c_boolean64 ct fr a b c oc oo s0
                = boolean64_export sols oc oo
                    (with_trace s3 (registrations subj subjOp clip
                                    ++ [EvExecute (toCT ct) (toFR fr)]))
            | inl _ =>
                clipper2c_boolean64 ct fr a b c oc oo s0
                = Ret 1 (with_trace s3 (registrations subj subjOp clip
                                        ++ [EvExecute (toCT ct) (toFR fr)]))
            end
        | inl _ =>
            exists evs, evs `prefix_of` registrations subj subjOp clip /\
                        clipper2c_boolean64 ct fr a b c oc oo s0
                        = Ret 1 (with_trace s3 evs)
        end) /\
       (subjOp = [] -> subj <> [] -> clip = [] ->
        match BooleanOp (toCT ct) (toFR fr) subj [] with
        | inr sol =>
            clipper2c_boolean64 ct fr a b c oc oo s0
            = boolean64_export (sol, []) oc oo
                (with_trace s3 [EvBooleanOp (toCT ct) (toFR fr) subj []])
        | inl _ =>
            clipper2c_boolean64 ct fr a b c oc oo s0
            = Ret 1 (with_trace s3 [EvBooleanOp (toCT ct) (toFR fr) subj []])
        end) /\
       (subjOp = [] -> subj = [] ->
        clipper2c_boolean64 ct fr a b c oc oo s0
        = boolean64_export ([], []) oc oo s3)) /\
  (forall (sol solOpen : Paths64) oc oo s0,
     writable_or_null (heap s0) oc -> writable_or_null (heap s0) oo ->
     exists st s',
       boolean64_export (sol, solOpen) oc oo s0 = Ret st s' /\
       engine_events (trace s') = engine_events (trace s0) /\
       (st = 0 \/ (st = 2 /\ oc <> None) \/ (st = 3 /\ oo <> None)) /\
       (st = 0 ->
        (forall q, oo = Some q ->
           exists items bufs, populated (heap s') q (exported_paths solOpen) items bufs) /\
        (forall p, oc = Some p -> oo <> Some p ->
           exists items bufs, populated (heap s') p (exported_paths sol) items bufs))) /\
  (subjOp <> [] \/ (subj <> [] /\ clip <> []) ->
   match registered subj subjOp clip with
   | inr c =>
       boolean64_solve ct fr subj subjOp clip s
       = match Execute (toCT ct) (toFR fr) c with
         | inr sols =>
             Ret sols (with_trace s (registrations subj subjOp clip
                                     ++ [EvExecute (toCT ct) (toFR fr)]))
         | inl e =>
             Throw e (with_trace s (registrations subj subjOp clip
                                    ++ [EvExecute (toCT ct) (toFR fr)]))
         end
   | inl e =>
       exists evs, evs `prefix_of` registrations subj subjOp clip /\
                   boolean64_solve ct fr subj subjOp clip s = Throw e (with_trace s evs)
   end) /\
  (subjOp = [] -> subj <> [] -> clip = [] ->
   boolean64_solve ct fr subj subjOp clip s
   = match BooleanOp (toCT ct) (toFR fr) subj [] with
     | inr sol => Ret (sol, []) (with_trace s [EvBooleanOp (toCT ct) (toFR fr) subj []])
     | inl e => Throw e (with_trace s [EvBooleanOp (toCT ct) (toFR fr) subj []])
     end) /\
  (subjOp = [] -> subj = [] ->
   boolean64_solve ct fr subj subjOp clip s = Ret ([], []) s).
Proof.
  split; [|split; [|apply boolean64_solve_cases]].
  - intros a b c oc oo s0 Ha Hb Hc Hg.
    destruct (boolean64_compute_imports ct fr a b c s0 subj subjOp clip Ha Hb Hc Hg)
      as (s3 & Hm & Hcomp).
    exists s3. split; [exact Hm|]. split; [exact Hcomp|].
    rewrite boolean64_entry, Hcomp.
    destruct (boolean64_solve_cases ct fr subj subjOp clip s3) as (Hfull & Hred & Hnone).
    split; [|split].
    + intros Hcond. specialize (Hfull Hcond).
      destruct (registered subj subjOp clip) as [e|cl].
      * destruct Hfull as (evs & Hpre & Hs). exists evs. split; [exact Hpre|].
        now rewrite Hs.
      * rewrite Hfull. now destruct (Execute (toCT ct) (toFR fr) cl).
    + intros H1 H2 H3. rewrite (Hred H1 H2 H3).
      now destruct (BooleanOp (toCT ct) (toFR fr) subj []).
    + intros H1 H2. now rewrite (Hnone H1 H2).
  - intros sol solOpen oc oo s0. apply boolean64_export_spec.
Qed.

(** ** Footprint of the export *)

Lemma store_footprint l i f v s s' :
  store (Some l) i f v s = Ret tt s' ->
  (forall l', l' <> l -> heap s' !! l' = heap s !! l') /\
  is_Some (heap s !! l) /\ is_Some (heap s' !! l) /\ trace s' = trace s.
Proof.
  intros H. apply store_inv in H as (b & c & Hb & _ & ->). simpl.
  repeat split.
  - intros l' Hne. now rewrite lookup_insert_ne.
  - now rewrite Hb.
  - now rewrite lookup_insert_eq.
Qed.

Lemma fromPaths64_points_footprint (sp : Path64) l :
  forall n j s s',
    fromPaths64_points sp (Some l) j n s = Ret tt s' ->
    (forall l', l' <> l -> heap s' !! l' = heap s !! l') /\
    (is_Some (heap s !! l) -> is_Some (heap s' !! l)) /\ trace s' = trace s.
Proof.
  induction n as [|n IH]; intros j s s' H; simpl in H.
  - injection H as <-. repeat split; auto.
  - destruct (sp !! j) as [pt|]; [|discriminate].
    apply bind_Ret_inv in H as ([] & s1 & H1 & H).
    apply bind_Ret_inv in H as ([] & s2 & H2 & H).
    apply store_footprint in H1 as (F1 & _ & L1 & T1).
    apply store_footprint in H2 as (F2 & _ & L2 & T2).
    apply IH in H as (F3 & L3 & T3).
    repeat split.
    + intros l' Hne. rewrite F3, F2, F1; auto.
    + intros _. auto.
    + congruence.
Qed.

Lemma footprint_refl w s : footprint w s s.
Proof.
  repeat split; auto. exists []. split; [now rewrite app_nil_r | constructor].
Qed.

Lemma footprint_live w s s' l :
  footprint w s s' -> is_Some (heap s !! l) -> is_Some (heap s' !! l).
Proof.
  intros (F & L & _) Hl. destruct (decide (l = w)) as [->|Hne]; [auto|].
  now rewrite F.
Qed.

Lemma footprint_trans w s1 s2 s3 :
  footprint w s1 s2 -> footprint w s2 s3 -> footprint w s1 s3.
Proof.
  intros H12 H23.
  pose proof (fun l => footprint_live _ _ _ l H12) as Live12.
  pose proof (fun l => footprint_live _ _ _ l H23) as Live23.
  destruct H12 as (F1 & L1 & news1 & T1 & A1), H23 as (F2 & L2 & news2 & T2 & A2).
  repeat split.
  - intros l Hl Hne. rewrite F2, F1; auto.
  - auto.
  - exists (news1 ++ news2). split; [rewrite T2, T1; now rewrite app_assoc|].
    apply Forall_app. split.
    + eapply Forall_impl; [exact A1|]. intros ev (l & b & -> & Hn & Hl).
      exists l, b. auto.
    + eapply Forall_impl; [exact A2|]. intros ev (l & b & -> & Hn & Hl).
      exists l, b. repeat split; auto.
      destruct (heap s1 !! l) eqn:Es1; [|reflexivity].
      assert (is_Some (heap s2 !! l)) as [? Hx] by (apply Live12; rewrite Es1; eauto).
      congruence.
Qed.


Lemma fromPaths64_path_footprint (src : Paths64) p il len rest i s ok s' :
  heap s !! p = Some (handle_cell len (Some il) :: rest) ->
  fromPaths64_path src (Some p) i s = Ret ok s' ->
  footprint il s s'.
Proof.
  intros Hp H. unfold fromPaths64_path in H.
  destruct (src !! i) as [sp|]; [|discriminate].
  rewrite (bind_Ret _ _ _ _ _ (load_handle_items s p len (Some il) rest Hp)) in H.
  apply bind_Ret_inv in H as ([] & s1 & H1 & H).
  apply store_footprint in H1 as (F1 & L0 & L1 & T1).
  destruct (to_int (Z.of_nat (length sp)) =? 0).
  - apply bind_Ret_inv in H as ([] & s2 & H2 & H). injection H as <- <-.
    apply store_footprint in H2 as (F2 & _ & L2 & T2).
    repeat split.
    + intros l _ Hne. rewrite F2, F1; auto.
    + auto.
    + exists []. split; [rewrite app_nil_r; congruence | constructor].
  - apply bind_Ret_inv in H as (pts & s2 & H2 & H).
    destruct (new_nothrow_spec (size_mul sizeof_struct (to_int (Z.of_nat (length sp)))) s1)
      as (q & s2' & Hn & _ & Hq).
    rewrite Hn in H2. injection H2 as <- <-.
    apply bind_Ret_inv in H as ([] & s3 & H3 & H).
    apply store_footprint in H3 as (F3 & _ & L3 & T3).
    destruct q as [l|].
    + destruct Hq as (Hfresh & _ & Hh & Ht).
      apply bind_Ret_inv in H as ([] & s4 & H4 & H). injection H as <- <-.
      apply fromPaths64_points_footprint in H4 as (F4 & L4 & T4).
      apply not_elem_of_dom in Hfresh.
      assert (l <> il) as Hlil by (intros ->; rewrite Hfresh in L1; now destruct L1).
      assert (heap s3 !! l = Some (replicate
                (Z.to_nat (size_mul sizeof_struct (to_int (Z.of_nat (length sp)))
                           / sizeof_struct)) undef_cell)) as Hl3.
      { rewrite F3, Hh by auto. apply lookup_insert_eq. }
      repeat split.
      * intros l' Hl' Hne.
        assert (l' <> l) as Hne'.
        { intros ->. rewrite <- F1 in Hl' by auto. rewrite Hfresh in Hl'. now destruct Hl'. }
        rewrite F4, F3, Hh, lookup_insert_ne, F1; auto.
      * intros _. rewrite F4; auto.
      * exists [EvNew l (size_mul sizeof_struct (to_int (Z.of_nat (length sp))))].
        split; [congruence|]. constructor; [|constructor].
        eexists _, _. split; [reflexivity|]. split.
        -- rewrite <- F1; auto.
        -- apply L4. rewrite Hl3. eauto.
    + destruct Hq as (Hh & Ht). injection H as <- <-.
      repeat split.
      * intros l' _ Hne. rewrite F3, Hh, F1; auto.
      * auto.
      * exists []. split; [rewrite app_nil_r; congruence | constructor].
Qed.


Lemma fromPaths64_loop_footprint (src : Paths64) p il len rest :
  p <> il ->
  forall k i s ok s',
    heap s !! p = Some (handle_cell len (Some il) :: rest) ->
    fromPaths64_loop src (Some p) i k s = Ret ok s' ->
    footprint il s s'.
Proof.
  intros Hne. induction k as [|k IH]; intros i s ok s' Hp H; simpl in H.
  - injection H as <- <-. apply footprint_refl.
  - apply bind_Ret_inv in H as (ok1 & s1 & H1 & H).
    pose proof (fromPaths64_path_footprint _ _ _ _ _ _ _ _ _ Hp H1) as F1.
    destruct ok1.
    + eapply footprint_trans; [exact F1|].
      eapply IH; [|exact H].
      destruct F1 as (F & _). rewrite F; [exact Hp | rewrite Hp; eauto | auto].
    + injection H as <- <-. exact F1.
Qed.

Lemma fromPaths64_footprint (src : Paths64) p s ok s' :
  fromPaths64 src (Some p) s = Ret ok s' ->
  footprint p s s' /\
  exists c rest items,
    heap s !! p = Some (c :: rest) /\
    heap s' !! p = Some (handle_cell (to_int (Z.of_nat (length src))) items :: rest).
Proof.
  intros H. unfold fromPaths64 in H.
  set (len := to_int (Z.of_nat (length src))) in *.
  apply bind_Ret_inv in H as ([] & s1 & H1 & H).
  apply store_inv in H1 as (b & c & Hb & Hc & ->).
  destruct b as [|c0 rest]; [discriminate|]. injection Hc as ->.
  apply bind_Ret_inv in H as (items & s2 & H2 & H).
  destruct (new_nothrow_spec (size_mul sizeof_struct len)
              (mkState (<[p := <[0%nat := set_field f_len (VInt len) c]> (c :: rest)]> (heap s))
                       (oracle s) (trace s)))
    as (q & s2' & Hn & _ & Hq).
  rewrite Hn in H2. injection H2 as <- <-. simpl in Hq.
  apply bind_Ret_inv in H as ([] & s3 & H3 & H).
  apply store_inv in H3 as (b3 & c3 & Hb3 & Hc3 & ->).
  destruct q as [il|].
  - destruct Hq as (Hfresh & _ & Hh & Ht).
    apply not_elem_of_dom in Hfresh.
    assert (p <> il) as Hne.
    { intros ->. rewrite lookup_insert_eq in Hfresh. discriminate. }
    rewrite Hh, lookup_insert_ne, lookup_insert_eq in Hb3 by auto.
    injection Hb3 as <-. injection Hc3 as <-.
    rewrite lookup_insert_ne in Hfresh by auto.
    replace (negb (len =? 0) && is_null (Some il)) with false in H
      by (simpl; now rewrite andb_false_r).
    eapply (fromPaths64_loop_footprint src p il len rest Hne) in H.
    2:{ simpl. rewrite lookup_insert_eq. destruct c as [a d]. reflexivity. }
    assert (is_Some (heap s' !! il)) as Hlive.
    { apply H. simpl. rewrite lookup_insert_ne, Hh, lookup_insert_eq; eauto. }
    destruct H as (F & _ & news & T & A). simpl in F, T.
    assert (forall l, l <> p -> l <> il -> heap s' !! l = heap s !! l
                                 \/ (heap s !! l = None)) as Fr.
    { intros l Hlp Hlil. destruct (heap s !! l) eqn:El; [left|now right].
      rewrite F; auto.
      - rewrite lookup_insert_ne, Hh, !lookup_insert_ne, El; auto.
      - rewrite lookup_insert_ne, Hh, !lookup_insert_ne, El; eauto. }
    assert (heap s' !! p = Some ((set_field f_items (VPtr (Some il))
                                    (set_field f_len (VInt len) c)) :: rest)) as Hp'.
    { rewrite F; auto.
      - now rewrite lookup_insert_eq.
      - rewrite lookup_insert_eq. eauto. }
    split; [|exists c, rest, (Some il); split; [exact Hb|];
             rewrite Hp'; now destruct c].
    repeat split.
    + intros l Hl Hlp. destruct (decide (l = il)) as [->|Hlil].
      * rewrite Hfresh in Hl. now destruct Hl.
      * destruct (Fr l Hlp Hlil) as [|Hn']; [assumption|].
        rewrite Hn' in Hl. now destruct Hl.
    + intros _. rewrite Hp'. eauto.
    + exists (EvNew il (size_mul sizeof_struct len) :: news). split.
      * rewrite T, Ht. simpl. now rewrite <- app_assoc.
      * constructor.
        -- eexists _, _. repeat split; auto.
        -- eapply Forall_impl; [exact A|]. intros ev (l & bytes & -> & Hn' & Hl).
           simpl in Hn'. exists l, bytes. repeat split; auto.
           destruct (decide (l = p)) as [->|Hlp].
           { rewrite lookup_insert_eq in Hn'. discriminate. }
           rewrite lookup_insert_ne, Hh in Hn' by auto.
           destruct (decide (l = il)) as [->|Hlil]; [assumption|].
           now rewrite !lookup_insert_ne in Hn' by auto.
  - destruct Hq as (Hh & Ht).
    rewrite Hh, lookup_insert_eq in Hb3. injection Hb3 as <-. injection Hc3 as <-.
    assert (s' = mkState
                   (<[p := <[0%nat := set_field f_items (VPtr None)
                                       (set_field f_len (VInt len) c)]>
                             (<[0%nat := set_field f_len (VInt len) c]> (c :: rest))]>
                      (heap s2')) (oracle s2') (trace s2')) as ->.
    { destruct (Z.eqb_spec len 0) as [Hz|Hz]; simpl in H.
      - rewrite Hz in H |- *. simpl in H. now injection H as <- <-.
      - now injection H as <- <-. }
    simpl. split.
    + repeat split; simpl.
      * intros l _ Hlp. now rewrite lookup_insert_ne, Hh, lookup_insert_ne.
      * intros _. rewrite lookup_insert_eq. eauto.
      * exists []. split; [rewrite app_nil_r; congruence | constructor].
    + exists c, rest, None. split; [exact Hb|].
      rewrite lookup_insert_eq. now destruct c.
Qed.


(** ** Further properties of the export *)

(** X1. Whatever [fromPaths64] returns through a non-null handle, it never
    releases or changes a block that existed before the call other than the
    handle, whose length field holds [(int)src.size()] afterwards; it logs
    allocations only, and every block it allocated is still live on return:
    a failed export does not reclaim what it had allocated. *)
Theorem export_never_reclaims (src : Paths64) p s ok s' :
  fromPaths64 src (Some p) s = Ret ok s' ->
  (forall l, is_Some (heap s !! l) -> l <> p -> heap s' !! l = heap s !! l) /\
  (exists c rest items,
     heap s !! p = Some (c :: rest) /\
     heap s' !! p = Some (handle_cell (to_int (Z.of_nat (length src))) items :: rest)) /\
  (exists news, trace s' = trace s ++ news /\ Forall (allocated s s') news).
Proof.
  intros H. apply fromPaths64_footprint in H as ((F & _ & T) & Hp). auto.
Qed.

Lemma fromPaths64_nil_true p s ok s' :
  fromPaths64 [] (Some p) s = Ret ok s' -> ok = true.
Proof.
  intros H. unfold fromPaths64 in H.
  change (to_int (Z.of_nat (length (@nil Path64)))) with 0 in H.
  apply bind_Ret_inv in H as ([] & s1 & _ & H).
  apply bind_Ret_inv in H as (items & s2 & _ & H).
  apply bind_Ret_inv in H as ([] & s3 & _ & H).
  simpl in H. now injection H as <- _.
Qed.

(** X2. Through a writable handle the export of an empty collection
    succeeds whatever the allocator answers, leaving length 0; the export
    of any collection whose sizes fit [int] succeeds when the allocator
    grants every request. *)
Theorem export_succeeds (src : Paths64) p s :
  writable (heap s) p ->
  (exists s', fromPaths64 [] (Some p) s = Ret true s' /\
              heap_load (heap s') p 0 f_len = Some (VInt 0)) /\
  (all_granted (oracle s) -> fits_int src -> Forall fits_int src ->
   exists s', fromPaths64 src (Some p) s = Ret true s').
Proof.
  intros Hw. split.
  - destruct (fromPaths64_spec [] p s Hw) as (ok & s' & H & _).
    pose proof (fromPaths64_nil_true _ _ _ _ H) as ->.
    exists s'. split; [exact H|].
    apply fromPaths64_footprint in H as (_ & c & rest & items & _ & Hp').
    unfold heap_load. now rewrite Hp'.
  - intros Hg Hf Hfs.
    destruct (fromPaths64_spec src p s Hw) as (ok & s' & H & _ & Hok & _).
    destruct (Hok Hg) as (_ & Hok'). rewrite (Hok' Hf Hfs) in H. eauto.
Qed.

(** X3. After a successful export the handle denotes a valid path set,
    the exported collection cut to what its [int] lengths can express;
    importing that handle gives the same collection back, or
    [std::bad_alloc], and changes no memory.  When the sizes fit [int]
    nothing is cut. *)
Theorem import_after_export (src : Paths64) p s s1 :
  fromPaths64 src (Some p) s = Ret true s1 ->
  wire_paths true (heap s1) (Some p) = Some (exported_paths src) /\
  imports s1 (exported_paths src) (toPaths64 (Some p) s1) /\
  (all_granted (oracle s1) ->
   exists s2, toPaths64 (Some p) s1 = Ret (exported_paths src) s2 /\ heap s2 = heap s1) /\
  (fits_int src -> Forall fits_int src -> exported_paths src = src).
Proof.
  intros H. apply fromPaths64_post, export_post_wire_paths in H.
  pose proof (wire_paths_exact_lenient _ _ _ H) as Hl.
  repeat split.
  - exact H.
  - now apply toPaths64_spec.
  - intros Hg. destruct (toPaths64_granted _ _ _ Hl Hg) as (s2 & H2 & Hm & _).
    eauto.
  - apply exported_paths_fits.
Qed.


(** ** Further properties of the release *)

Lemma releasable_owned h p len items bufs :
  releasable h p len items bufs ->
  NoDup (owned_blocks items bufs) /\ p ∉ owned_blocks items bufs.
Proof.
  intros [_ Hitems]. unfold owned_blocks. destruct items as [il|]; simpl.
  - destruct Hitems as (_ & _ & Hnd).
    apply NoDup_cons in Hnd as [Hp Hnd]. pose proof Hnd as Hnd'.
    apply NoDup_cons in Hnd' as [Hil Hbufs]. split.
    + apply NoDup_app. repeat split; auto.
      * intros l Hl Hl'. apply list_elem_of_singleton in Hl' as ->. contradiction.
      * apply NoDup_singleton.
    + intros H. apply elem_of_app in H as [H|H].
      * apply Hp. now right.
      * apply list_elem_of_singleton in H as ->. apply Hp. left.
  - destruct Hitems as [_ ->]. simpl. split; [constructor|]. apply not_elem_of_nil.
Qed.

Lemma provenance_deletes l ls :
  forall b, foldl (provenance_step l) b (EvDelete <$> ls)
            = if decide (l ∈ ls) then false else b.
Proof.
  induction ls as [|x ls IH]; intros b; simpl.
  - destruct (decide (l ∈ [])) as [H|_]; [|reflexivity]. now apply elem_of_nil in H.
  - rewrite IH. destruct (decide (x = l)) as [->|Hne].
    + destruct (decide (l ∈ l :: ls)) as [_|Hn]; [now destruct (decide (l ∈ ls))|].
      exfalso. apply Hn. left.
    + destruct (decide (l ∈ ls)) as [Hin|Hnin];
        destruct (decide (l ∈ x :: ls)) as [Hin'|Hnin']; try reflexivity.
      * exfalso. apply Hnin'. now right.
      * apply elem_of_cons in Hin' as [->|Hin']; contradiction.
Qed.

Lemma from_new_deletes tr ls l :
  from_new (tr ++ (EvDelete <$> ls)) l = if decide (l ∈ ls) then false else from_new tr l.
Proof. unfold from_new. rewrite foldl_app. apply provenance_deletes. Qed.

(** X4. Releasing a handle that satisfies the data model and whose blocks
    all came from [operator new[]] and were not released since, whether or
    not one export wrote it, releases exactly the blocks it owns, each once
    and the point buffers before the path array, resets only the two fields
    of the handle, asks the allocator for nothing, and leaves every other
    block as it was; afterwards none of the released blocks counts as
    allocated, and the standing of every other block is unchanged. *)
Theorem release_frees_exactly_owned s p len items bufs :
  releasable (heap s) p len items bufs ->
  (forall l, l ∈ owned_blocks items bufs -> from_new (trace s) l = true) ->
  exists s',
    clipper2c_free_paths (Some p) s = Ret tt s' /\
    (forall l, l ∈ owned_blocks items bufs ->
               heap s' !! l = None /\ from_new (trace s') l = false) /\
    (forall l, l ∉ owned_blocks items bufs ->
               from_new (trace s') l = from_new (trace s) l /\
               (l <> p -> heap s' !! l = heap s !! l)) /\
    (exists rest, heap s !! p = Some (handle_cell len items :: rest) /\
                  heap s' !! p = Some (handle_cell 0 None :: rest)) /\
    trace s' = trace s ++ (EvDelete <$> omap id bufs) ++ (EvDelete <$> omap id [items]) /\
    NoDup (owned_blocks items bufs) /\
    oracle s' = oracle s.
Proof.
  intros Hr _. pose proof (clipper2c_free_paths_spec _ _ _ _ _ Hr) as Hfree.
  destruct (releasable_owned _ _ _ _ _ Hr) as [Hnd Hp].
  destruct Hr as [(rest & Hh) _].
  assert (set_handle (delete_all (owned_blocks items bufs) (heap s)) p 0 None
          = <[p := handle_cell 0 None :: rest]>
              (delete_all (owned_blocks items bufs) (heap s))) as Hset.
  { unfold set_handle. now rewrite delete_all_lookup_notin, Hh. }
  rewrite Hset in Hfree. eexists. split; [exact Hfree|]. simpl.
  split; [|split; [|split; [|split; [|split]]]]; auto.
  - intros l Hl. split.
    + rewrite lookup_insert_ne by (intros ->; contradiction).
      now apply delete_all_lookup_in.
    + rewrite from_new_deletes. now destruct (decide (l ∈ owned_blocks items bufs)).
  - intros l Hl. split.
    + rewrite from_new_deletes. now destruct (decide (l ∈ owned_blocks items bufs)).
    + intros Hne. rewrite lookup_insert_ne by auto.
      now apply delete_all_lookup_notin.
  - exists rest. split; [exact Hh|]. apply lookup_insert_eq.
  - unfold owned_blocks. now rewrite fmap_app.
Qed.

(** X5. After a handle has been released, a second handle that still
    holds a copy of its fields is stale: releasing through it is undefined
    behaviour (a double free), and importing through it never returns a
    result when its length is positive. *)
Theorem stale_handle_undefined s p q len il bufs rest :
  releasable (heap s) p len (Some il) bufs ->
  q <> p -> q ∉ owned_blocks (Some il) bufs ->
  heap s !! q = Some (handle_cell len (Some il) :: rest) ->
  exists s1,
    clipper2c_free_paths (Some p) s = Ret tt s1 /\
    clipper2c_free_paths (Some q) s1 = Fault /\
    (0 < len -> forall ps s2, toPaths64 (Some q) s1 <> Ret ps s2).
Proof.
  intros Hr Hqp Hq Hhq.
  pose proof (clipper2c_free_paths_spec _ _ _ _ _ Hr) as Hfree.
  destruct (releasable_owned _ _ _ _ _ Hr) as [_ Hp].
  pose proof Hr as [(rest0 & Hh) _].
  eexists. split; [exact Hfree|].
  match goal with |- context [clipper2c_free_paths _ ?st] => set (s1 := st) end.
  assert (heap s1 !! q = Some (handle_cell len (Some il) :: rest)) as Hq1.
  { subst s1. simpl. unfold set_handle.
    rewrite delete_all_lookup_notin, Hh by exact Hp.
    rewrite lookup_insert_ne by auto. now rewrite delete_all_lookup_notin. }
  assert (heap s1 !! il = None) as Hil1.
  { subst s1. simpl. unfold set_handle.
    rewrite delete_all_lookup_notin, Hh by exact Hp.
    assert (il ∈ owned_blocks (Some il) bufs) as Hin.
    { unfold owned_blocks. apply elem_of_app. right. simpl. left. }
    rewrite lookup_insert_ne by (intros ->; contradiction).
    now apply delete_all_lookup_in. }
  clearbody s1. split.
  - unfold clipper2c_free_paths.
    rewrite (bind_Ret _ _ _ _ _ (load_handle_items _ _ _ _ _ Hq1)).
    rewrite (bind_Ret _ _ _ _ _ (load_handle_len _ _ _ _ _ Hq1)).
    destruct (Z.to_nat len) as [|n]; simpl.
    + unfold bind at 1. simpl.
      rewrite (bind_Ret _ _ _ _ _ (load_handle_items _ _ _ _ _ Hq1)).
      unfold bind, delete_ptr, operator_delete. now rewrite Hil1.
    + unfold bind at 1.
      rewrite (bind_Ret _ _ _ _ _ (load_handle_items _ _ _ _ _ Hq1)).
      unfold load_ptr, bind, load, heap_load. now rewrite Hil1.
  - intros Hlen ps s2. unfold toPaths64.
    rewrite (bind_Ret _ _ _ _ _ (load_handle_len _ _ _ _ _ Hq1)).
    destruct (Z.leb_spec len 0) as [|_]; [lia|].
    destruct (vector_reserve_spec len s1) as [(s' & Hv & Hm & _)|(s' & Hv & _)].
    + rewrite (bind_Ret _ _ _ _ _ Hv).
      destruct (Z.to_nat len) as [|n] eqn:En; [lia|]. simpl.
      rewrite <- Hm in Hq1, Hil1.
      rewrite (bind_Ret _ _ _ _ _ (load_handle_items _ _ _ _ _ Hq1)).
      unfold toPaths64_path, load_int, load, heap_load, bind. now rewrite Hil1.
    + now rewrite (bind_Throw _ _ _ _ _ Hv).
Qed.


(** ** Further properties of the import *)

Lemma throws_only_never {A} e0 (m : M A) : never_throws m -> throws_only e0 m.
Proof. intros H s e s' Hm. now apply H in Hm. Qed.

Lemma throws_only_bind {A B} e0 (m : M A) (k : A -> M B) :
  throws_only e0 m -> (forall a, throws_only e0 (k a)) -> throws_only e0 (bind m k).
Proof.
  intros Hm Hk s e s' H. apply bind_Throw_inv in H as [H|(a & s1 & _ & H)].
  - eapply Hm, H.
  - eapply Hk, H.
Qed.

Lemma throws_only_load_int e0 p i f : throws_only e0 (load_int p i f).
Proof.
  apply throws_only_bind; [apply throws_only_never, never_throws_load|].
  intros []; apply throws_only_never; [apply never_throws_ret | apply never_throws_fault].
Qed.

Lemma throws_only_vector_reserve n : throws_only std_bad_alloc (vector_reserve n).
Proof.
  intros s e s' H. unfold vector_reserve in H.
  destruct (next_verdict (oracle s)) as [[] o']; [discriminate|]. now injection H as <- _.
Qed.

Lemma throws_only_toPaths64_points pts n :
  forall j p, throws_only std_bad_alloc (toPaths64_points pts j n p).
Proof.
  induction n as [|n IH]; intros j p; simpl.
  - apply throws_only_never, never_throws_ret.
  - apply throws_only_bind; [apply throws_only_load_int|]. intros x.
    apply throws_only_bind; [apply throws_only_load_int|]. intros y. apply IH.
Qed.

Lemma throws_only_toPaths64_path items i :
  throws_only std_bad_alloc (toPaths64_path items i).
Proof.
  unfold toPaths64_path.
  apply throws_only_bind; [apply throws_only_load_int|]. intros len.
  destruct (0 <? len); [|apply throws_only_never, never_throws_ret].
  apply throws_only_bind; [apply throws_only_never, never_throws_load_ptr|].
  intros [l|]; [|apply throws_only_never, never_throws_ret].
  apply throws_only_bind; [apply throws_only_vector_reserve|]. intros _.
  apply throws_only_toPaths64_points.
Qed.

Lemma throws_only_toPaths64_loop cp n :
  forall i out, throws_only std_bad_alloc (toPaths64_loop cp i n out).
Proof.
  induction n as [|n IH]; intros i out; simpl.
  - apply throws_only_never, never_throws_ret.
  - apply throws_only_bind; [apply throws_only_never, never_throws_load_ptr|].
    intros items.
    apply throws_only_bind; [apply throws_only_toPaths64_path|]. intros p. apply IH.
Qed.

Lemma throws_only_toPaths64 cp : throws_only std_bad_alloc (toPaths64 cp).
Proof.
  unfold toPaths64. destruct cp as [p|]; [|apply throws_only_never, never_throws_ret].
  apply throws_only_bind; [apply throws_only_load_int|]. intros len.
  destruct (len <=? 0); [apply throws_only_never, never_throws_ret|].
  apply throws_only_bind; [apply throws_only_vector_reserve|]. intros _.
  apply throws_only_toPaths64_loop.
Qed.

Lemma toPaths64_loop_length cp :
  forall n i (acc ps : Paths64) s s',
    toPaths64_loop cp i n acc s = Ret ps s' -> length ps = (length acc + n)%nat.
Proof.
  induction n as [|n IH]; intros i acc ps s s' H; simpl in H.
  - injection H as <- _. lia.
  - apply bind_Ret_inv in H as (items & s1 & _ & H).
    apply bind_Ret_inv in H as (p & s2 & _ & H).
    apply IH in H. rewrite H, length_app. simpl. lia.
Qed.

(** X6. On every input, valid or not, [toPaths64] changes neither the
    memory nor the trace: it writes to no buffer, allocates and releases no
    block of the heap and calls no engine function.  The only exception it
    raises is [std::bad_alloc], and when it returns, the number of paths is
    the length field of the handle, or 0 when that is negative. *)
Theorem import_reads_only cp s :
  match toPaths64 cp s with
  | Ret ps s' =>
      heap s' = heap s /\ trace s' = trace s /\
      forall p len, cp = Some p -> heap_load (heap s) p 0 f_len = Some (VInt len) ->
                    Z.of_nat (length ps) = Z.max 0 len
  | Throw e s' => e = std_bad_alloc /\ heap s' = heap s /\ trace s' = trace s
  | Fault => True
  end.
Proof.
  pose proof (reads_only_toPaths64 cp s) as Hro.
  destruct (toPaths64 cp s) as [ps s'|e s'|] eqn:H; [| |exact I].
  - destruct Hro as [Hh Ht]. repeat split; auto.
    intros p len -> Hlen. unfold toPaths64 in H.
    assert (load_int (Some p) 0 f_len s = Ret len s) as Hl
        by (unfold load_int, load, bind; now rewrite Hlen).
    rewrite (bind_Ret _ _ _ _ _ Hl) in H.
    destruct (Z.leb_spec len 0) as [Hle|Hgt].
    + injection H as <- _. simpl. lia.
    + apply bind_Ret_inv in H as ([] & s1 & _ & H).
      apply toPaths64_loop_length in H. rewrite H. simpl. lia.
  - destruct Hro as [Hh Ht]. repeat split; auto.
    eapply throws_only_toPaths64, H.
Qed.


(** ** Decoding of the enumerations *)

(** X7. The four declared clip types and fill rules are decoded to the
    engine values of the same name; with any other integer the Boolean
    operation behaves exactly as with [C_CLIP_INTERSECTION], respectively
    [C_FILL_EVENODD]: an unknown value is no error. *)
Theorem cliptype_fillrule_decoding :
  (toCT C_CLIP_INTERSECTION = CT_Intersection /\ toCT C_CLIP_UNION = CT_Union /\
   toCT C_CLIP_DIFFERENCE = CT_Difference /\ toCT C_CLIP_XOR = CT_Xor) /\
  (toFR C_FILL_EVENODD = FR_EvenOdd /\ toFR C_FILL_NONZERO = FR_NonZero /\
   toFR C_FILL_POSITIVE = FR_Positive /\ toFR C_FILL_NEGATIVE = FR_Negative) /\
  (forall ct fr a b c oc oo s,
     ~ (0 <= ct <= 3) ->
     clipper2c_boolean64 ct fr a b c oc oo s
     = clipper2c_boolean64 C_CLIP_INTERSECTION fr a b c oc oo s) /\
  (forall ct fr a b c oc oo s,
     ~ (0 <= fr <= 3) ->
     clipper2c_boolean64 ct fr a b c oc oo s
     = clipper2c_boolean64 ct C_FILL_EVENODD a b c oc oo s).
Proof.
  split; [repeat split|]. split; [repeat split|]. split.
  - intros ct fr a b c oc oo s Hct.
    assert (toCT ct = toCT C_CLIP_INTERSECTION) as Heq.
    { unfold toCT, C_CLIP_UNION, C_CLIP_DIFFERENCE, C_CLIP_XOR, C_CLIP_INTERSECTION.
      destruct (Z.eqb_spec ct 1); [lia|]. destruct (Z.eqb_spec ct 2); [lia|].
      destruct (Z.eqb_spec ct 3); [lia|]. destruct (Z.eqb_spec ct 0); [lia|].
      reflexivity. }
    unfold clipper2c_boolean64, boolean64_compute, boolean64_solve.
    now rewrite Heq.
  - intros ct fr a b c oc oo s Hfr.
    assert (toFR fr = toFR C_FILL_EVENODD) as Heq.
    { unfold toFR, C_FILL_NONZERO, C_FILL_POSITIVE, C_FILL_NEGATIVE, C_FILL_EVENODD.
      destruct (Z.eqb_spec fr 1); [lia|]. destruct (Z.eqb_spec fr 2); [lia|].
      destruct (Z.eqb_spec fr 3); [lia|]. destruct (Z.eqb_spec fr 0); [lia|].
      reflexivity. }
    unfold clipper2c_boolean64, boolean64_compute, boolean64_solve.
    now rewrite Heq.
Qed.

(** X8. Any integer outside the declared end types is decoded to
    [EndType::Polygon], and any integer that is neither a declared join
    type nor [C_JOIN_BEVEL] to [JoinType::Square]; the offset operation
    then behaves exactly as with [C_END_POLYGON], respectively
    [C_JOIN_SQUARE].  When [C_END_POLYGON] is none of the four declared
    values, these are decoded to Butt, Square, Round and Joined, never to
    Polygon. *)
Theorem offset_style_decoding :
  (forall et, ~ (0 <= et <= 3) -> toET C_END_POLYGON et = ET_Polygon) /\
  (forall jt, ~ (0 <= jt <= 2) -> jt <> C_JOIN_BEVEL -> toJT C_JOIN_BEVEL jt = JT_Square) /\
  (forall paths delta jt et miter_limit arc_tolerance out s,
     ~ (0 <= et <= 3) ->
     clipper2c_offset64 C_JOIN_BEVEL C_END_POLYGON paths delta jt et
       miter_limit arc_tolerance out s
     = clipper2c_offset64 C_JOIN_BEVEL C_END_POLYGON paths delta jt C_END_POLYGON
         miter_limit arc_tolerance out s) /\
  (forall paths delta jt et miter_limit arc_tolerance out s,
     ~ (0 <= jt <= 2) -> jt <> C_JOIN_BEVEL ->
     clipper2c_offset64 C_JOIN_BEVEL C_END_POLYGON paths delta jt et
       miter_limit arc_tolerance out s
     = clipper2c_offset64 C_JOIN_BEVEL C_END_POLYGON paths delta C_JOIN_SQUARE et
         miter_limit arc_tolerance out s) /\
  (~ (0 <= C_END_POLYGON <= 3) ->
   toET C_END_POLYGON C_END_BUTT = ET_Butt /\
   toET C_END_POLYGON C_END_SQUARE = ET_Square /\
   toET C_END_POLYGON C_END_ROUND = ET_Round /\
   toET C_END_POLYGON C_END_JOINED = ET_Joined /\
   forall et, 0 <= et <= 3 -> toET C_END_POLYGON et <> ET_Polygon).
Proof.
  assert (forall et, ~ (0 <= et <= 3) -> toET C_END_POLYGON et = ET_Polygon) as HET.
  { intros et Het. unfold toET, C_END_JOINED, C_END_BUTT, C_END_SQUARE, C_END_ROUND.
    destruct (et =? C_END_POLYGON); [reflexivity|].
    destruct (Z.eqb_spec et 3); [lia|]. destruct (Z.eqb_spec et 0); [lia|].
    destruct (Z.eqb_spec et 1); [lia|]. destruct (Z.eqb_spec et 2); [lia|].
    reflexivity. }
  assert (forall jt, ~ (0 <= jt <= 2) -> jt <> C_JOIN_BEVEL ->
                     toJT C_JOIN_BEVEL jt = JT_Square) as HJT.
  { intros jt Hjt Hb. unfold toJT, C_JOIN_SQUARE, C_JOIN_ROUND, C_JOIN_MITER.
    destruct (Z.eqb_spec jt 0); [lia|]. destruct (Z.eqb_spec jt C_JOIN_BEVEL); [lia|].
    destruct (Z.eqb_spec jt 1); [lia|]. destruct (Z.eqb_spec jt 2); [lia|].
    reflexivity. }
  split; [exact HET|]. split; [exact HJT|]. split; [|split].
  - intros paths delta jt et ml at' out s Het.
    assert (toET C_END_POLYGON et = toET C_END_POLYGON C_END_POLYGON) as Heq.
    { rewrite HET by exact Het. unfold toET. now rewrite Z.eqb_refl. }
    unfold clipper2c_offset64. now rewrite Heq.
  - intros paths delta jt et ml at' out s Hjt Hb.
    assert (toJT C_JOIN_BEVEL jt = toJT C_JOIN_BEVEL C_JOIN_SQUARE) as Heq.
    { rewrite HJT by assumption. reflexivity. }
    unfold clipper2c_offset64. now rewrite Heq.
  - intros Hpoly.
    unfold toET, C_END_JOINED, C_END_BUTT, C_END_SQUARE, C_END_ROUND.
    destruct (Z.eqb_spec 0 C_END_POLYGON); [lia|].
    destruct (Z.eqb_spec 1 C_END_POLYGON); [lia|].
    destruct (Z.eqb_spec 2 C_END_POLYGON); [lia|].
    destruct (Z.eqb_spec 3 C_END_POLYGON); [lia|].
    repeat split. intros et Het.
    destruct (Z.eqb_spec et C_END_POLYGON); [lia|].
    destruct (Z.eqb_spec et 3); [discriminate|]. destruct (Z.eqb_spec et 0); [discriminate|].
    destruct (Z.eqb_spec et 1); [discriminate|]. destruct (Z.eqb_spec et 2); [discriminate|].
    lia.
Qed.

(** X9. The offset operation hands the imported paths, the distance, the
    decoded join and end types, the miter limit and the arc tolerance to
    [InflatePaths] unchanged, in one call.  If the engine raises an
    exception the status is 1 and nothing but that call has happened;
    otherwise the result is exported, with status 0 and a populated handle
    when the export succeeds and status 2 when it fails. *)
Theorem offset64_passes_arguments paths delta (jt et : Z) miter_limit arc_tolerance
  out s inp s1 :
  toPaths64 paths s = Ret inp s1 ->
  writable_or_null (heap s) out ->
  let jt' := toJT C_JOIN_BEVEL jt in
  let et' := toET C_END_POLYGON et in
  let ev := EvInflatePaths inp delta jt' et' miter_limit arc_tolerance in
  let call := clipper2c_offset64 C_JOIN_BEVEL C_END_POLYGON paths delta jt et
                miter_limit arc_tolerance out in
  match InflatePaths inp delta jt' et' miter_limit arc_tolerance with
  | inl _ => call s = Ret 1 (with_trace s1 [ev])
  | inr res =>
      exists (ok : bool) s',
        call s = Ret (if ok then 0 else 2) s' /\
        fromPaths64 res out (with_trace s1 [ev]) = Ret ok s' /\
        engine_events (trace s') = engine_events (trace s) ++ [ev] /\
        (ok = true -> forall p, out = Some p ->
           exists items bufs, populated (heap s') p (exported_paths res) items bufs)
  end.
Proof.
  intros Hin Hout.
  exact (unary_dispatch_run paths out
           (fun inp => EvInflatePaths inp delta (toJT C_JOIN_BEVEL jt)
                         (toET C_END_POLYGON et) miter_limit arc_tolerance)
           (fun inp => InflatePaths inp delta (toJT C_JOIN_BEVEL jt)
                         (toET C_END_POLYGON et) miter_limit arc_tolerance) s inp s1
           (fun _ => eq_refl) Hin Hout).
Qed.


(** ** What the operations do to the caller's memory *)

Lemma caller_memory_kept_trans outs s1 s2 s3 :
  caller_memory_kept outs s1 s2 -> caller_memory_kept outs s2 s3 ->
  caller_memory_kept outs s1 s3.
Proof.
  intros (F1 & L1 & evs1 & T1 & D1) (F2 & L2 & evs2 & T2 & D2). repeat split.
  - intros l Hl Hout. rewrite F2, F1; auto.
  - auto.
  - exists (evs1 ++ evs2). split; [rewrite T2, T1; now rewrite app_assoc|].
    apply Forall_app. now split.
Qed.

Lemma caller_memory_kept_weaken outs outs' s s' :
  (forall o, o ∈ outs -> o ∈ outs') ->
  caller_memory_kept outs s s' -> caller_memory_kept outs' s s'.
Proof.
  intros Hsub (F & L & T). repeat split; auto.
Qed.

Lemma caller_memory_kept_same outs s s' evs :
  heap s' = heap s -> trace s' = trace s ++ evs ->
  Forall (fun ev => is_engine_event ev = true) evs ->
  caller_memory_kept outs s s'.
Proof.
  intros Hh Ht Hev. repeat split.
  - intros l _ _. now rewrite Hh.
  - intros l. now rewrite Hh.
  - exists evs. split; [exact Ht|]. eapply Forall_impl; [exact Hev|].
    intros []; simpl; congruence.
Qed.

Lemma fromPaths64_kept (src : Paths64) out s ok s' :
  fromPaths64 src out s = Ret ok s' -> caller_memory_kept [out] s s'.
Proof.
  intros H. destruct out as [p|].
  - pose proof (fromPaths64_footprint _ _ _ _ _ H) as (Hf & _).
    pose proof (fun l => footprint_live _ _ _ l Hf) as Live.
    destruct Hf as (F & _ & news & T & A). repeat split; auto.
    + intros l Hl Hout. apply F; auto. intros ->. apply Hout. left.
    + exists news. split; [exact T|]. eapply Forall_impl; [exact A|].
      now intros ev (l & b & -> & _).
  - injection H as _ <-.
    apply (caller_memory_kept_same _ _ _ []); auto. now rewrite app_nil_r.
Qed.

Lemma export_failed_kept (sol : Paths64) out s failed s' :
  export_failed sol out s = Ret failed s' -> caller_memory_kept [out] s s'.
Proof.
  intros [(-> & _ & ->)|(p & -> & H)]%export_failed_inv.
  - apply (caller_memory_kept_same _ _ _ []); auto. now rewrite app_nil_r.
  - eapply fromPaths64_kept, H.
Qed.

Lemma unary_dispatch_kept (in_paths out_paths : ptr) (ev : Paths64 -> event)
  (f : Paths64 -> exn + Paths64) s st s' :
  (forall ps, is_engine_event (ev ps) = true) ->
  try_catch_all
    (do inp <- toPaths64 in_paths ;
     do out <- call_engine (ev inp) (f inp) ;
     do ok <- fromPaths64 out out_paths ;
     if negb ok then ret 2 else ret 0) 1 s = Ret st s' ->
  caller_memory_kept [out_paths] s s' /\
  (st = 1 -> heap s' = heap s /\
             exists evs, trace s' = trace s ++ evs /\
                         Forall (fun ev => is_engine_event ev = true) evs).
Proof.
  intros Hev [(-> & e & Hin)|(inp & s1 & Hin & H)]%unary_dispatch_inv.
  - apply toPaths64_Throw_memory in Hin as [Hh Ht].
    assert (trace s' = trace s ++ []) as Ht' by now rewrite app_nil_r.
    split; [apply (caller_memory_kept_same _ _ _ [] Hh Ht'); constructor|].
    intros _. split; [exact Hh|]. exists []. split; [exact Ht'|constructor].
  - apply toPaths64_Ret_memory in Hin as [Hh Ht].
    assert (caller_memory_kept [out_paths] s (with_trace s1 [ev inp])) as K1.
    { apply (caller_memory_kept_same _ _ _ [ev inp]); simpl; auto; congruence. }
    destruct (f inp) as [e|res].
    + destruct H as [-> ->]. split; [exact K1|]. intros _. split; [exact Hh|].
      exists [ev inp]. simpl. split; [congruence|]. auto.
    + destruct H as (ok & Hex & ->). split.
      * eapply caller_memory_kept_trans; [exact K1|]. eapply fromPaths64_kept, Hex.
      * destruct ok; discriminate.
Qed.

(** X10. Status 1 means that nothing was written: when one of the three
    operations returns 1, the heap is exactly as before the call, whatever
    the output pointers are, and the trace gained engine calls only. *)
Theorem status_1_leaves_memory :
  (forall (ct fr : Z) a b c oc oo s s',
     clipper2c_boolean64 ct fr a b c oc oo s = Ret 1 s' ->
     heap s' = heap s /\
     exists evs, trace s' = trace s ++ evs /\
                 Forall (fun ev => is_engine_event ev = true) evs) /\
  (forall paths delta (jt et : Z) miter_limit arc_tolerance out s s',
     clipper2c_offset64 C_JOIN_BEVEL C_END_POLYGON paths delta jt et
       miter_limit arc_tolerance out s = Ret 1 s' ->
     heap s' = heap s /\
     exists evs, trace s' = trace s ++ evs /\
                 Forall (fun ev => is_engine_event ev = true) evs) /\
  (forall (l t r b : Z) in_paths out s s',
     clipper2c_rectclip64 l t r b in_paths out s = Ret 1 s' ->
     heap s' = heap s /\
     exists evs, trace s' = trace s ++ evs /\
                 Forall (fun ev => is_engine_event ev = true) evs).
Proof.
  split; [|split].
  - intros ct fr a b c oc oo s s' [(_ & e & H)|(sols & s1 & _ & H)]%boolean64_inv.
    + pose proof (leaves_heap_boolean64_compute ct fr a b c s) as Hl.
      now rewrite H in Hl.
    + apply boolean64_export_inv in H as (f1 & s2 & _ & H).
      destruct f1; [now destruct H|]. destruct H as ([] & _ & H); discriminate.
  - intros paths delta jt et ml at' out s s' H.
    eapply (unary_dispatch_kept paths out
              (fun inp => EvInflatePaths inp delta (toJT C_JOIN_BEVEL jt)
                            (toET C_END_POLYGON et) ml at')) in H as [_ H]; auto.
  - intros l t r b in_paths out s s' H.
    eapply (unary_dispatch_kept in_paths out
              (fun inp => EvRectClip (mkRect64 l t r b) inp)) in H as [_ H]; auto.
Qed.

(** X11. Whatever status they return, the three operations leave every
    block of the caller other than the output handles as it was, inputs
    included, and release nothing: every block that existed is still live
    and the trace gained no release. *)
Theorem operations_keep_caller_memory :
  (forall (ct fr : Z) a b c oc oo s st s',
     clipper2c_boolean64 ct fr a b c oc oo s = Ret st s' ->
     caller_memory_kept [oc; oo] s s') /\
  (forall paths delta (jt et : Z) miter_limit arc_tolerance out s st s',
     clipper2c_offset64 C_JOIN_BEVEL C_END_POLYGON paths delta jt et
       miter_limit arc_tolerance out s = Ret st s' ->
     caller_memory_kept [out] s s') /\
  (forall (l t r b : Z) in_paths out s st s',
     clipper2c_rectclip64 l t r b in_paths out s = Ret st s' ->
     caller_memory_kept [out] s s').
Proof.
  split; [|split].
  - intros ct fr a b c oc oo s st s' [(_ & e & H)|(sols & s1 & Hc & H)]%boolean64_inv.
    + pose proof (leaves_heap_boolean64_compute ct fr a b c s) as Hl.
      rewrite H in Hl. destruct Hl as (Hh & evs & Ht & Hev).
      now apply (caller_memory_kept_same _ _ _ evs).
    + pose proof (leaves_heap_boolean64_compute ct fr a b c s) as Hl.
      rewrite Hc in Hl. destruct Hl as (Hh & evs & Ht & Hev).
      eapply caller_memory_kept_trans;
        [now apply (caller_memory_kept_same _ _ _ evs Hh Ht)|].
      apply boolean64_export_inv in H as (f1 & s2 & H1 & H).
      apply export_failed_kept in H1.
      assert (caller_memory_kept [oc; oo] s1 s2) as K1.
      { eapply caller_memory_kept_weaken; [|exact H1].
        intros o Ho. apply list_elem_of_singleton in Ho as ->. left. }
      destruct f1; [now destruct H as [_ ->]|].
      destruct H as (f2 & H2 & _). apply export_failed_kept in H2.
      eapply caller_memory_kept_trans; [exact K1|].
      eapply caller_memory_kept_weaken; [|exact H2].
      intros o Ho. apply list_elem_of_singleton in Ho as ->. right. left.
  - intros paths delta jt et ml at' out s st s' H.
    eapply (unary_dispatch_kept paths out
              (fun inp => EvInflatePaths inp delta (toJT C_JOIN_BEVEL jt)
                            (toET C_END_POLYGON et) ml at')) in H as [H _]; auto.
  - intros l t r b in_paths out s st s' H.
    eapply (unary_dispatch_kept in_paths out
              (fun inp => EvRectClip (mkRect64 l t r b) inp)) in H as [H _]; auto.
Qed.


(** X12. Status 2 of the Boolean operation means that the export of the
    closed solution failed and the open output was not attempted: only
    [out_closed] may have been written.  Status 3 means that the export of
    the open solution failed after the closed one had succeeded: a closed
    handle distinct from the open one is then fully populated with the
    closed solution, and still owns its blocks. *)
Theorem boolean64_partial_outputs (ct fr : Z) a b c oc oo s s' :
  (clipper2c_boolean64 ct fr a b c oc oo s = Ret 2 s' ->
   caller_memory_kept [oc] s s' /\
   exists sol solOpen s1 p,
     boolean64_compute ct fr a b c s = Ret (sol, solOpen) s1 /\
     oc = Some p /\ fromPaths64 sol (Some p) s1 = Ret false s') /\
  (clipper2c_boolean64 ct fr a b c oc oo s = Ret 3 s' ->
   writable_or_null (heap s) oo ->
   exists sol solOpen s1 s2 q,
     boolean64_compute ct fr a b c s = Ret (sol, solOpen) s1 /\
     oo = Some q /\ fromPaths64 solOpen (Some q) s2 = Ret false s' /\
     forall p, oc = Some p -> oo <> Some p ->
       exists items bufs, populated (heap s') p (exported_paths sol) items bufs).
Proof.
  split.
  - intros [([=] & _)|([sol solOpen] & s1 & Hc & H)]%boolean64_inv.
    pose proof (leaves_heap_boolean64_compute ct fr a b c s) as Hl.
    rewrite Hc in Hl. destruct Hl as (Hh & evs & Ht & Hev).
    apply boolean64_export_inv in H as (f1 & s2 & H1 & H). cbn [fst snd] in *.
    destruct f1; [destruct H as [_ ->]|destruct H as ([] & _ & [=])].
    split.
    + eapply caller_memory_kept_trans;
        [now apply (caller_memory_kept_same _ _ _ evs Hh Ht)|].
      eapply export_failed_kept, H1.
    + apply export_failed_inv in H1 as [(_ & [=] & _)|(p & -> & H1)].
      exists sol, solOpen, s1, p. auto.
  - intros [([=] & _)|([sol solOpen] & s1 & Hc & H)]%boolean64_inv Hoo.
    pose proof (leaves_heap_boolean64_compute ct fr a b c s) as Hl.
    rewrite Hc in Hl. destruct Hl as (Hh & _).
    apply boolean64_export_inv in H as (f1 & s2 & H1 & H). cbn [fst snd] in *.
    destruct f1; [now destruct H|]. destruct H as (f2 & H2 & Hst).
    destruct f2; [|discriminate].
    apply export_failed_inv in H2 as [(_ & [=] & _)|(q & -> & H2)].
    exists sol, solOpen, s1, s2, q. repeat split; auto.
    intros p -> Hne.
    apply export_failed_inv in H1 as [([=] & _)|(p' & [= <-] & H1)].
    destruct (fromPaths64_post _ _ _ _ H1) as (items & bufs & Hpop & Hfresh & _).
    exists items, bufs.
    apply fromPaths64_footprint in H2 as ((F & _) & _).
    apply (populated_frame (heap s2)); [exact Hpop|].
    intros l Hl. apply F.
    + now apply (populated_live _ _ _ _ _ _ Hpop).
    + destruct Hl as [->|Hl]; [congruence|].
      intros ->. apply Hfresh in Hl. apply Hl. apply elem_of_dom. rewrite Hh.
      destruct Hoo as (c0 & rest & Hq). rewrite Hq. eauto.
Qed.


(** ** Empty inputs *)

Lemma toPaths64_empty s cp :
  wire_paths false (heap s) cp = Some [] -> toPaths64 cp s = Ret [] s.
Proof.
  intros H. destruct cp as [p|]; [|reflexivity]. unfold wire_paths in H.
  destruct (int_field (heap_load (heap s) p 0 f_len)) as [len|] eqn:Hlen; [|discriminate].
  apply int_field_Some in Hlen as [Hlen _].
  assert (load_int (Some p) 0 f_len s = Ret len s) as Hl
      by (unfold load_int, load, bind; now rewrite Hlen).
  unfold toPaths64. rewrite (bind_Ret _ _ _ _ _ Hl).
  destruct (Z.leb_spec len 0) as [Hle|Hgt]; [reflexivity|exfalso].
  destruct (heap_load (heap s) p 0 f_items) as [[|[il|]]|]; try discriminate.
  destruct (heap s !! il) as [blk|]; [|discriminate].
  destruct (sized false (Z.to_nat len) blk) as [b'|] eqn:Hs; [|discriminate].
  apply sized_length in Hs. apply mapM_Forall2, Forall2_length in H.
  simpl in H. lia.
Qed.

Lemma export_failed_nil out s :
  writable_or_null (heap s) out ->
  exists s', export_failed [] out s = Ret false s' /\
    (forall q, writable (heap s) q -> writable (heap s') q) /\
    (forall p, out = Some p -> heap_load (heap s') p 0 f_len = Some (VInt 0)).
Proof.
  intros Hw. destruct (export_failed_returns [] out s Hw) as (f & s' & H & _ & Hkeep).
  pose proof H as [(-> & -> & ->)|(p & -> & Hex)]%export_failed_inv.
  - exists s. repeat split; auto. discriminate.
  - pose proof (fromPaths64_nil_true _ _ _ _ Hex) as Hf.
    destruct f; [discriminate|]. exists s'. repeat split; auto.
    intros p' [= <-].
    apply fromPaths64_footprint in Hex as (_ & c & rest & items & _ & Hp').
    unfold heap_load. now rewrite Hp'.
Qed.

(** X13. When the three input sets of the Boolean operation denote no
    path (null pointers or non-positive lengths), the operation calls no
    engine function and returns 0 whatever the allocator answers, and each
    requested output handle is left with length 0. *)
Theorem boolean64_empty_inputs (ct fr : Z) a b c oc oo s :
  wire_paths false (heap s) a = Some [] ->
  wire_paths false (heap s) b = Some [] ->
  wire_paths false (heap s) c = Some [] ->
  writable_or_null (heap s) oc -> writable_or_null (heap s) oo ->
  exists s',
    clipper2c_boolean64 ct fr a b c oc oo s = Ret 0 s' /\
    engine_events (trace s') = engine_events (trace s) /\
    forall p, oc = Some p \/ oo = Some p ->
              heap_load (heap s') p 0 f_len = Some (VInt 0).
Proof.
  intros Ha Hb Hc Hoc Hoo.
  destruct (export_failed_nil oc s Hoc) as (s1 & H1 & Hw1 & Hlen1).
  assert (writable_or_null (heap s1) oo) as Hoo1.
  { destruct oo as [q|]; [|exact I]. now apply Hw1. }
  destruct (export_failed_nil oo s1 Hoo1) as (s2 & H2 & _ & Hlen2).
  assert (clipper2c_boolean64 ct fr a b c oc oo s = Ret 0 s2) as Hcall.
  { assert (boolean64_compute ct fr a b c s = Ret ([], []) s) as Hcomp.
    { unfold boolean64_compute.
      rewrite (bind_Ret _ _ _ _ _ (toPaths64_empty _ _ Ha)).
      rewrite (bind_Ret _ _ _ _ _ (toPaths64_empty _ _ Hb)).
      now rewrite (bind_Ret _ _ _ _ _ (toPaths64_empty _ _ Hc)). }
    unfold clipper2c_boolean64, try_catch_all.
    rewrite (bind_Ret _ _ _ _ _ Hcomp). unfold boolean64_export. cbn [fst snd].
    rewrite (bind_Ret _ _ _ _ _ H1). now rewrite (bind_Ret _ _ _ _ _ H2). }
  exists s2. split; [exact Hcall|]. split.
  - apply export_failed_engine_events in H1, H2. congruence.
  - intros p Hp. destruct (decide (oo = Some p)) as [Heq|Hne]; [now apply Hlen2|].
    destruct Hp as [Hp|Hp]; [|contradiction].
    apply export_failed_kept in H2 as (F & _).
    specialize (Hlen1 p Hp). unfold heap_load in *. rewrite F; [exact Hlen1| |].
    + destruct (heap s1 !! p); [eauto|discriminate].
    + intros Hin. apply list_elem_of_singleton in Hin. congruence.
Qed.


(** ** An operation followed by the release of its outputs *)

Lemma set_handle_lookup_ne h p q len items :
  q <> p -> set_handle h p len items !! q = h !! q.
Proof.
  intros Hne. unfold set_handle. destruct (h !! p) as [[|c rest]|]; auto.
  now rewrite lookup_insert_ne.
Qed.

Lemma set_handle_dom h p len items l :
  is_Some (set_handle h p len items !! l) <-> is_Some (h !! l).
Proof.
  destruct (decide (l = p)) as [->|Hne]; [|now rewrite set_handle_lookup_ne].
  unfold set_handle. destruct (h !! p) as [[|c rest]|] eqn:Hp; rewrite ?Hp; try tauto.
  rewrite lookup_insert_eq. split; eauto.
Qed.

Lemma export_release (src : Paths64) p s0 s :
  fromPaths64 src (Some p) s0 = Ret true s ->
  exists s',
    clipper2c_free_paths (Some p) s = Ret tt s' /\
    heap s' = set_handle (heap s0) p 0 None.
Proof.
  intros Hex.
  destruct (fromPaths64_writable _ _ _ _ _ Hex) as (c & rest & Hp0).
  destruct (fromPaths64_post _ _ _ _ Hex) as (items & bufs & Hpop & Hfresh & Hframe & Hp').
  eexists. split.
  - apply (clipper2c_free_paths_spec _ _ _ _ _ (populated_releasable _ _ _ _ _ Hpop)).
  - simpl. apply (set_handle_released s0 p src s items bufs c rest Hp0 Hpop Hfresh Hframe
                    (Hp' c rest Hp0)).
Qed.

Lemma unary_dispatch_release (in_paths : ptr) p (ev : Paths64 -> event)
  (f : Paths64 -> exn + Paths64) s s1 :
  try_catch_all
    (do inp <- toPaths64 in_paths ;
     do out <- call_engine (ev inp) (f inp) ;
     do ok <- fromPaths64 out (Some p) ;
     if negb ok then ret 2 else ret 0) 1 s = Ret 0 s1 ->
  exists s2,
    clipper2c_free_paths (Some p) s1 = Ret tt s2 /\
    heap s2 = set_handle (heap s) p 0 None.
Proof.
  intros [([=] & _)|(inp & s0 & Hin & H)]%unary_dispatch_inv.
  apply toPaths64_Ret_memory in Hin as [Hh _].
  destruct (f inp) as [e|res]; [now destruct H|].
  destruct H as ([] & Hex & [=]).
  apply export_release in Hex as (s2 & Hfree & Hheap).
  exists s2. split; [exact Hfree|]. simpl in Hheap. now rewrite Hheap, Hh.
Qed.

(** X14. Nothing is lost when the caller releases what an operation
    returned: after status 0 from the offset or the rectangle-clip
    operation, releasing the output handle leaves the heap exactly as it
    was before the call, with the two fields of the handle reset; after
    status 0 from the Boolean operation with two distinct output handles,
    releasing the open and then the closed handle does the same. *)
Theorem operation_then_release_restores_heap :
  (forall paths delta (jt et : Z) miter_limit arc_tolerance p s s1,
     clipper2c_offset64 C_JOIN_BEVEL C_END_POLYGON paths delta jt et
       miter_limit arc_tolerance (Some p) s = Ret 0 s1 ->
     exists s2,
       clipper2c_free_paths (Some p) s1 = Ret tt s2 /\
       heap s2 = set_handle (heap s) p 0 None) /\
  (forall (l t r b : Z) in_paths p s s1,
     clipper2c_rectclip64 l t r b in_paths (Some p) s = Ret 0 s1 ->
     exists s2,
       clipper2c_free_paths (Some p) s1 = Ret tt s2 /\
       heap s2 = set_handle (heap s) p 0 None) /\
  (forall (ct fr : Z) a b c p q s s1,
     clipper2c_boolean64 ct fr a b c (Some p) (Some q) s = Ret 0 s1 ->
     p <> q -> writable (heap s) q ->
     exists s2 s3,
       clipper2c_free_paths (Some q) s1 = Ret tt s2 /\
       clipper2c_free_paths (Some p) s2 = Ret tt s3 /\
       heap s3 = set_handle (set_handle (heap s) q 0 None) p 0 None).
Proof.
  split; [|split].
  - intros paths delta jt et ml at' p s s1 H.
    exact (unary_dispatch_release paths p
             (fun inp => EvInflatePaths inp delta (toJT C_JOIN_BEVEL jt)
                           (toET C_END_POLYGON et) ml at')
             (fun inp => InflatePaths inp delta (toJT C_JOIN_BEVEL jt)
                           (toET C_END_POLYGON et) ml at') s s1 H).
  - intros l t r b in_paths p s s1 H.
    exact (unary_dispatch_release in_paths p
             (fun inp => EvRectClip (mkRect64 l t r b) inp)
             (fun inp => RectClip (mkRect64 l t r b) inp) s s1 H).
  - intros ct fr a b c p q s s3
      [([=] & _)|([sol solOpen] & s0 & Hc & H)]%boolean64_inv Hne Hq.
    pose proof (leaves_heap_boolean64_compute ct fr a b c s) as Hl.
    rewrite Hc in Hl. destruct Hl as (Hh & _).
    apply boolean64_export_inv in H as (f1 & s1 & H1 & H). cbn [fst snd] in *.
    destruct f1; [now destruct H|]. destruct H as (f2 & H2 & Hst).
    destruct f2; [discriminate|].
    apply export_failed_inv in H1 as [([=] & _)|(p' & [= <-] & H1)].
    apply export_failed_inv in H2 as [([=] & _)|(q' & [= <-] & H2)].
    simpl in H1, H2.
    destruct (export_release _ _ _ _ H2) as (s4 & Hfree4 & Hheap4).
    exists s4. 
    destruct (fromPaths64_writable _ _ _ _ _ H1) as (c0 & rest & Hp0).
    destruct (fromPaths64_post _ _ _ _ H1)
      as (items & bufs & Hpop & Hfresh & Hframe & Hp').
    assert (q ∉ owned_blocks items bufs) as Hq_notin.
    { intros Hin. apply Hfresh in Hin. apply Hin, elem_of_dom. rewrite Hh.
      destruct Hq as (cq & restq & Hq). rewrite Hq. eauto. }
    assert (populated (heap s4) p (exported_paths sol) items bufs) as Hpop4.
    { apply (populated_frame (heap s1)); [exact Hpop|].
      intros l Hl. rewrite Hheap4. apply set_handle_lookup_ne.
      destruct Hl as [->|Hl]; [exact Hne|]. intros ->. contradiction. }
    eexists. split; [exact Hfree4|]. split.
    + apply (clipper2c_free_paths_spec _ _ _ _ _ (populated_releasable _ _ _ _ _ Hpop4)).
    + simpl. rewrite <- Hh.
      apply (set_handle_released
               (mkState (set_handle (heap s0) q 0 None) (oracle s0) (trace s0))
               p sol s4 items bufs c0 rest); simpl.
      * now rewrite set_handle_lookup_ne.
      * exact Hpop4.
      * intros l Hl Hin. apply (Hfresh l Hl). apply elem_of_dom.
        apply elem_of_dom in Hin. now apply set_handle_dom in Hin.
      * intros l Hl Hlp. rewrite Hheap4.
        destruct (decide (l = q)) as [->|Hlq].
        -- unfold set_handle. rewrite (Hframe q) by auto.
           destruct (heap s0 !! q) as [[|cq restq]|]; auto.
           now rewrite !lookup_insert_eq.
        -- rewrite !set_handle_lookup_ne by auto. now apply Hframe.
      * rewrite Hheap4, set_handle_lookup_ne by auto. exact (Hp' c0 rest Hp0).
Qed.


End Properties.

(** * Examples on the sample memory *)

Lemma boolean64_strategy_witness :
  (exists s3,
     clipper2c_boolean64 1 1 (Some 1%positive) None (Some 1%positive) (Some 8%positive)
       None (sample_state echo_engine)
     = boolean64_export ([square; []], []) (Some 8%positive) None
         (with_trace s3 [EvAddSubject [square; []]; EvAddClip [square; []];
                         EvExecute CT_Union FR_NonZero])) /\
  (exists s',
     boolean64_export ([square], []) (Some 8%positive) (Some 9%positive)
       (sample_state echo_engine) = Ret 0 s' /\
     exists items bufs, populated (heap s') 8 (exported_paths [square]) items bufs) /\
  boolean64_solve 1 1 [square] [] [square] (sample_state echo_engine)
  = Ret ([square], [])
        (with_trace (sample_state echo_engine)
           [EvAddSubject [square]; EvAddClip [square]; EvExecute CT_Union FR_NonZero]) /\
  boolean64_solve 1 1 [square] [] [] (sample_state echo_engine)
  = Ret ([square], [])
        (with_trace (sample_state echo_engine)
           [EvBooleanOp CT_Union FR_NonZero [square] []]) /\
  boolean64_solve 1 1 [] [] [square] (sample_state echo_engine)
  = Ret ([], []) (sample_state echo_engine).
Proof.
  split; [|split; [|split; [|split]]].
  - destruct (proj1 (boolean64_strategy (E := echo_engine) 1 1 [square; []] []
                       [square; []] (sample_state echo_engine))
                (Some 1%positive) None (Some 1%positive) (Some 8%positive) None
                (sample_state echo_engine))
      as (s3 & _ & _ & Hfull & _); try (vm_compute; reflexivity); [constructor|].
    exists s3. apply Hfull. right. split; discriminate.
  - destruct (proj1 (proj2 (boolean64_strategy (E := echo_engine) 1 1 [] [] []
                              (sample_state echo_engine)))
                [square] [] (Some 8%positive) (Some 9%positive) (sample_state echo_engine))
      as (st & s' & Hex & _ & _ & Hpop).
    + eexists _, _. vm_compute. reflexivity.
    + eexists _, _. vm_compute. reflexivity.
    + assert (st = 0) as -> by (vm_compute in Hex; now injection Hex as <- _).
      exists s'. split; [exact Hex|].
      apply (proj2 (Hpop eq_refl) 8%positive); [reflexivity | discriminate].
  - refine (proj1 (proj2 (proj2 (boolean64_strategy (E := echo_engine) 1 1 [square] []
                                   [square] _))) _).
    right. split; discriminate.
  - refine (proj1 (proj2 (proj2 (proj2 (boolean64_strategy (E := echo_engine) 1 1 [square]
                                          [] [] _)))) _ _ _);
      [reflexivity | discriminate | reflexivity].
  - refine (proj2 (proj2 (proj2 (proj2 (boolean64_strategy (E := echo_engine) 1 1 [] []
                                          [square] _)))) _ _); reflexivity.
Defined.

Lemma status_codes_witness :
  (exists st s',
     clipper2c_boolean64 1 1 (Some 1%positive) None (Some 1%positive)
       (Some 8%positive) (Some 9%positive) (sample_state echo_engine) = Ret st s') /\
  (exists st s',
     clipper2c_offset64 (E := echo_engine) 3 4 (Some 1%positive) 2 0 0 2 0
       (Some 8%positive) (sample_state echo_engine) = Ret st s') /\
  (exists st s',
     clipper2c_rectclip64 0 0 5 5 (Some 1%positive) (Some 8%positive)
       (sample_state echo_engine) = Ret st s').
Proof.
  destruct (status_codes (E := echo_engine) 3 4) as (Hb & Ho & Hr).
  split; [|split].
  - apply (proj2 (proj2 (Hb 1 1 (Some 1%positive) None (Some 1%positive)
                           (Some 8%positive) (Some 9%positive) (sample_state echo_engine))));
      try (eexists; vm_compute; reflexivity);
      (eexists _, _; vm_compute; reflexivity).
  - apply (proj2 (proj2 (Ho (Some 1%positive) 2 0 0 2 0 (Some 8%positive)
                           (sample_state echo_engine))));
      [eexists; vm_compute; reflexivity | eexists _, _; vm_compute; reflexivity].
  - apply (proj2 (proj2 (Hr 0 0 5 5 (Some 1%positive) (Some 8%positive)
                           (sample_state echo_engine))));
      [eexists; vm_compute; reflexivity | eexists _, _; vm_compute; reflexivity].
Defined.

Lemma export_import_roundtrip_witness :
  exists s1 s2,
    toPaths64 (Some 1%positive) (sample_state echo_engine) = Ret [square; []] s1 /\
    fromPaths64 [square; []] (Some 8%positive) s1 = Ret true s2 /\
    wire_paths true (heap s2) (Some 8%positive) = Some [square; []].
Proof.
  destruct (export_import_roundtrip (sample_state echo_engine) true 1 8 [square; []])
    as [Hsame Hruns].
  - vm_compute. reflexivity.
  - eexists _, _. vm_compute. reflexivity.
  - destruct Hruns as (s1 & s2 & Hin & Hout); [constructor|].
    exists s1, s2. split; [exact Hin|]. split; [exact Hout|].
    exact (proj1 (proj2 (Hsame _ _ _ Hin Hout))).
Defined.

(** The handle at 8 after the export of the empty path set: [len = 0] and
    a live zero-sized array at 10. *)
Lemma release_spec_witness :
  clipper2c_free_paths (Some 7%positive) (sample_state echo_engine)
  = Ret tt (sample_state echo_engine) /\
  exists s1,
    fromPaths64 [square; []] (Some 8%positive) (sample_state echo_engine) = Ret true s1 /\
    exists items bufs,
      clipper2c_free_paths (Some 8%positive) s1
      = Ret tt (mkState (set_handle sample_heap 8 0 None) (oracle s1)
                        (trace s1 ++ (EvDelete <$> omap id bufs)
                                  ++ (EvDelete <$> omap id [items]))).
Proof.
  split.
  - apply (proj1 (proj2 (release_spec (sample_state echo_engine) 7))).
    vm_compute. reflexivity.
  - eexists. split; [vm_compute; reflexivity|].
    match goal with
    | |- exists items bufs, clipper2c_free_paths _ ?s1 = _ =>
        destruct (proj2 (proj2 (proj2 (release_spec s1 8))) [square; []]
                    (sample_state echo_engine)) as (items & bufs & _ & Hfree & _)
    end.
    + vm_compute. reflexivity.
    + exists items, bufs. exact Hfree.
Defined.

(** A handle with [len = 0] on which the release is not a no-op: the
    handle that the export of an empty path set writes. *)
Lemma release_len0_not_noop :
  exists s1 s2,
    fromPaths64 [] (Some 8%positive) (sample_state echo_engine) = Ret true s1 /\
    heap_load (heap s1) 8 0 f_len = Some (VInt 0) /\
    heap_load (heap s1) 8 0 f_items = Some (VPtr (Some 10%positive)) /\
    clipper2c_free_paths (Some 8%positive) s1 = Ret tt s2 /\
    heap_load (heap s2) 8 0 f_items = Some (VPtr None) /\
    trace s2 = trace s1 ++ [EvDelete 10%positive] /\
    s2 <> s1.
Proof.
  eexists _, _. split; [vm_compute; reflexivity|].
  split; [vm_compute; reflexivity|]. split; [vm_compute; reflexivity|].
  split; [vm_compute; reflexivity|]. split; [vm_compute; reflexivity|].
  split; [vm_compute; reflexivity|].
  intros H. apply (f_equal trace) in H. vm_compute in H. discriminate.
Qed.

Lemma jointype_never_bevel_witness :
  toJT 3 (c_jointype_value JOIN_ROUND) = JT_Round /\
  toJT 3 (c_jointype_value JOIN_MITER) = JT_Miter.
Proof.
  destruct (jointype_never_bevel (E := echo_engine) 3 4) as (_ & _ & (_ & H1 & H2) & _);
    [discriminate | discriminate | discriminate |].
  split; [exact H1 | exact H2].
Defined.


Lemma rectclip64_passes_rectangle_witness :
  exists s',
    clipper2c_rectclip64 5 6 1 2 (Some 1%positive) (Some 8%positive)
      (sample_state echo_engine) = Ret 0 s' /\
    engine_events (trace s')
    = [EvRectClip (mkRect64 5 6 1 2) [square; []]].
Proof.
  pose proof (rectclip64_passes_rectangle (E := echo_engine) 5 6 1 2 (Some 1%positive)
                (Some 8%positive) (sample_state echo_engine) [square; []]
                (sample_state echo_engine)) as H.
  destruct H as (ok & s' & Hcall & Hex & Hev & _).
  - vm_compute. reflexivity.
  - eexists _, _. vm_compute. reflexivity.
  - vm_compute in Hex. injection Hex as <- <-.
    eexists. split; [exact Hcall | exact Hev].
Defined.

Lemma import_total_witness :
  imports (sample_state echo_engine) [[]]
    (toPaths64 (Some 5%positive) (sample_state echo_engine)) /\
  toPaths64_path (Some 6%positive) 0 (sample_state echo_engine)
  = Ret [] (sample_state echo_engine).
Proof.
  destruct (import_total (sample_state echo_engine)) as (_ & Hview & Hnull).
  split.
  - apply (Hview (Some 5%positive)). vm_compute. reflexivity.
  - apply (Hnull 6%positive [(Some (VInt 3), Some (VPtr None))] 0%nat 3);
      vm_compute; reflexivity.
Defined.

(** A path set of length 1 with a null path array: [toPaths64] goes
    through the null [items] pointer. *)
Lemma import_null_items_faults :
  heap_load sample_heap 7 0 f_len = Some (VInt 1) /\
  heap_load sample_heap 7 0 f_items = Some (VPtr None) /\
  toPaths64 (Some 7%positive) (sample_state echo_engine) = Fault.
Proof. repeat split; vm_compute; reflexivity. Qed.

Lemma null_output_status_witness :
  exists s',
    clipper2c_rectclip64 0 0 5 5 (Some 1%positive) None (sample_state echo_engine)
    = Ret 2 s' /\ heap s' = sample_heap.
Proof.
  eexists. split; [vm_compute; reflexivity|].
  match goal with
  | |- heap ?s' = _ =>
      apply (proj1 (proj2 (null_output_status (E := echo_engine) 3 4) 0 0 5 5
                      (Some 1%positive) (sample_state echo_engine)) 2 s')
  end.
  vm_compute. reflexivity.
Defined.

(** With a null output pointer and an engine that raises a failure, or an
    allocator that refuses the import, the status is 1, not 2. *)
Lemma null_output_status_1 :
  clipper2c_rectclip64 0 0 5 5 (Some 1%positive) None (sample_state failing_engine)
  = Ret 1 (with_trace (sample_state failing_engine)
             [EvRectClip (mkRect64 0 0 5 5) [square; []]]) /\
  clipper2c_offset64 (E := failing_engine) 3 4 (Some 1%positive) 2 0 0 2 0 None
    (sample_state failing_engine)
  = Ret 1 (with_trace (sample_state failing_engine)
             [@EvInflatePaths failing_engine [square; []] 2 JT_Square ET_Butt 2 0]) /\
  clipper2c_rectclip64 0 0 5 5 (Some 1%positive) None (starved_state echo_engine)
  = Ret 1 (sample_state echo_engine).
Proof. repeat split; vm_compute; reflexivity. Qed.

Lemma release_idempotent_witness :
  exists s1,
    clipper2c_free_paths (Some 8%positive) (owned_state echo_engine) = Ret tt s1 /\
    heap_load (heap s1) 8 0 f_len = Some (VInt 0) /\
    heap_load (heap s1) 8 0 f_items = Some (VPtr None) /\
    free_paths_times (Some 8%positive) 3 (owned_state echo_engine) = Ret tt s1 /\
    free_paths_times (Some 7%positive) 2 (sample_state echo_engine)
    = Ret tt (sample_state echo_engine) /\
    free_paths_times (Some 7%positive) 5 (sample_state echo_engine)
    = Ret tt (sample_state echo_engine).
Proof.
  destruct (proj1 (release_idempotent (owned_state echo_engine) 8) 2 (Some 10%positive)
              [Some 11%positive; None])
    as (s1 & Hfree & Hlen & Hitems & _ & Htimes).
  - split; [eexists; vm_compute; reflexivity|]. split; [|split].
    + eexists. split; [vm_compute; reflexivity|]. split; [|reflexivity].
      repeat constructor.
    + intros l Hl. apply list_elem_of_singleton in Hl as ->.
      eexists. vm_compute. reflexivity.
    + compute_done.
  - exists s1. split; [exact Hfree|]. split; [exact Hlen|]. split; [exact Hitems|].
    split; [exact (Htimes 2%nat)|]. split.
    + refine (proj1 (proj2 (proj2 (proj1 (proj2 (release_idempotent
                                                   (sample_state echo_engine) 7))
                                     (sample_state echo_engine) _))) 1%nat).
      vm_compute. reflexivity.
    + refine (proj2 (proj2 (release_idempotent (sample_state echo_engine) 7)) _ 5%nat).
      vm_compute. reflexivity.
Defined.

(** A handle that a failed export leaves with [len = 1] and a null path
    array: releasing it, once or more, changes nothing, and [len] stays 1. *)
Lemma release_keeps_nonzero_len :
  exists s1,
    fromPaths64 [square] (Some 8%positive) (starved_state echo_engine) = Ret false s1 /\
    heap_load (heap s1) 8 0 f_len = Some (VInt 1) /\
    heap_load (heap s1) 8 0 f_items = Some (VPtr None) /\
    clipper2c_free_paths (Some 8%positive) s1 = Ret tt s1 /\
    free_paths_times (Some 8%positive) 3 s1 = Ret tt s1.
Proof. eexists. repeat split; vm_compute; reflexivity. Qed.

Lemma export_never_reclaims_witness :
  exists s',
    fromPaths64 [square] (Some 8%positive) (rationed_state echo_engine [true; false])
    = Ret false s' /\
    exists news,
      trace s' = trace (rationed_state echo_engine [true; false]) ++ news /\
      Forall (allocated (rationed_state echo_engine [true; false]) s') news.
Proof.
  eexists. split; [vm_compute; reflexivity|].
  match goal with
  | |- exists news, trace ?s1 = _ /\ _ =>
      destruct (export_never_reclaims (E := echo_engine) [square] 8
                  (rationed_state echo_engine [true; false]) false s1) as (_ & _ & H)
  end.
  - vm_compute. reflexivity.
  - exact H.
Defined.

Lemma export_succeeds_witness :
  exists s',
    fromPaths64 [] (Some 8%positive) (starved_state echo_engine) = Ret true s' /\
    heap_load (heap s') 8 0 f_len = Some (VInt 0).
Proof.
  apply (export_succeeds (E := echo_engine) [square] 8 (starved_state echo_engine)).
  eexists _, _. vm_compute. reflexivity.
Defined.

Lemma import_after_export_witness :
  exists s1,
    fromPaths64 [square; []] (Some 8%positive) (sample_state echo_engine) = Ret true s1 /\
    wire_paths true (heap s1) (Some 8%positive) = Some (exported_paths [square; []]).
Proof.
  eexists. split; [vm_compute; reflexivity|].
  match goal with
  | |- wire_paths true (heap ?s1) _ = _ =>
      apply (import_after_export (E := echo_engine) [square; []] 8
               (sample_state echo_engine) s1)
  end.
  vm_compute. reflexivity.
Defined.

Lemma owned_heap_releasable h :
  h !! 8%positive = Some [handle_cell 2 (Some 10%positive)] ->
  h !! 10%positive = Some [path_cell square (Some 11%positive); path_cell [] None] ->
  is_Some (h !! 11%positive) ->
  releasable h 8 2 (Some 10%positive) [Some 11%positive; None].
Proof.
  intros H8 H10 H11. split; [eexists; exact H8|]. split; [|split].
  - eexists. split; [exact H10|]. split; [|reflexivity]. repeat constructor.
  - intros l Hl. apply list_elem_of_singleton in Hl as ->. exact H11.
  - compute_done.
Defined.

Lemma release_frees_exactly_owned_witness :
  exists s',
    clipper2c_free_paths (Some 8%positive) (bridge_owned_state echo_engine) = Ret tt s' /\
    heap s' !! 10%positive = None /\ heap s' !! 11%positive = None /\
    from_new (trace s') 10 = false /\ from_new (trace s') 11 = false /\
    trace s' = trace (bridge_owned_state echo_engine)
               ++ [EvDelete 11%positive; EvDelete 10%positive].
Proof.
  destruct (release_frees_exactly_owned (E := echo_engine) (bridge_owned_state echo_engine)
              8 2 (Some 10%positive) [Some 11%positive; None])
    as (s' & Hfree & Hgone & _ & _ & Ht & _).
  - apply owned_heap_releasable; [reflexivity | reflexivity | eexists; reflexivity].
  - intros l Hl. apply elem_of_cons in Hl as [->|Hl]; [reflexivity|].
    apply list_elem_of_singleton in Hl as ->. reflexivity.
  - exists s'. split; [exact Hfree|].
    assert (10%positive ∈ owned_blocks (Some 10%positive) [Some 11%positive; None])
      as H10 by compute_done.
    assert (11%positive ∈ owned_blocks (Some 10%positive) [Some 11%positive; None])
      as H11 by compute_done.
    split; [apply (Hgone _ H10)|]. split; [apply (Hgone _ H11)|].
    split; [apply (Hgone _ H10)|]. split; [apply (Hgone _ H11)|]. exact Ht.
Defined.

Lemma stale_handle_undefined_witness :
  exists s1,
    clipper2c_free_paths (Some 8%positive) (aliased_state echo_engine) = Ret tt s1 /\
    clipper2c_free_paths (Some 9%positive) s1 = Fault /\
    forall ps s2, toPaths64 (Some 9%positive) s1 <> Ret ps s2.
Proof.
  destruct (stale_handle_undefined (E := echo_engine) (aliased_state echo_engine) 8 9 2
              10 [Some 11%positive; None] [])
    as (s1 & Hfree & Hdouble & Hread).
  - apply owned_heap_releasable; [reflexivity | reflexivity | eexists; reflexivity].
  - discriminate.
  - compute_done.
  - reflexivity.
  - exists s1. split; [exact Hfree|]. split; [exact Hdouble|]. apply Hread. lia.
Defined.


Lemma cliptype_fillrule_decoding_witness :
  clipper2c_boolean64 7 1 (Some 1%positive) None None (Some 8%positive) None
    (sample_state echo_engine)
  = clipper2c_boolean64 C_CLIP_INTERSECTION 1 (Some 1%positive) None None
      (Some 8%positive) None (sample_state echo_engine) /\
  clipper2c_boolean64 1 (-1) (Some 1%positive) None None (Some 8%positive) None
    (sample_state echo_engine)
  = clipper2c_boolean64 1 C_FILL_EVENODD (Some 1%positive) None None
      (Some 8%positive) None (sample_state echo_engine).
Proof.
  destruct (cliptype_fillrule_decoding (E := echo_engine)) as (_ & _ & Hct & Hfr).
  split; [apply Hct | apply Hfr]; lia.
Defined.

Lemma offset_style_decoding_witness :
  toET 4 9 = ET_Polygon /\ toJT 3 (-1) = JT_Square /\
  toET 4 C_END_JOINED = ET_Joined /\ toET 4 C_END_BUTT <> ET_Polygon.
Proof.
  destruct (offset_style_decoding (E := echo_engine) 3 4) as (Het & Hjt & _ & _ & Hpub).
  destruct Hpub as (_ & _ & _ & Hjoined & Hnever); [lia|].
  split; [apply Het; lia|]. split; [apply Hjt; lia|]. split; [exact Hjoined|].
  apply Hnever. unfold C_END_BUTT. lia.
Defined.

Lemma offset64_passes_arguments_witness :
  exists s',
    clipper2c_offset64 (E := echo_engine) 3 4 (Some 1%positive) 5 1 3 2 0
      (Some 8%positive) (sample_state echo_engine) = Ret 0 s' /\
    engine_events (trace s')
    = [EvInflatePaths (E := echo_engine) [square; []] 5 JT_Round ET_Joined 2 0].
Proof.
  pose proof (offset64_passes_arguments (E := echo_engine) 3 4 (Some 1%positive) 5 1 3 2 0
                (Some 8%positive) (sample_state echo_engine) [square; []]
                (sample_state echo_engine)) as H.
  destruct H as (ok & s' & Hcall & Hex & Hev & _).
  - vm_compute. reflexivity.
  - eexists _, _. vm_compute. reflexivity.
  - vm_compute in Hex. injection Hex as <- <-.
    eexists. split; [exact Hcall | exact Hev].
Defined.

Lemma status_1_leaves_memory_witness :
  exists s',
    clipper2c_rectclip64 0 0 5 5 (Some 1%positive) (Some 8%positive)
      (sample_state failing_engine) = Ret 1 s' /\
    heap s' = heap (sample_state failing_engine).
Proof.
  eexists. split; [vm_compute; reflexivity|].
  match goal with
  | |- heap ?s1 = _ =>
      destruct (status_1_leaves_memory (E := failing_engine) 3 4) as (_ & _ & H);
      apply (H 0 0 5 5 (Some 1%positive) (Some 8%positive)
               (sample_state failing_engine) s1)
  end.
  vm_compute. reflexivity.
Defined.

Lemma operations_keep_caller_memory_witness :
  exists s',
    clipper2c_boolean64 1 1 (Some 1%positive) None (Some 1%positive) (Some 8%positive)
      None (sample_state echo_engine) = Ret 0 s' /\
    caller_memory_kept [Some 8%positive; None] (sample_state echo_engine) s'.
Proof.
  eexists. split; [vm_compute; reflexivity|].
  match goal with
  | |- caller_memory_kept _ _ ?s1 =>
      destruct (operations_keep_caller_memory (E := echo_engine) 3 4) as (H & _);
      apply (H 1 1 (Some 1%positive) None (Some 1%positive) (Some 8%positive) None
               (sample_state echo_engine) 0 s1)
  end.
  vm_compute. reflexivity.
Defined.

Lemma boolean64_partial_outputs_witness :
  (exists s',
     clipper2c_boolean64 1 1 (Some 1%positive) None None (Some 8%positive)
       (Some 9%positive) (rationed_state echo_engine [true; true; false]) = Ret 2 s' /\
     caller_memory_kept [Some 8%positive]
       (rationed_state echo_engine [true; true; false]) s') /\
  (exists s',
     clipper2c_boolean64 1 1 None (Some 1%positive) None (Some 8%positive)
       (Some 9%positive) (rationed_state echo_engine [true; true; true; false])
     = Ret 3 s' /\
     exists items bufs, populated (heap s') 8 (exported_paths []) items bufs).
Proof.
  split.
  - eexists. split; [vm_compute; reflexivity|].
    match goal with
    | |- caller_memory_kept _ _ ?s1 =>
        apply (proj1 (boolean64_partial_outputs (E := echo_engine) 1 1 (Some 1%positive)
                        None None (Some 8%positive) (Some 9%positive)
                        (rationed_state echo_engine [true; true; false]) s1))
    end.
    vm_compute. reflexivity.
  - eexists. split; [vm_compute; reflexivity|].
    match goal with
    | |- exists items bufs, populated (heap ?s1) _ _ _ _ =>
        destruct (proj2 (boolean64_partial_outputs (E := echo_engine) 1 1 None
                           (Some 1%positive) None (Some 8%positive) (Some 9%positive)
                           (rationed_state echo_engine [true; true; true; false]) s1))
          as (sol & solOpen & s1' & s2 & q & Hc & _ & _ & Hpop)
    end.
    + vm_compute. reflexivity.
    + eexists _, _. vm_compute. reflexivity.
    + vm_compute in Hc. injection Hc as <- _ _.
      apply (Hpop 8%positive); [reflexivity | discriminate].
Defined.

Lemma boolean64_empty_inputs_witness :
  exists s',
    clipper2c_boolean64 1 1 None None None (Some 8%positive) (Some 9%positive)
      (starved_state echo_engine) = Ret 0 s' /\
    heap_load (heap s') 8 0 f_len = Some (VInt 0) /\
    heap_load (heap s') 9 0 f_len = Some (VInt 0).
Proof.
  destruct (boolean64_empty_inputs (E := echo_engine) 1 1 None None None
              (Some 8%positive) (Some 9%positive) (starved_state echo_engine))
    as (s' & Hcall & _ & Hlen); try reflexivity.
  - eexists _, _. vm_compute. reflexivity.
  - eexists _, _. vm_compute. reflexivity.
  - exists s'. split; [exact Hcall|]. split; apply Hlen; auto.
Defined.


Lemma operation_then_release_restores_heap_witness :
  (exists s1 s2,
     clipper2c_rectclip64 0 0 5 5 (Some 1%positive) (Some 8%positive)
       (sample_state echo_engine) = Ret 0 s1 /\
     clipper2c_free_paths (Some 8%positive) s1 = Ret tt s2 /\
     heap s2 = set_handle sample_heap 8 0 None) /\
  (exists s1 s2 s3,
     clipper2c_boolean64 1 1 (Some 1%positive) (Some 1%positive) None (Some 8%positive)
       (Some 9%positive) (sample_state echo_engine) = Ret 0 s1 /\
     clipper2c_free_paths (Some 9%positive) s1 = Ret tt s2 /\
     clipper2c_free_paths (Some 8%positive) s2 = Ret tt s3 /\
     heap s3 = set_handle (set_handle sample_heap 9 0 None) 8 0 None).
Proof.
  destruct (operation_then_release_restores_heap (E := echo_engine) 3 4)
    as (_ & Hrect & Hbool).
  split.
  - eexists. 
    match goal with
    | |- exists s2, ?call = Ret 0 ?s1 /\ _ =>
        assert (call = Ret 0 s1) as Hcall by (vm_compute; reflexivity)
    end.
    destruct (Hrect _ _ _ _ _ _ _ _ Hcall) as (s2 & Hfree & Hheap).
    exists s2. split; [exact Hcall|]. split; [exact Hfree | exact Hheap].
  - eexists.
    match goal with
    | |- exists s2 s3, ?call = Ret 0 ?s1 /\ _ =>
        assert (call = Ret 0 s1) as Hcall by (vm_compute; reflexivity)
    end.
    destruct (Hbool _ _ _ _ _ _ _ _ _ Hcall) as (s2 & s3 & Hfree2 & Hfree3 & Hheap).
    + discriminate.
    + eexists _, _. vm_compute. reflexivity.
    + exists s2, s3. split; [exact Hcall|]. split; [exact Hfree2|].
      split; [exact Hfree3 | exact Hheap].
Defined.

